(** * Gaussian-process kernels and GP variants of pymc3 ([pymc3/gp/cov.py],
      [pymc3/gp/gp.py]): a shallow embedding and the properties of its
      specification.

    Modelling choices.

    - The Python code builds Theano graphs: [tt.dot (...)], [tt.exp (...)]
      return symbolic tensors.  The graph is data of the program, so it is
      the inductive type [texp]; every Python function of the source is a
      Rocq function that builds the same graph, node for node.
    - The value of a graph is given by [eval], over arrays of real numbers
      ([ndarray]); binary64 arithmetic is idealised as real arithmetic.
      [eval] answers [None] where NumPy/Theano raise (shape mismatch, index
      out of range) and where the value is not a real number (division by
      zero, logarithm or root outside the domain, failed Cholesky).
    - Python exceptions are the type [exn]; functions that can raise return
      [result].  *)

From Stdlib Require Import String Ascii.
From Stdlib Require Import Reals Lra Lia ZArith Bool Arith List Permutation.
Import ListNotations.


(** ** Python exceptions *)

Inductive exn :=
| ValueError
| TypeError
| AttributeError
| NotImplementedError
| IndexError
| GPValueError.

Inductive result (A : Type) :=
| Ok (a : A)
| Raise (e : exn).
Arguments Ok {A} a.
Arguments Raise {A} e.

Definition rbind {A B} (r : result A) (k : A -> result B) : result B :=
  match r with
  | Ok a => k a
  | Raise e => Raise e
  end.

Definition obind {A B} (o : option A) (k : A -> option B) : option B :=
  match o with
  | Some a => k a
  | None => None
  end.

Declare Scope py_scope.
Delimit Scope py_scope with py.
Notation "x <- c ;; k" := (obind c (fun x => k))
  (at level 61, c at next level, right associativity) : py_scope.
Notation "x <~ c ;; k" := (rbind c (fun x => k))
  (at level 61, c at next level, right associativity) : py_scope.

Open Scope R_scope.
Open Scope py_scope.

(** ** NumPy arrays over the reals *)

Module Np.

Inductive ndarray :=
| Scalar (x : R)
| Vec (v : list R)
| Mat (m : list (list R)).

Definition ndim (a : ndarray) : nat :=
  match a with
  | Scalar _ => 0
  | Vec _ => 1
  | Mat _ => 2
  end.

Definition nrows (m : list (list R)) : nat := length m.
Definition ncols (m : list (list R)) : nat := length (hd [] m).
Definition get (m : list (list R)) (i j : nat) : R := nth j (nth i m []) 0.

(** A NumPy matrix is rectangular. *)
Definition rect (r c : nat) (m : list (list R)) : Prop :=
  length m = r /\ Forall (fun row => length row = c) m.

Definition tabulate {A} (n : nat) (f : nat -> A) : list A := map f (seq 0 n).
Definition mat_tab (r c : nat) (f : nat -> nat -> R) : list (list R) :=
  tabulate r (fun i => tabulate c (f i)).

Fixpoint sequence {A} (l : list (option A)) : option (list A) :=
  match l with
  | [] => Some []
  | o :: l' => x <- o ;; xs <- sequence l' ;; Some (x :: xs)
  end.

Definition rsum (l : list R) : R := fold_right Rplus 0 l.
Definition sum_n (n : nat) (f : nat -> R) : R := rsum (tabulate n f).

(** [a.shape[0]]; a 0-d array has an empty shape tuple. *)
Definition shape0 (a : ndarray) : option nat :=
  match a with
  | Scalar _ => None
  | Vec v => Some (length v)
  | Mat m => Some (nrows m)
  end.

(** Broadcasting of one dimension: equal, or one of them is 1. *)
Definition bdim (n m : nat) : option nat :=
  if n =? m then Some n
  else if n =? 1 then Some m
  else if m =? 1 then Some n
  else None.

Definition bidx (n i : nat) : nat := if n =? 1 then O else i.

Section Elementwise.
Variable f : R -> R -> option R.

Definition bvec (u v : list R) : option (list R) :=
  n <- bdim (length u) (length v) ;;
  sequence (tabulate n (fun i =>
    f (nth (bidx (length u) i) u 0) (nth (bidx (length v) i) v 0))).

Definition bmat (a b : list (list R)) : option (list (list R)) :=
  r <- bdim (nrows a) (nrows b) ;;
  c <- bdim (ncols a) (ncols b) ;;
  sequence (tabulate r (fun i => sequence (tabulate c (fun j =>
    f (get a (bidx (nrows a) i) (bidx (ncols a) j))
      (get b (bidx (nrows b) i) (bidx (ncols b) j)))))).

(** Elementwise binary operation with NumPy broadcasting; a vector
    against a matrix is a single row. *)
Definition bop (a b : ndarray) : option ndarray :=
  match a, b with
  | Scalar x, Scalar y => option_map Scalar (f x y)
  | Scalar x, Vec v => option_map Vec (sequence (map (f x) v))
  | Vec u, Scalar y => option_map Vec (sequence (map (fun x => f x y) u))
  | Scalar x, Mat m =>
      option_map Mat (sequence (map (fun row => sequence (map (f x) row)) m))
  | Mat m, Scalar y =>
      option_map Mat
        (sequence (map (fun row => sequence (map (fun x => f x y) row)) m))
  | Vec u, Vec v => option_map Vec (bvec u v)
  | Vec u, Mat m => option_map Mat (bmat [u] m)
  | Mat m, Vec v => option_map Mat (bmat m [v])
  | Mat a, Mat b => option_map Mat (bmat a b)
  end.
End Elementwise.

Definition uop (f : R -> option R) (a : ndarray) : option ndarray :=
  match a with
  | Scalar x => option_map Scalar (f x)
  | Vec v => option_map Vec (sequence (map f v))
  | Mat m => option_map Mat (sequence (map (fun row => sequence (map f row)) m))
  end.

(** Scalar operations; [None] where binary64 gives inf or nan. *)
Definition radd (x y : R) : option R := Some (x + y).
Definition rsub (x y : R) : option R := Some (x - y).
Definition rmul (x y : R) : option R := Some (x * y).
Definition rdiv (x y : R) : option R :=
  if Req_dec_T y 0 then None else Some (x / y).
Definition rsqrt (x : R) : option R :=
  if Rlt_dec x 0 then None else Some (sqrt x).
Definition rlog (x : R) : option R :=
  if Rlt_dec 0 x then Some (ln x) else None.
Definition rpow (x y : R) : option R :=
  if Rlt_dec 0 x then Some (Rpower x y)
  else if Req_dec_T x 0 then
    (if Rlt_dec 0 y then Some 0 else if Req_dec_T y 0 then Some 1 else None)
  else None.

Definition add := bop radd.
Definition sub := bop rsub.
Definition mul := bop rmul.
Definition div := bop rdiv.
Definition power := bop rpow.

(** [np.diag]: a vector gives the diagonal matrix, a matrix its diagonal. *)
Definition diag (a : ndarray) : option ndarray :=
  match a with
  | Scalar _ => None
  | Vec v =>
      Some (Mat (mat_tab (length v) (length v)
                   (fun i j => if i =? j then nth i v 0 else 0)))
  | Mat m => Some (Vec (tabulate (Nat.min (nrows m) (ncols m))
                          (fun i => get m i i)))
  end.

Definition eye (n : nat) : list (list R) :=
  mat_tab n n (fun i j => if i =? j then 1 else 0).

Definition transpose (m : list (list R)) : list (list R) :=
  mat_tab (ncols m) (nrows m) (fun i j => get m j i).

Definition trace (m : list (list R)) : R :=
  sum_n (Nat.min (nrows m) (ncols m)) (fun i => get m i i).

Definition matmul (a b : list (list R)) : list (list R) :=
  mat_tab (nrows a) (ncols b)
    (fun i j => sum_n (ncols a) (fun k => get a i k * get b k j)).

(** [dot] for arrays of dimension at most two. *)
Definition dot (a b : ndarray) : option ndarray :=
  match a, b with
  | Scalar _, _ | _, Scalar _ => mul a b
  | Vec u, Vec v =>
      if length u =? length v
      then Some (Scalar (sum_n (length u) (fun k => nth k u 0 * nth k v 0)))
      else None
  | Mat m, Vec v =>
      if ncols m =? length v
      then Some (Vec (tabulate (nrows m) (fun i =>
             sum_n (length v) (fun k => get m i k * nth k v 0))))
      else None
  | Vec u, Mat m =>
      if length u =? nrows m
      then Some (Vec (tabulate (ncols m) (fun j =>
             sum_n (length u) (fun k => nth k u 0 * get m k j))))
      else None
  | Mat a, Mat b =>
      if ncols a =? nrows b then Some (Mat (matmul a b)) else None
  end.

(** [sum] over everything, or along one axis. *)
Definition sum (a : ndarray) (axis : option nat) : option ndarray :=
  match a, axis with
  | Scalar x, None => Some (Scalar x)
  | Vec v, None | Vec v, Some O => Some (Scalar (rsum v))
  | Mat m, None => Some (Scalar (rsum (map rsum m)))
  | Mat m, Some O =>
      Some (Vec (tabulate (ncols m) (fun j =>
                   sum_n (nrows m) (fun i => get m i j))))
  | Mat m, Some (S O) => Some (Vec (map rsum m))
  | _, _ => None
  end.

Definition flat (a : ndarray) : list R :=
  match a with
  | Scalar x => [x]
  | Vec v => v
  | Mat m => concat m
  end.

(** [reshape] to a two-dimensional shape; one entry may be [-1]. *)
Definition reshape (a : ndarray) (shape : Z * Z) : option ndarray :=
  let d := flat a in
  let n := length d in
  let build r c :=
    if (r * c =? n)%nat
    then Some (Mat (mat_tab r c (fun i j => nth (i * c + j) d 0)))
    else None in
  let '(r, c) := shape in
  if (r =? -1)%Z then
    (if (0 <? c)%Z then build (n / Z.to_nat c)%nat (Z.to_nat c) else None)
  else if (c =? -1)%Z then
    (if (0 <? r)%Z then build (Z.to_nat r) (n / Z.to_nat r)%nat else None)
  else if ((0 <=? r) && (0 <=? c))%Z then build (Z.to_nat r) (Z.to_nat c)
  else None.

(** Integer index into an axis of length [n]; negative indices count from
    the end. *)
Definition norm_index (n : nat) (i : Z) : option nat :=
  if ((0 <=? i) && (i <? Z.of_nat n))%Z then Some (Z.to_nat i)
  else if ((- Z.of_nat n <=? i) && (i <? 0))%Z
       then Some (Z.to_nat (Z.of_nat n + i))
  else None.

(** [a[:, dims]] with an integer index array. *)
Definition index_cols (a : ndarray) (dims : list Z) : option ndarray :=
  match a with
  | Mat m =>
      option_map Mat (sequence (map (fun row =>
        sequence (map (fun i => option_map (fun k => nth k row 0)
                                  (norm_index (length row) i)) dims)) m))
  | _ => None
  end.

Definition clip_lo (lo : R) (x : R) : option R := Some (Rmax x lo).
Definition clip_lo_hi (lo hi : R) (x : R) : option R :=
  Some (Rmin (Rmax x lo) hi).

Definition fill (n : nat) (x : R) : list R := repeat x n.
Definition fill2 (r c : nat) (x : R) : list (list R) := repeat (repeat x c) r.

Definition ones_like (a : ndarray) : ndarray :=
  match a with
  | Scalar _ => Scalar 1
  | Vec v => Vec (map (fun _ => 1) v)
  | Mat m => Mat (map (map (fun _ => 1)) m)
  end.

(** *** The linear-algebra primitives

    [Cholesky(nofail=True, lower=True)] and [Solve(A_structure=...)] are
    operations of Theano and SciPy, outside the repository.  Their values
    are given by the textbook algorithms: the Cholesky-Banachiewicz
    factorisation, which reads the lower triangle only and has no real
    value when a pivot is not positive, and forward and back
    substitution. *)

Fixpoint chol_prefix (a rows : list (list R)) (i j : nat)
  : option (list R) :=
  match j with
  | O => Some []
  | S j' =>
      xs <- chol_prefix a rows i j' ;;
      x <- rdiv (get a i j' - sum_n j' (fun k => nth k xs 0 * get rows j' k))
                (get rows j' j') ;;
      Some (xs ++ [x])
  end.

Definition chol_row (n : nat) (a rows : list (list R)) (i : nat)
  : option (list R) :=
  xs <- chol_prefix a rows i i ;;
  let d := get a i i - sum_n i (fun k => nth k xs 0 * nth k xs 0) in
  if Rlt_dec 0 d
  then Some (xs ++ [sqrt d] ++ fill (n - i - 1) 0)
  else None.

Fixpoint chol_rows (n : nat) (a : list (list R)) (i : nat)
  : option (list (list R)) :=
  match i with
  | O => Some []
  | S i' =>
      rows <- chol_rows n a i' ;;
      r <- chol_row n a rows i' ;;
      Some (rows ++ [r])
  end.

Definition cholesky (a : ndarray) : option ndarray :=
  match a with
  | Mat m =>
      if nrows m =? ncols m
      then option_map Mat (chol_rows (nrows m) m (nrows m))
      else None
  | _ => None
  end.

Fixpoint fsub (l : list (list R)) (b : list R) (i : nat) : option (list R) :=
  match i with
  | O => Some []
  | S i' =>
      xs <- fsub l b i' ;;
      x <- rdiv (nth i' b 0 - sum_n i' (fun k => get l i' k * nth k xs 0))
                (get l i' i') ;;
      Some (xs ++ [x])
  end.

Fixpoint bsub (n : nat) (u : list (list R)) (b : list R) (j : nat)
  : option (list R) :=
  match j with
  | O => Some []
  | S j' =>
      xs <- bsub n u b j' ;;
      let i := (n - 1 - j')%nat in
      x <- rdiv (nth i b 0
                 - sum_n j' (fun k => get u i (i + 1 + k) * nth k xs 0))
                (get u i i) ;;
      Some (x :: xs)
  end.

Definition solve_with (solve1 : list R -> option (list R))
    (n : nat) (b : ndarray) : option ndarray :=
  match b with
  | Scalar _ => None
  | Vec v => if length v =? n then option_map Vec (solve1 v) else None
  | Mat m =>
      if nrows m =? n
      then option_map (fun cols => Mat (transpose cols))
             (sequence (map solve1 (transpose m)))
      else None
  end.

Definition solve_lower (l b : ndarray) : option ndarray :=
  match l with
  | Mat m =>
      if nrows m =? ncols m
      then solve_with (fun v => fsub m v (nrows m)) (nrows m) b
      else None
  | _ => None
  end.

Definition solve_upper (u b : ndarray) : option ndarray :=
  match u with
  | Mat m =>
      if nrows m =? ncols m
      then solve_with (fun v => bsub (nrows m) m v (nrows m)) (nrows m) b
      else None
  | _ => None
  end.

(** [MvNormal.dist(mu, chol=L).logp(y)] of pymc3's distributions package:
    the log density of the normal law with mean [mu] and covariance
    [L * transpose L]. *)
Definition mvnormal_logp (mu l y : ndarray) : option ndarray :=
  match l with
  | Mat m =>
      d <- sub y mu ;;
      z <- solve_lower l d ;;
      q <- dot z z ;;
      ld <- sequence (tabulate (nrows m) (fun i => rlog (get m i i))) ;;
      match z, q with
      | Vec zs, Scalar qq =>
          Some (Scalar (- (1/2) * INR (length zs) * ln (2 * PI)
                        - rsum ld - (1/2) * qq))
      | _, _ => None
      end
  | _ => None
  end.

End Np.

Import Np.

(** ** Theano graphs *)

(** One constructor for each Theano operation the two modules apply.
    [TConst] is a Python float turned into a constant, [TArr] a NumPy
    array turned into a constant, [TInf] the float [np.inf]; [TOnes1],
    [TZeros1] and [TZeros2] are [tt.ones] and [tt.zeros] on a stacked
    shape of one or two entries. *)
Inductive texp :=
| TVar (name : string) (nd : nat)
| TConst (x : R)
| TInf
| TArr (a : ndarray)
| TAdd (a b : texp)
| TSub (a b : texp)
| TMul (a b : texp)
| TDiv (a b : texp)
| TPow (a b : texp)
| TSquare (a : texp)
| TSqrt (a : texp)
| TExp (a : texp)
| TLog (a : texp)
| TCos (a : texp)
| TClip (x lo hi : texp)
| TDot (a b : texp)
| TTranspose (a : texp)
| TTrace (a : texp)
| TDiag (a : texp)
| TEye (n : texp)
| TShape0 (a : texp)
| TOnes1 (n : texp)
| TZeros1 (n : texp)
| TZeros2 (n m : texp)
| TOnesLike (a : texp)
| TSum (a : texp) (axis : option nat)
| TReshape (a : texp) (shape : Z * Z)
| TIndexCols (a : texp) (dims : list Z)
| TCholesky (a : texp)
| TSolveLower (l b : texp)
| TSolveUpper (u b : texp)
| TMvNormalLogp (mu chol y : texp).

(** The [ndim] attribute of a tensor: part of its static type. *)
Fixpoint ndim (e : texp) : nat :=
  match e with
  | TVar _ nd => nd
  | TConst _ | TInf => 0
  | TArr a => Np.ndim a
  | TAdd a b | TSub a b | TMul a b | TDiv a b | TPow a b =>
      Nat.max (ndim a) (ndim b)
  | TSquare a | TSqrt a | TExp a | TLog a | TCos a => ndim a
  | TClip x lo hi => Nat.max (ndim x) (Nat.max (ndim lo) (ndim hi))
  | TDot a b =>
      match ndim a, ndim b with
      | O, n | n, O => n
      | na, nb => (na + nb - 2)%nat
      end
  | TTranspose a => ndim a
  | TTrace _ => 0
  | TDiag a => if (ndim a =? 1)%nat then 2%nat else 1%nat
  | TEye _ => 2
  | TShape0 _ => 0
  | TOnes1 _ | TZeros1 _ => 1
  | TZeros2 _ _ => 2
  | TOnesLike a => ndim a
  | TSum _ None => 0
  | TSum a (Some _) => (ndim a - 1)%nat
  | TReshape _ _ => 2
  | TIndexCols a _ => ndim a
  | TCholesky _ => 2
  | TSolveLower _ b | TSolveUpper _ b => ndim b
  | TMvNormalLogp _ _ _ => 0
  end.

Definition env := string -> option ndarray.

Definition as_scalar (a : ndarray) : option R :=
  match a with
  | Scalar x => Some x
  | _ => None
  end.

(** The value of a graph.  A shape entry ([tt.eye (n)], [tt.ones (stack
    [n])]) has to be the first entry of the shape of a tensor. *)
Fixpoint eval (rho : env) (e : texp) {struct e} : option ndarray :=
  let dim n :=
    match n with
    | TShape0 a => v <- eval rho a ;; shape0 v
    | _ => None
    end in
  let bin f a b := x <- eval rho a ;; y <- eval rho b ;; f x y in
  let un f a := x <- eval rho a ;; uop f x in
  match e with
  | TVar name nd =>
      v <- rho name ;; if (Np.ndim v =? nd)%nat then Some v else None
  | TConst x => Some (Scalar x)
  | TInf => None
  | TArr a => Some a
  | TAdd a b => bin add a b
  | TSub a b => bin sub a b
  | TMul a b => bin mul a b
  | TDiv a b => bin div a b
  | TPow a b => bin power a b
  | TSquare a => un (fun x => Some (x * x)) a
  | TSqrt a => un rsqrt a
  | TExp a => un (fun x => Some (exp x)) a
  | TLog a => un rlog a
  | TCos a => un (fun x => Some (cos x)) a
  | TClip x lo hi =>
      v <- eval rho x ;;
      l <- obind (eval rho lo) as_scalar ;;
      match hi with
      | TInf => uop (clip_lo l) v
      | _ => h <- obind (eval rho hi) as_scalar ;; uop (clip_lo_hi l h) v
      end
  | TDot a b => bin dot a b
  | TTranspose a =>
      v <- eval rho a ;;
      match v with
      | Mat m => Some (Mat (transpose m))
      | _ => Some v
      end
  | TTrace a =>
      v <- eval rho a ;;
      match v with
      | Mat m => Some (Scalar (trace m))
      | _ => None
      end
  | TDiag a => v <- eval rho a ;; diag v
  | TEye n => k <- dim n ;; Some (Mat (eye k))
  | TShape0 a => v <- eval rho a ;; k <- shape0 v ;; Some (Scalar (INR k))
  | TOnes1 n => k <- dim n ;; Some (Vec (fill k 1))
  | TZeros1 n => k <- dim n ;; Some (Vec (fill k 0))
  | TZeros2 n m => r <- dim n ;; c <- dim m ;; Some (Mat (fill2 r c 0))
  | TOnesLike a => v <- eval rho a ;; Some (ones_like v)
  | TSum a axis => v <- eval rho a ;; sum v axis
  | TReshape a shape => v <- eval rho a ;; reshape v shape
  | TIndexCols a dims => v <- eval rho a ;; index_cols v dims
  | TCholesky a => v <- eval rho a ;; cholesky v
  | TSolveLower l b => bin solve_lower l b
  | TSolveUpper u b => bin solve_upper u b
  | TMvNormalLogp mu l y =>
      m <- eval rho mu ;; c <- eval rho l ;; v <- eval rho y ;;
      mvnormal_logp m c v
  end.

(** ** Python values that meet Theano graphs *)

(** The operands of [+] and [*] in [cov.py]: Python numbers, NumPy arrays
    and Theano tensors.  Arithmetic between numbers and arrays is NumPy's
    and happens at once; as soon as one side is a tensor the result is a
    graph node, the other side being turned into a constant. *)
Inductive pyval :=
| VNum (x : R)
| VArr (a : ndarray)
| VTensor (t : texp).

Definition as_tensor_variable (v : pyval) : texp :=
  match v with
  | VNum x => TConst x
  | VArr a => TArr a
  | VTensor t => t
  end.

Definition np_of (v : pyval) : option ndarray :=
  match v with
  | VNum x => Some (Scalar x)
  | VArr a => Some a
  | VTensor _ => None
  end.

Definition py_binop (npop : ndarray -> ndarray -> option ndarray)
    (node : texp -> texp -> texp) (x y : pyval) : result pyval :=
  match x, y with
  | VNum a, VNum b =>
      match npop (Scalar a) (Scalar b) with
      | Some (Scalar c) => Ok (VNum c)
      | _ => Raise ValueError
      end
  | VTensor _, _ | _, VTensor _ =>
      Ok (VTensor (node (as_tensor_variable x) (as_tensor_variable y)))
  | _, _ =>
      match a <- np_of x ;; b <- np_of y ;; npop a b with
      | Some c => Ok (VArr c)
      | None => Raise ValueError
      end
  end.

Definition py_add := py_binop Np.add TAdd.
Definition py_mul := py_binop Np.mul TMul.

(** [functools.reduce (f, l)] without an initial value. *)
Definition reduce {A} (f : A -> A -> result A) (l : list A) : result A :=
  match l with
  | [] => Raise TypeError
  | x :: l' => fold_left (fun acc y => a <~ acc ;; f a y) l' (Ok x)
  end.

Definition eval_val (rho : env) (v : pyval) : option ndarray :=
  eval rho (as_tensor_variable v).

(** ** [pymc3/gp/cov.py] *)

Module Cov.

(** User-supplied Python functions ([warp_func], [lengthscale_func]) take
    the input tensor and the extra arguments. *)
Inductive pyfunc :=
| Callable (f : texp -> list texp -> texp)
| NotCallable.

Inductive pyargs :=
| ArgTuple (l : list texp)
| ArgOne (x : texp).

(** The attributes set by [Covariance.__init__]. *)
Record base := { input_dim : Z; active_dims : list Z }.

Definition arange (n : Z) : list Z := map Z.of_nat (seq 0 (Z.to_nat n)).

Inductive Covariance :=
| Add (b : base) (factor_list : list factor)
| Prod (b : base) (factor_list : list factor)
| WhiteNoise (b : base) (sigma : texp)
| ExpQuad (b : base) (lengthscales : texp)
| RatQuad (b : base) (lengthscales alpha : texp)
| Matern52 (b : base) (lengthscales : texp)
| Matern32 (b : base) (lengthscales : texp)
| Exponential (b : base) (lengthscales : texp)
| Cosine (b : base) (lengthscales : texp)
| Linear (b : base) (c : texp)
| Polynomial (b : base) (c d offset : texp)
| WarpedInput (b : base) (cov_func : Covariance)
    (warp_func : texp -> list texp -> texp) (args : option pyargs)
| Gibbs (b : base) (lengthscale_func : texp -> list texp -> texp)
    (args : option pyargs)
with factor :=
| FCov (k : Covariance)
| FNdarray (a : ndarray)
| FTensor (t : texp)
| FNumber (x : R).

Definition base_of (k : Covariance) : base :=
  match k with
  | Add b _ | Prod b _ | WhiteNoise b _ | ExpQuad b _ | RatQuad b _ _
  | Matern52 b _ | Matern32 b _ | Exponential b _ | Cosine b _
  | Linear b _ | Polynomial b _ _ _ | WarpedInput b _ _ _ | Gibbs b _ _ => b
  end.

(** [Covariance.__init__] *)
Definition Covariance_init (input_dim : Z) (active_dims : option (list Z))
  : result base :=
  match active_dims with
  | None => Ok {| input_dim := input_dim; active_dims := arange input_dim |}
  | Some ad =>
      if (Z.of_nat (length ad) =? input_dim)%Z
      then Ok {| input_dim := input_dim; active_dims := ad |}
      else Raise ValueError
  end.

(** [Covariance._slice] *)
Definition _slice (b : base) (X : texp) (Xs : option texp)
  : texp * option texp :=
  (TIndexCols X (active_dims b),
   option_map (fun xs => TIndexCols xs (active_dims b)) Xs).

(** *** Combinations *)

Inductive combination_class := ClsAdd | ClsProd.

Definition factor_input_dims (fl : list factor) : list Z :=
  flat_map (fun f => match f with
                     | FCov k => [input_dim (base_of k)]
                     | _ => []
                     end) fl.

(** [np.max] of a list of integers; it raises on the empty list. *)
Definition np_max (l : list Z) : result Z :=
  match l with
  | [] => Raise ValueError
  | x :: l' => Ok (fold_left Z.max l' x)
  end.

(** The loop of [Combination.__init__]: a factor of the class under
    construction contributes its own factors. *)
Definition flatten_factor (cls : combination_class) (f : factor)
  : list factor :=
  match cls, f with
  | ClsAdd, FCov (Add _ fl) => fl
  | ClsProd, FCov (Prod _ fl) => fl
  | _, _ => [f]
  end.

(** [Combination.__init__], called as [Add (factor_list)] or
    [Prod (factor_list)]. *)
Definition Combination_init (cls : combination_class) (fl : list factor)
  : result Covariance :=
  d <~ np_max (factor_input_dims fl) ;;
  b <~ Covariance_init d None ;;
  let factors := flat_map (flatten_factor cls) fl in
  Ok (match cls with
      | ClsAdd => Add b factors
      | ClsProd => Prod b factors
      end).

(** [Covariance.__add__], [__mul__], [__radd__], [__rmul__] *)
Definition __add__ (self : Covariance) (other : factor) : result Covariance :=
  Combination_init ClsAdd [FCov self; other].
Definition __mul__ (self : Covariance) (other : factor) : result Covariance :=
  Combination_init ClsProd [FCov self; other].
Definition __radd__ (self : Covariance) (other : factor) := __add__ self other.
Definition __rmul__ (self : Covariance) (other : factor) := __mul__ self other.

(** One iteration of the loop of [Combination.merge_factors]; [rec] is the
    call [factor (X, Xs, diag)] of a kernel. *)
Definition merge_factor (rec : Covariance -> result pyval) (diag : bool)
    (f : factor) : result pyval :=
  match f with
  | FCov k => rec k
  | FNdarray a =>
      if (Np.ndim a =? 2)%nat && diag
      then match Np.diag a with
           | Some d => Ok (VArr d)
           | None => Raise ValueError
           end
      else Ok (VArr a)
  | FTensor t =>
      if (ndim t =? 2)%nat && diag
      then Ok (VTensor (TDiag t))
      else Ok (VTensor t)
  | FNumber x => Ok (VNum x)
  end.

(** *** Stationary kernels *)

Definition Stationary_square_dist (lengthscales : texp) (X : texp)
    (Xs : option texp) : texp :=
  let X := TMul X (TDiv (TConst 1) lengthscales) in
  let X2 := TSum (TSquare X) (Some 1%nat) in
  let sqd :=
    match Xs with
    | None =>
        TAdd (TMul (TConst (-2)) (TDot X (TTranspose X)))
             (TAdd (TReshape X2 (-1, 1)%Z) (TReshape X2 (1, -1)%Z))
    | Some Xs =>
        let Xs := TMul Xs (TDiv (TConst 1) lengthscales) in
        let Xs2 := TSum (TSquare Xs) (Some 1%nat) in
        TAdd (TMul (TConst (-2)) (TDot X (TTranspose Xs)))
             (TAdd (TReshape X2 (-1, 1)%Z) (TReshape Xs2 (1, -1)%Z))
    end in
  TClip sqd (TConst 0) TInf.

Definition Stationary_euclidean_dist (lengthscales : texp) (X : texp)
    (Xs : option texp) : texp :=
  let r2 := Stationary_square_dist lengthscales X Xs in
  TSqrt (TAdd r2 (TConst 1e-12)).

Definition Stationary_diag (X : texp) : texp := TOnes1 (TShape0 X).

Definition ExpQuad_full (b : base) (ls X : texp) (Xs : option texp) : texp :=
  let (X, Xs) := _slice b X Xs in
  TExp (TMul (TConst (-0.5)) (Stationary_square_dist ls X Xs)).

Definition RatQuad_full (b : base) (ls alpha X : texp) (Xs : option texp)
  : texp :=
  let (X, Xs) := _slice b X Xs in
  TPow (TAdd (TConst 1)
          (TMul (TMul (TConst 0.5) (Stationary_square_dist ls X Xs))
                (TDiv (TConst 1) alpha)))
       (TMul (TConst (-1)) alpha).

Definition Matern52_full (b : base) (ls X : texp) (Xs : option texp) : texp :=
  let (X, Xs) := _slice b X Xs in
  let r := Stationary_euclidean_dist ls X Xs in
  TMul (TAdd (TAdd (TConst 1) (TMul (TConst (sqrt 5)) r))
             (TMul (TConst (5 / 3)) (TSquare r)))
       (TExp (TMul (TConst (-1 * sqrt 5)) r)).

Definition Matern32_full (b : base) (ls X : texp) (Xs : option texp) : texp :=
  let (X, Xs) := _slice b X Xs in
  let r := Stationary_euclidean_dist ls X Xs in
  TMul (TAdd (TConst 1) (TMul (TConst (sqrt 3)) r))
       (TExp (TMul (TConst (- sqrt 3)) r)).

Definition Exponential_full (b : base) (ls X : texp) (Xs : option texp)
  : texp :=
  let (X, Xs) := _slice b X Xs in
  TExp (TMul (TConst (-0.5)) (Stationary_euclidean_dist ls X Xs)).

Definition Cosine_full (b : base) (ls X : texp) (Xs : option texp) : texp :=
  let (X, Xs) := _slice b X Xs in
  TCos (TMul (TConst PI) (Stationary_euclidean_dist ls X Xs)).

(** *** White noise, linear and polynomial kernels *)

Definition WhiteNoise_diag (sigma X : texp) : texp :=
  TMul (TSquare sigma) (TOnes1 (TShape0 X)).

Definition WhiteNoise_full (sigma X : texp) (Xs : option texp) : texp :=
  match Xs with
  | None => TMul (TSquare sigma) (TEye (TShape0 X))
  | Some Xs => TZeros2 (TShape0 X) (TShape0 Xs)
  end.

Definition Linear__common (b : base) (c X : texp) (Xs : option texp)
  : texp * texp * option texp :=
  let (X, Xs) := _slice b X Xs in
  let Xc := TSub X c in
  (X, Xc, Xs).

Definition Linear_full (b : base) (c X : texp) (Xs : option texp) : texp :=
  let '(X, Xc, Xs) := Linear__common b c X Xs in
  match Xs with
  | None => TDot Xc (TTranspose Xc)
  | Some Xs =>
      let Xsc := TSub Xs c in
      TDot Xc (TTranspose Xsc)
  end.

Definition Linear_diag (b : base) (c X : texp) : texp :=
  let '(X, Xc, _) := Linear__common b c X None in
  TSum (TSquare Xc) (Some 1%nat).

Definition Polynomial_full (b : base) (c d offset X : texp)
    (Xs : option texp) : texp :=
  let linear := Linear_full b c X Xs in
  TPow (TAdd linear offset) d.

Definition Polynomial_diag (b : base) (c d offset X : texp) : texp :=
  let linear := Linear_diag b c X in
  TPow (TAdd linear offset) d.

(** *** Warped inputs and the Gibbs kernel *)

(** [handle_args (func, args)] is the closure [f (x, args)]. *)
Definition handle_args (func : texp -> list texp -> texp)
  : texp -> option pyargs -> texp :=
  fun x args =>
    match args with
    | None => func x []
    | Some (ArgTuple l) => func x l
    | Some (ArgOne a) => func x [a]
    end.

Definition Gibbs_square_dist (X : texp) (Xs : option texp) : texp :=
  let X2 := TSum (TSquare X) (Some 1%nat) in
  let sqd :=
    match Xs with
    | None =>
        TAdd (TMul (TConst (-2)) (TDot X (TTranspose X)))
             (TAdd (TReshape X2 (-1, 1)%Z) (TReshape X2 (1, -1)%Z))
    | Some Xs =>
        let Xs2 := TSum (TSquare Xs) (Some 1%nat) in
        TAdd (TMul (TConst (-2)) (TDot X (TTranspose Xs)))
             (TAdd (TReshape Xs2 (-1, 1)%Z) (TReshape Xs2 (1, -1)%Z))
    end in
  TClip sqd (TConst 0) TInf.

Definition Gibbs_full (b : base) (lfunc : texp -> option pyargs -> texp)
    (args : option pyargs) (X : texp) (Xs : option texp) : texp :=
  let (X, Xs) := _slice b X Xs in
  let rx := lfunc X args in
  let rx2 := TReshape (TSquare rx) (-1, 1)%Z in
  let (r2, rz) :=
    match Xs with
    | None => (Gibbs_square_dist X (Some X), lfunc X args)
    | Some Xs => (Gibbs_square_dist X (Some Xs), lfunc Xs args)
    end in
  let rz2 := TReshape (TSquare rz) (1, -1)%Z in
  TMul (TSqrt (TDiv (TMul (TConst 2) (TDot rx (TTranspose rz)))
                    (TAdd rx2 rz2)))
       (TExp (TDiv (TMul (TConst (-1)) r2) (TAdd rx2 rz2))).

Definition Gibbs_diag (X : texp) : texp := TOnes1 (TShape0 X).

(** *** Evaluating a kernel: [k (X, Xs, diag)] *)

(** [Covariance.__call__] chooses [diag] or [full]; [Add] and [Prod]
    override it with the reduction of the merged factors. *)
Fixpoint call (k : Covariance) (X : texp) (Xs : option texp) (diag : bool)
  {struct k} : result pyval :=
  let prim (d f : texp) : result pyval :=
    Ok (VTensor (if diag then d else f)) in
  let merge_factors :=
    fix merge (l : list factor) : result (list pyval) :=
      match l with
      | [] => Ok []
      | f :: l' =>
          v <~ merge_factor (fun k' => call k' X Xs diag) diag f ;;
          vs <~ merge l' ;;
          Ok (v :: vs)
      end in
  match k with
  | Add _ fl => vs <~ merge_factors fl ;; reduce py_add vs
  | Prod _ fl => vs <~ merge_factors fl ;; reduce py_mul vs
  | WhiteNoise _ sigma =>
      prim (WhiteNoise_diag sigma X) (WhiteNoise_full sigma X Xs)
  | ExpQuad b ls => prim (Stationary_diag X) (ExpQuad_full b ls X Xs)
  | RatQuad b ls alpha =>
      prim (Stationary_diag X) (RatQuad_full b ls alpha X Xs)
  | Matern52 b ls => prim (Stationary_diag X) (Matern52_full b ls X Xs)
  | Matern32 b ls => prim (Stationary_diag X) (Matern32_full b ls X Xs)
  | Exponential b ls => prim (Stationary_diag X) (Exponential_full b ls X Xs)
  | Cosine b ls => prim (Stationary_diag X) (Cosine_full b ls X Xs)
  | Linear b c => prim (Linear_diag b c X) (Linear_full b c X Xs)
  | Polynomial b c d offset =>
      prim (Polynomial_diag b c d offset X)
           (Polynomial_full b c d offset X Xs)
  | WarpedInput b cov_func warp_func args =>
      let w := handle_args warp_func in
      if diag then
        let (X, _) := _slice b X None in
        call cov_func (w X args) None true
      else
        let (X, Xs) := _slice b X Xs in
        match Xs with
        | None => call cov_func (w X args) None false
        | Some Xs => call cov_func (w X args) (Some (w Xs args)) false
        end
  | Gibbs b lfunc args =>
      prim (Gibbs_diag X) (Gibbs_full b (handle_args lfunc) args X Xs)
  end.

(** [Combination.merge_factors] *)
Fixpoint merge_factors (fl : list factor) (X : texp) (Xs : option texp)
    (diag : bool) : result (list pyval) :=
  match fl with
  | [] => Ok []
  | f :: l' =>
      v <~ merge_factor (fun k' => call k' X Xs diag) diag f ;;
      vs <~ merge_factors l' X Xs diag ;;
      Ok (v :: vs)
  end.

(** *** Constructors of the kernel classes *)

Definition mk_WhiteNoise (input_dim : Z) (sigma : texp)
    (active_dims : option (list Z)) : result Covariance :=
  b <~ Covariance_init input_dim active_dims ;; Ok (WhiteNoise b sigma).

Definition mk_ExpQuad (input_dim : Z) (lengthscales : texp)
    (active_dims : option (list Z)) : result Covariance :=
  b <~ Covariance_init input_dim active_dims ;; Ok (ExpQuad b lengthscales).

Definition mk_RatQuad (input_dim : Z) (lengthscales alpha : texp)
    (active_dims : option (list Z)) : result Covariance :=
  b <~ Covariance_init input_dim active_dims ;;
  Ok (RatQuad b lengthscales alpha).

Definition mk_Matern52 (input_dim : Z) (lengthscales : texp)
    (active_dims : option (list Z)) : result Covariance :=
  b <~ Covariance_init input_dim active_dims ;; Ok (Matern52 b lengthscales).

Definition mk_Matern32 (input_dim : Z) (lengthscales : texp)
    (active_dims : option (list Z)) : result Covariance :=
  b <~ Covariance_init input_dim active_dims ;; Ok (Matern32 b lengthscales).

Definition mk_Exponential (input_dim : Z) (lengthscales : texp)
    (active_dims : option (list Z)) : result Covariance :=
  b <~ Covariance_init input_dim active_dims ;;
  Ok (Exponential b lengthscales).

Definition mk_Cosine (input_dim : Z) (lengthscales : texp)
    (active_dims : option (list Z)) : result Covariance :=
  b <~ Covariance_init input_dim active_dims ;; Ok (Cosine b lengthscales).

Definition mk_Linear (input_dim : Z) (c : texp)
    (active_dims : option (list Z)) : result Covariance :=
  b <~ Covariance_init input_dim active_dims ;; Ok (Linear b c).

Definition mk_Polynomial (input_dim : Z) (c d offset : texp)
    (active_dims : option (list Z)) : result Covariance :=
  b <~ Covariance_init input_dim active_dims ;; Ok (Polynomial b c d offset).

(** [WarpedInput.__init__]; [cov_func] is [None] here when the argument is
    not a [Covariance]. *)
Definition mk_WarpedInput (input_dim : Z) (cov_func : option Covariance)
    (warp_func : pyfunc) (args : option pyargs)
    (active_dims : option (list Z)) : result Covariance :=
  b <~ Covariance_init input_dim active_dims ;;
  match warp_func with
  | NotCallable => Raise TypeError
  | Callable w =>
      match cov_func with
      | None => Raise TypeError
      | Some k => Ok (WarpedInput b k w args)
      end
  end.

(** Python's [sum] of a list of integers (a Boolean counts 0 or 1). *)
Definition py_sum (l : list Z) : Z := fold_left Z.add l 0%Z.

(** [Gibbs.__init__] *)
Definition mk_Gibbs (input_dim : Z) (lengthscale_func : pyfunc)
    (args : option pyargs) (active_dims : option (list Z))
  : result Covariance :=
  b <~ Covariance_init input_dim active_dims ;;
  _ <~ match active_dims with
       | Some ad =>
           if negb (input_dim =? 1)%Z || (py_sum ad =? 1)%Z
           then Raise NotImplementedError
           else Ok tt
       | None =>
           if negb (input_dim =? 1)%Z
           then Raise NotImplementedError
           else Ok tt
       end ;;
  match lengthscale_func with
  | NotCallable => Raise TypeError
  | Callable f => Ok (Gibbs b f args)
  end.

End Cov.

(** ** [pymc3/gp/gp.py] *)

Module GP.

Import Cov.

(** [stabilize] *)
Definition stabilize (K : texp) : texp :=
  let n := TShape0 K in
  TAdd K (TMul (TMul (TConst 1e-6) (TDiv (TTrace K) n)) (TEye n)).

(** A mean function ([pymc3/gp/mean.py], outside the two modules) is a
    callable from the inputs to a tensor. *)
Record Mean := { mean_call : texp -> texp }.

(** The noise covariance of the full conjugate variant is called with one
    argument: a kernel, or the function the constructor builds from
    [sigma]. *)
Inductive noise_func :=
| NoiseCov (k : Covariance)
| NoiseLambda (f : texp -> texp).

(** *** The objects of the three classes *)

Record GPFullNonConjugate := {
  nc_name : string;
  nc_X : texp;
  nc_nf : texp;
  nc_K : Covariance;
  nc_m : Mean;
  nc_mean : texp;
  nc_v : option texp
}.

Record GPFullConjugate := {
  fc_X : texp;
  fc_nf : texp;
  fc_K : Covariance;
  fc_Kn : noise_func;
  fc_m : Mean;
  fc_mean : texp
}.

Record GPSparseConjugate := {
  sc_X : texp;
  sc_nf : texp;
  sc_K : Covariance;
  sc_m : Mean;
  sc_mean : texp;
  sc_sigma2 : texp;
  sc_approx : string;
  sc_Xu : texp;
  sc_nu : texp
}.

Inductive gp_object :=
| NonConj (g : GPFullNonConjugate)
| Full (g : GPFullConjugate)
| Sparse (g : GPSparseConjugate).

(** *** The host model, as far as the module touches it *)

Inductive distribution :=
| Normal (mu sd : R)
| GPDist (g : gp_object).

(** Random variables of the host model: [Normal (...)] inside a model
    gives a free variable, [Deterministic (...)] a deterministic one, a
    distribution built with [observed=] an observed one. *)
Inductive RV :=
| FreeRV (name : string) (dist : distribution) (shape : texp)
| Deterministic (name : string) (value : texp) (dist : option gp_object)
| ObservedRV (name : string) (dist : distribution) (observed : texp).

(** What a call can change or leave behind: the variables of the model,
    the lines written with [pm._log.info], and the arguments of the calls
    of [cholesky], in order. *)
Record world := {
  model_vars : list RV;
  info_log : list string;
  chol_calls : list texp
}.

Definition world0 : world :=
  {| model_vars := []; info_log := []; chol_calls := [] |}.

Definition M (A : Type) : Type := world -> result A * world.

Definition ret {A} (a : A) : M A := fun w => (Ok a, w).
Definition raise {A} (e : exn) : M A := fun w => (Raise e, w).
Definition bind {A B} (c : M A) (k : A -> M B) : M B :=
  fun w =>
    match c w with
    | (Ok a, w') => k a w'
    | (Raise e, w') => (Raise e, w')
    end.
Definition lift {A} (r : result A) : M A := fun w => (r, w).

Declare Scope gp_scope.
Delimit Scope gp_scope with gp.
Notation "x <- c ;; k" := (bind c (fun x => k))
  (at level 61, c at next level, right associativity) : gp_scope.
Notation "' ( x , y ) <- c ;; k" := (bind c (fun p => let '(x, y) := p in k))
  (at level 61, x name, y name, c at next level, right associativity)
  : gp_scope.
Open Scope gp_scope.

Definition log_info (s : string) : M unit :=
  fun w => (Ok tt, {| model_vars := model_vars w;
                      info_log := info_log w ++ [s];
                      chol_calls := chol_calls w |}).

Definition register (v : RV) : M unit :=
  fun w => (Ok tt, {| model_vars := model_vars w ++ [v];
                      info_log := info_log w;
                      chol_calls := chol_calls w |}).

(** [cholesky = Cholesky (nofail=True, lower=True)] *)
Definition cholesky (a : texp) : M texp :=
  fun w => (Ok (TCholesky a), {| model_vars := model_vars w;
                                 info_log := info_log w;
                                 chol_calls := chol_calls w ++ [a] |}).

Definition solve_lower := TSolveLower.
Definition solve_upper := TSolveUpper.

(** [K (X)], [K (X, Xs)], [K (X, diag=True)]: the result enters Theano
    operations, which take it as a tensor. *)
Definition K_call (K : Covariance) (X : texp) (Xs : option texp)
    (diag : bool) : M texp :=
  v <- lift (call K X Xs diag) ;; ret (as_tensor_variable v).

Definition Kn_call (Kn : noise_func) (X : texp) : M texp :=
  match Kn with
  | NoiseCov k => K_call k X None false
  | NoiseLambda f => ret (f X)
  end.

(** *** [GPBase] *)

Definition GPBase_prior {A} : M A := raise NotImplementedError.
Definition GPBase_conditional {A} : M A := raise NotImplementedError.
Definition GPBase_logp (y : texp) : M pyval := ret (VNum 0).

(** *** [GPFullNonConjugate] *)

Definition GPFullNonConjugate_init (name : string) (X : texp)
    (mean_func : Mean) (cov_func : Covariance) : GPFullNonConjugate :=
  {| nc_name := name; nc_X := X; nc_nf := TShape0 X; nc_K := cov_func;
     nc_m := mean_func; nc_mean := mean_call mean_func X; nc_v := None |}.

Definition GPFullNonConjugate_prior (self : GPFullNonConjugate)
  : M (texp * texp) :=
  let mean := mean_call (nc_m self) (nc_X self) in
  cov <- K_call (nc_K self) (nc_X self) None false ;;
  ret (mean, stabilize cov).

(** [conditional (Xs, v=...)]: the default of [kwargs.pop] is evaluated
    first, so the attribute [v] has to exist. *)
Definition GPFullNonConjugate_conditional (self : GPFullNonConjugate)
    (Xs : texp) (v_kw : option texp) : M (texp * texp) :=
  self_v <- match nc_v self with
            | Some v => ret v
            | None => raise AttributeError
            end ;;
  let v := match v_kw with Some v => v | None => self_v end in
  Kxx <- K_call (nc_K self) (nc_X self) None false ;;
  Kxs <- K_call (nc_K self) (nc_X self) (Some Xs) false ;;
  Kss <- K_call (nc_K self) Xs None false ;;
  L <- cholesky (stabilize Kxx) ;;
  let A := solve_lower L Kxs in
  let cov := TSub Kss (TDot (TTranspose A) A) in
  let mean := TAdd (mean_call (nc_m self) Xs) (TDot (TTranspose A) v) in
  ret (mean, stabilize cov).

(** The property [RV]: it declares the rotated variable and the
    deterministic GP value, and stores the former in the object. *)
Definition GPFullNonConjugate_RV (self : GPFullNonConjugate)
  : M (RV * GPFullNonConjugate) :=
  let vname := (nc_name self ++ "_rotated_")%string in
  _ <- register (FreeRV vname (Normal 0 1) (nc_nf self)) ;;
  let v := TVar vname 1 in
  let self := {| nc_name := nc_name self; nc_X := nc_X self;
                 nc_nf := nc_nf self; nc_K := nc_K self; nc_m := nc_m self;
                 nc_mean := nc_mean self; nc_v := Some v |} in
  Kxx <- K_call (nc_K self) (nc_X self) None false ;;
  L <- cholesky (stabilize Kxx) ;;
  let f := Deterministic (nc_name self) (TDot L v) (Some (NonConj self)) in
  _ <- register f ;;
  ret (f, self).

(** *** [GPFullConjugate] *)

Definition GPFullConjugate_init (X : texp) (mean_func : Mean)
    (cov_func : Covariance) (cov_func_noise : noise_func) : GPFullConjugate :=
  {| fc_X := X; fc_nf := TShape0 X; fc_K := cov_func; fc_Kn := cov_func_noise;
     fc_m := mean_func; fc_mean := mean_call mean_func X |}.

Definition GPFullConjugate_prior (self : GPFullConjugate) (obs_noise : bool)
  : M (texp * texp) :=
  let mean := mean_call (fc_m self) (fc_X self) in
  cov <- (if obs_noise then
            k <- K_call (fc_K self) (fc_X self) None false ;;
            n <- Kn_call (fc_Kn self) (fc_X self) ;;
            ret (TAdd k n)
          else K_call (fc_K self) (fc_X self) None false) ;;
  ret (mean, stabilize cov).

Definition GPFullConjugate_conditional (self : GPFullConjugate)
    (Xs y : texp) (obs_noise : bool) : M (texp * texp) :=
  Kxx <- K_call (fc_K self) (fc_X self) None false ;;
  Knx <- Kn_call (fc_Kn self) (fc_X self) ;;
  Kxs <- K_call (fc_K self) (fc_X self) (Some Xs) false ;;
  Kss <- K_call (fc_K self) Xs None false ;;
  let r := TSub y (mean_call (fc_m self) (fc_X self)) in
  L <- cholesky (TAdd (stabilize Kxx) Knx) ;;
  let A := solve_lower L Kxs in
  let V := solve_lower L r in
  let mean := TAdd (TDot (TTranspose A) V) (mean_call (fc_m self) Xs) in
  cov <- (if obs_noise then
            Kns <- Kn_call (fc_Kn self) Xs ;;
            ret (TSub (TAdd Kns Kss) (TDot (TTranspose A) A))
          else ret (TSub Kss (TDot (TTranspose A) A))) ;;
  ret (mean, stabilize cov).

Definition GPFullConjugate_logp (self : GPFullConjugate) (y : texp)
  : M pyval :=
  let mean := mean_call (fc_m self) (fc_X self) in
  Kxx <- K_call (fc_K self) (fc_X self) None false ;;
  Knx <- Kn_call (fc_Kn self) (fc_X self) ;;
  L <- cholesky (TAdd (stabilize Kxx) Knx) ;;
  ret (VTensor (TMvNormalLogp mean L y)).

(** *** [GPSparseConjugate] *)

(** [tt.square (sigma)] needs a value. *)
Definition GPSparseConjugate_init (X : texp) (mean_func : Mean)
    (cov_func : Covariance) (sigma : option texp) (approx : string)
    (inducing_points : texp) : result GPSparseConjugate :=
  match sigma with
  | None => Raise TypeError
  | Some sigma =>
      Ok {| sc_X := X; sc_nf := TShape0 X; sc_K := cov_func;
            sc_m := mean_func; sc_mean := mean_call mean_func X;
            sc_sigma2 := TSquare sigma; sc_approx := approx;
            sc_Xu := inducing_points; sc_nu := TShape0 inducing_points |}
  end.

Definition GPSparseConjugate_prior (self : GPSparseConjugate)
    (obs_noise : bool) : M (texp * texp) :=
  Kuu <- K_call (sc_K self) (sc_Xu self) None false ;;
  Kuf <- K_call (sc_K self) (sc_Xu self) (Some (sc_X self)) false ;;
  Luu <- cholesky (stabilize Kuu) ;;
  let A := solve_lower Luu Kuf in
  Kffd <- K_call (sc_K self) (sc_X self) None true ;;
  let Qff := TDot (TTranspose A) A in
  let mean := mean_call (sc_m self) (sc_X self) in
  let cov :=
    if obs_noise
    then TAdd (TSub Qff (TSub (TDiag Qff) Kffd))
              (TMul (sc_sigma2 self) (TEye (sc_nf self)))
    else TSub Qff (TSub (TDiag Qff) Kffd) in
  ret (mean, stabilize cov).

Definition GPSparseConjugate_conditional (self : GPSparseConjugate)
    (Xs y : texp) (obs_noise : bool) : M (texp * texp) :=
  Kuu <- K_call (sc_K self) (sc_Xu self) None false ;;
  Kuf <- K_call (sc_K self) (sc_Xu self) (Some (sc_X self)) false ;;
  Luu <- cholesky (stabilize Kuu) ;;
  let A := solve_lower Luu Kuf in
  let Qffd := TSum (TMul A A) (Some 0%nat) in
  Lamd <- (if String.eqb (sc_approx self) "FITC" then
             Kffd <- K_call (sc_K self) (sc_X self) None true ;;
             ret (TAdd (TClip (TSub Kffd Qffd) (TConst 0) TInf)
                       (sc_sigma2 self))
           else if String.eqb (sc_approx self) "VFE" then
             ret (TMul (TOnesLike Qffd) (sc_sigma2 self))
           else raise NotImplementedError) ;;
  let A_l := TDiv A Lamd in
  L_B <- cholesky (TAdd (TEye (sc_nu self)) (TDot A_l (TTranspose A))) ;;
  let r := TSub y (mean_call (sc_m self) (sc_X self)) in
  let r_l := TDiv r Lamd in
  let c := solve_lower L_B (TDot A r_l) in
  Kus <- K_call (sc_K self) (sc_Xu self) (Some Xs) false ;;
  let As := solve_lower Luu Kus in
  let mean := TDot (TTranspose As) (solve_upper (TTranspose L_B) c) in
  let C := solve_lower L_B As in
  Kss <- K_call (sc_K self) Xs (Some Xs) false ;;
  let cov :=
    if obs_noise
    then TAdd (TAdd (TSub Kss (TDot (TTranspose As) As))
                    (TDot (TTranspose C) C))
              (TMul (sc_sigma2 self) (TEye (TShape0 Xs)))
    else TAdd (TSub Kss (TDot (TTranspose As) As))
              (TDot (TTranspose C) C) in
  ret (mean, stabilize cov).

Definition GPSparseConjugate_logp (self : GPSparseConjugate) (y : texp)
  : M pyval :=
  Kuu <- K_call (sc_K self) (sc_Xu self) (Some (sc_Xu self)) false ;;
  Kuf <- K_call (sc_K self) (sc_Xu self) (Some (sc_X self)) false ;;
  Luu <- cholesky (stabilize Kuu) ;;
  let A := solve_lower Luu Kuf in
  let Qffd := TSum (TMul A A) (Some 0%nat) in
  '(Lamd, trace) <-
    (if String.eqb (sc_approx self) "FITC" then
       Kffd <- K_call (sc_K self) (sc_X self) None true ;;
       let Lamd := TAdd (TClip (TSub Kffd Qffd) (TConst 0) TInf)
                        (sc_sigma2 self) in
       ret (Lamd, TConst 0)
     else if String.eqb (sc_approx self) "VFE" then
       let Lamd := TMul (TOnesLike Qffd) (sc_sigma2 self) in
       Kffd <- K_call (sc_K self) (sc_X self) None true ;;
       ret (Lamd,
            TMul (TDiv (TConst 1) (TMul (TConst 2) (sc_sigma2 self)))
                 (TSub (TSum Kffd None)
                       (TSum (TSum (TMul A A) (Some 0%nat)) None)))
     else raise NotImplementedError) ;;
  let A_l := TDiv A Lamd in
  L_B <- cholesky (TAdd (TEye (sc_nu self)) (TDot A_l (TTranspose A))) ;;
  let r := TSub y (mean_call (sc_m self) (sc_X self)) in
  let r_l := TDiv r Lamd in
  let c := solve_lower L_B (TDot A r_l) in
  let constant := TMul (TMul (TConst 0.5) (sc_nf self))
                       (TLog (TConst (2 * PI))) in
  let logdet := TAdd (TMul (TConst 0.5) (TSum (TLog Lamd) None))
                     (TSum (TLog (TDiag L_B)) None) in
  let quadratic := TMul (TConst 0.5) (TSub (TDot r r_l) (TDot c c)) in
  ret (VTensor (TMul (TConst (-1))
                  (TAdd (TAdd (TAdd constant logdet) quadratic) trace))).

(** *** Method resolution *)

Inductive gp_class :=
| cls_GPBase | cls_GPFullNonConjugate | cls_GPFullConjugate
| cls_GPSparseConjugate.

Inductive method :=
| m_random | m_prior | m_conditional | m_logp | m_repr_latex | m_init | m_RV.

Definition method_eqb (a b : method) : bool :=
  match a, b with
  | m_random, m_random | m_prior, m_prior | m_conditional, m_conditional
  | m_logp, m_logp | m_repr_latex, m_repr_latex | m_init, m_init
  | m_RV, m_RV => true
  | _, _ => false
  end.

(** The methods each class body defines. *)
Definition defines (c : gp_class) : list method :=
  match c with
  | cls_GPBase => [m_random; m_prior; m_conditional; m_logp; m_repr_latex]
  | cls_GPFullNonConjugate => [m_init; m_prior; m_conditional; m_RV]
  | cls_GPFullConjugate => [m_init; m_prior; m_conditional; m_logp]
  | cls_GPSparseConjugate => [m_init; m_prior; m_conditional; m_logp]
  end.

(** The classes of this module in the method resolution order of [c]. *)
Definition mro (c : gp_class) : list gp_class :=
  match c with
  | cls_GPBase => [cls_GPBase]
  | _ => [c; cls_GPBase]
  end.

Definition resolve (c : gp_class) (m : method) : option gp_class :=
  find (fun d => existsb (method_eqb m) (defines d)) (mro c).

Definition class_of (o : gp_object) : gp_class :=
  match o with
  | NonConj _ => cls_GPFullNonConjugate
  | Full _ => cls_GPFullConjugate
  | Sparse _ => cls_GPSparseConjugate
  end.

(** [o.logp (y)] *)
Definition logp (o : gp_object) (y : texp) : M pyval :=
  match resolve (class_of o) m_logp, o with
  | Some cls_GPFullConjugate, Full g => GPFullConjugate_logp g y
  | Some cls_GPSparseConjugate, Sparse g => GPSparseConjugate_logp g y
  | Some cls_GPBase, _ => GPBase_logp y
  | _, _ => raise AttributeError
  end.

(** [o.prior (obs_noise)]; the method of [GPFullNonConjugate] takes no
    argument besides [self]. *)
Definition prior (o : gp_object) (obs_noise : bool) : M (texp * texp) :=
  match o with
  | NonConj _ => raise TypeError
  | Full g => GPFullConjugate_prior g obs_noise
  | Sparse g => GPSparseConjugate_prior g obs_noise
  end.

(** [o.conditional (Xs, y, obs_noise)] *)
Definition conditional (o : gp_object) (Xs : texp) (y : option texp)
    (obs_noise : bool) : M (texp * texp) :=
  match o, y with
  | NonConj g, _ => GPFullNonConjugate_conditional g Xs None
  | Full g, Some y => GPFullConjugate_conditional g Xs y obs_noise
  | Sparse g, Some y => GPSparseConjugate_conditional g Xs y obs_noise
  | _, None => raise TypeError
  end.

(** *** The constructor [GP] *)

(** Arguments that are tested with [isinstance]. *)
Inductive mean_arg := IsMean (m : Mean) | NotMean.
Inductive cov_arg := IsCov (k : Covariance) | NotCov.

(** The inputs [X]: a NumPy array, or another object, which may have an
    attribute [value]. *)
Inductive X_arg :=
| XArray (a : ndarray)
| XOther (t : texp) (value : option ndarray).

Definition tensor_of_X (X : X_arg) : texp :=
  match X with
  | XArray a => TArr a
  | XOther t _ => t
  end.

(** [str.upper] on ASCII letters. *)
Definition upper_ascii (c : ascii) : ascii :=
  let n := nat_of_ascii c in
  if ((97 <=? n) && (n <=? 122))%nat then ascii_of_nat (n - 32) else c.

Fixpoint upper (s : string) : string :=
  match s with
  | EmptyString => EmptyString
  | String c s' => String (upper_ascii c) (upper s')
  end.

Definition is_None {A} (o : option A) : bool :=
  match o with
  | None => true
  | Some _ => false
  end.

(** [modelcontext (model)]: the model given, or the one on top of the
    context stack. *)
Definition modelcontext (context : list string) (model : option string)
  : result string :=
  match model with
  | Some m => Ok m
  | None =>
      match context with
      | m :: _ => Ok m
      | [] => Raise TypeError
      end
  end.

Section Constructor.

(** [Zero ()] of [pymc3/gp/mean.py]; [np.std (X, 0)]; SciPy's [kmeans],
    which raises on input that is not finite. *)
Variable Zero : Mean.
Variable np_std0 : ndarray -> ndarray.
Variable kmeans : ndarray -> Z -> result ndarray.
Variable context : list string.

(** [Distribution.__new__] with [observed=]: the object becomes the
    distribution of an observed variable of the model. *)
Definition new_observed (name : string) (o : gp_object) (observed : texp)
  : M RV :=
  let rv := ObservedRV name (GPDist o) observed in
  _ <- register rv ;; ret rv.

(** Lines 92 to 99: the inducing points from k-means on whitened
    inputs.  [X] is rebound to its value. *)
Definition kmeans_inducing (X : X_arg) (n_inducing : Z)
  : result (X_arg * ndarray) :=
  Xv <~ match X with
        | XArray a => Ok a
        | XOther _ (Some v) => Ok v
        | XOther _ None => Raise AttributeError
        end ;;
  let scaling := np_std0 Xv in
  match Np.div Xv scaling with
  | None => Raise ValueError
  | Some Xw =>
      Xu <~ kmeans Xw n_inducing ;;
      match Np.mul Xu scaling with
      | None => Raise ValueError
      | Some ip => Ok (XArray Xv, ip)
      end
  end.

Definition GP (name : string) (X : X_arg) (mean_func : option mean_arg)
    (cov_func : option cov_arg) (cov_func_noise : option noise_func)
    (sigma : option texp) (approx : option string)
    (n_inducing : option Z) (inducing_points : option ndarray)
    (observed : option texp) (model : option string) : M RV :=
  model <- lift (modelcontext context model) ;;
  mean_func <- match mean_func with
               | None => ret Zero
               | Some (IsMean m) => ret m
               | Some NotMean => raise GPValueError
               end ;;
  cov_func <- match cov_func with
              | None => raise GPValueError
              | Some NotCov => raise GPValueError
              | Some (IsCov k) => ret k
              end ;;
  match observed with
  | None =>
      (* NONCONJUGATE *)
      let gp := GPFullNonConjugate_init name (tensor_of_X X)
                  mean_func cov_func in
      '(f, _) <- GPFullNonConjugate_RV gp ;;
      ret f
  | Some observed =>
      (* CONJUGATE *)
      if is_None approx && is_None n_inducing && is_None inducing_points
      then
        cov_func_noise <-
          match sigma, cov_func_noise with
          | None, None => raise GPValueError
          | Some sigma, None =>
              ret (NoiseLambda (fun X =>
                     TMul (TSquare sigma) (TEye (TShape0 X))))
          | _, Some kn => ret kn
          end ;;
        new_observed name
          (Full (GPFullConjugate_init (tensor_of_X X) mean_func cov_func
                   cov_func_noise))
          observed
      else
        approx <- match approx with
                  | Some s => ret (Some (upper s))
                  | None => raise AttributeError
                  end ;;
        (* CONJUGATE, APPROXIMATION *)
        '(X, inducing_points) <-
          match inducing_points, n_inducing with
          | None, Some n =>
              p <- lift (kmeans_inducing X n) ;;
              ret (fst p, Some (snd p))
          | _, _ => ret (X, inducing_points)
          end ;;
        approx <- match approx with
                  | None =>
                      _ <- log_info "Using VFE approximation" ;;
                      ret "VFE"%string
                  | Some a => ret a
                  end ;;
        if negb (String.eqb approx "VFE" || String.eqb approx "FITC")
        then raise GPValueError
        else if is_None inducing_points && is_None n_inducing
        then raise GPValueError
        else
          match inducing_points with
          | None => raise TypeError (* [tt.as_tensor_variable (None)] *)
          | Some ip =>
              let inducing_points := TArr ip in
              gp <- lift (GPSparseConjugate_init (tensor_of_X X) mean_func
                            cov_func sigma approx inducing_points) ;;
              new_observed name (Sparse gp) observed
          end
  end.

End Constructor.

(** *** NumPy's global random state *)

(** The state is a stream of raw draws and the position in it.
    [permutation] is the shuffle behind [np.random.choice (..,
    replace=False)]: it picks one of the remaining elements per draw. *)
Record rng := { draws : nat -> nat; pos : nat }.

Fixpoint remove_nth {A} (j : nat) (l : list A) : list A :=
  match j, l with
  | _, [] => []
  | O, _ :: l' => l'
  | S j', x :: l' => x :: remove_nth j' l'
  end.

Fixpoint shuffle (d : nat -> nat) (p fuel : nat) (l : list nat) : list nat :=
  match fuel with
  | O => []
  | S fuel' =>
      match l with
      | [] => []
      | _ :: _ =>
          let j := (d p mod length l)%nat in
          nth j l O :: shuffle d (S p) fuel' (remove_nth j l)
      end
  end.

Definition permutation (g : rng) (n : nat) : list nat * rng :=
  (shuffle (draws g) (pos g) n (seq 0 n),
   {| draws := draws g; pos := (pos g + n)%nat |}).

(** [np.random.choice (np.arange (n), size, replace=False)]: a prefix of a
    permutation of the population; it raises [ValueError] on an empty
    population, on a negative size, and on a size larger than the
    population. *)
Definition np_random_choice_noreplace (g : rng) (n : nat) (size : Z)
  : result (list nat) * rng :=
  if (n =? 0)%nat then (Raise ValueError, g)
  else if (size <? 0)%Z then (Raise ValueError, g)
  else if (Z.of_nat n <? size)%Z then (Raise ValueError, g)
  else let (p, g') := permutation g n in
       (Ok (firstn (Z.to_nat size) p), g').

(** *** [GPBase.random] and [sample_gp] *)

Section Sampler.

(** [np.random.seed]; [stats.multivariate_normal.rvs (mean, cov)], which
    raises on arguments it cannot use. *)
Variable np_random_seed : Z -> rng.
Variable mvn_rvs : rng -> ndarray -> ndarray -> result ndarray * rng.
Variable context : list string.

(** A trace entry gives the variables their values. *)
Definition point := env.

(** [GPBase.random (point, size, X_values, obs_noise, y, from_prior)]
    with [size=None]: the graphs of mean and covariance, their values at
    the point ([draw_values]), one draw. *)
Definition random (self : gp_object) (pt : point) (X_values : texp)
    (obs_noise : bool) (y : option texp) (from_prior : bool) (g : rng)
  : M (ndarray * rng) :=
  '(mean, cov) <- (if from_prior then prior self obs_noise
                   else conditional self X_values y obs_noise) ;;
  match eval pt mean, eval pt cov with
  | Some mu, Some c =>
      match mvn_rvs g mu c with
      | (Ok s, g') => ret (s, g')
      | (Raise e, _) => raise e
      end
  | _, _ => raise ValueError
  end.

Definition rv_name (v : RV) : string :=
  match v with
  | FreeRV n _ _ | Deterministic n _ _ | ObservedRV n _ _ => n
  end.

Definition rv_distribution (v : RV) : option gp_object :=
  match v with
  | Deterministic _ _ (Some o) => Some o
  | ObservedRV _ (GPDist o) _ => Some o
  | _ => None
  end.

(** [[v for v in model.observed_RVs if v.name == gp.name][0]], as the
    tensor it stands for. *)
Definition observed_named (vars : list RV) (name : string)
  : result texp :=
  match filter (fun v => match v with
                         | ObservedRV n _ _ => String.eqb n name
                         | _ => false
                         end) vars with
  | ObservedRV _ _ data :: _ => Ok data
  | _ => Raise IndexError
  end.

(** Lines 403 to 411: seeding, the default of [n_samples], the choice
    of the trace indices. *)
Definition sample_gp_indices (len_trace : nat) (n_samples : option Z)
    (random_seed : option Z) (g : rng) : result (list nat) * rng :=
  let g := match random_seed with
           | Some s => if (s =? 0)%Z then g else np_random_seed s
           | None => g
           end in
  let n_samples := match n_samples with
                   | None => Z.of_nat len_trace
                   | Some n => n
                   end in
  np_random_choice_noreplace g len_trace n_samples.

(** The loop over the indices; [interrupt] is the number of completed
    iterations after which the user interrupts, if at all. *)
Fixpoint sample_loop (trace : list point) (gp : RV) (X_values : texp)
    (obs_noise : bool) (y : option texp) (from_prior : bool)
    (interrupt : option nat) (indices : list nat) (i : nat) (g : rng)
  : M (list ndarray) :=
  match indices with
  | [] => ret []
  | ix :: rest =>
      if match interrupt with Some k => (k =? i)%nat | None => false end
      then ret []
      else
        match rv_distribution gp, nth_error trace ix with
        | None, _ => raise AttributeError
        | Some _, None => raise IndexError
        | Some o, Some pt =>
            '(s, g') <- random o pt X_values obs_noise y from_prior g ;;
            samples <- sample_loop trace gp X_values obs_noise y from_prior
                         interrupt rest (S i) g' ;;
            ret (s :: samples)
        end
  end.

Definition sample_gp (trace : list point) (gp : RV) (X_values : texp)
    (n_samples : option Z) (obs_noise from_prior : bool)
    (model : option string) (random_seed : option Z) (progressbar : bool)
    (interrupt : option nat) (g : rng) : M (list ndarray) :=
  model <- lift (modelcontext context model) ;;
  match sample_gp_indices (length trace) n_samples random_seed g with
  | (Raise e, _) => raise e
  | (Ok indices, g) =>
      y <- match gp with
           | ObservedRV name _ _ =>
               fun w => (match observed_named (model_vars w) name with
                         | Ok d => Ok (Some d)
                         | Raise e => Raise e
                         end, w)
           | _ => ret None
           end ;;
      sample_loop trace gp X_values obs_noise y from_prior interrupt
        indices 0 g
  end.

End Sampler.

End GP.

Import Cov GP.

(** ** Expressions of the specification *)

Module Spec.

(** The terms a kernel contributes to a sum: its own terms when it is a
    sum, itself otherwise. *)
Definition terms (k : Covariance) : list factor :=
  match k with
  | Add _ fl => fl
  | _ => [FCov k]
  end.

Definition is_Add (k : Covariance) : bool :=
  match k with
  | Add _ _ => true
  | _ => false
  end.

(** [(k1 + k2) + k3] and [k1 + (k2 + k3)] *)
Definition left_nested (k1 k2 k3 : Covariance) : result Covariance :=
  s <~ __add__ k1 (FCov k2) ;; __add__ s (FCov k3).
Definition right_nested (k1 k2 k3 : Covariance) : result Covariance :=
  s <~ __add__ k2 (FCov k3) ;; __add__ k1 (FCov s).

(** [(k1 * k2) + k3] *)
Definition product_in_sum (k1 k2 k3 : Covariance) : result Covariance :=
  p <~ __mul__ k1 (FCov k2) ;; __add__ p (FCov k3).
(** [(k1 + k2) * k3] *)
Definition sum_in_product (k1 k2 k3 : Covariance) : result Covariance :=
  s <~ __add__ k1 (FCov k2) ;; __mul__ s (FCov k3).

(** The conditional of the full conjugate variant, in the words of the
    specification. *)
Definition fc_L (Kxx Knx : texp) : texp := TCholesky (TAdd (stabilize Kxx) Knx).
Definition fc_A (L Kxs : texp) : texp := TSolveLower L Kxs.
Definition fc_V (L y mX : texp) : texp := TSolveLower L (TSub y mX).
Definition posterior_mean (mXs A V : texp) : texp :=
  TAdd mXs (TDot (TTranspose A) V).
Definition posterior_cov (Kss A : texp) : texp :=
  TSub Kss (TDot (TTranspose A) A).
Definition posterior_cov_noise (Kns Kss A : texp) : texp :=
  TSub (TAdd Kns Kss) (TDot (TTranspose A) A).

(** The sparse conjugate log density, in the words of the specification:
    the effective noise and the trace term of the two approximations, and
    the value of [logp]. *)
Definition Lamd_FITC (sigma2 Kffd Qffd : texp) : texp :=
  TAdd (TClip (TSub Kffd Qffd) (TConst 0) TInf) sigma2.
Definition Lamd_VFE (sigma2 Qffd : texp) : texp :=
  TMul (TOnesLike Qffd) sigma2.
Definition trace_VFE (sigma2 Kffd Qffd : texp) : texp :=
  TMul (TDiv (TConst 1) (TMul (TConst 2) sigma2))
       (TSub (TSum Kffd None) (TSum Qffd None)).

Definition diagonal (m : list (list R)) : list R :=
  tabulate (Nat.min (nrows m) (ncols m)) (fun i => get m i i).
Definition dotp (u v : list R) : R :=
  sum_n (length u) (fun k => nth k u 0 * nth k v 0).

Definition sparse_logp_value (n : R) (lam : list R) (lb : list (list R))
    (r r_l c : list R) (trace_term : R) : R :=
  - (0.5 * n * ln (2 * PI)
     + 0.5 * rsum (map ln lam)
     + rsum (map ln (diagonal lb))
     + 0.5 * (dotp r r_l - dotp c c)
     + trace_term).

(** A combination evaluated with [diag=True], in the words of the
    specification: each operand is reduced to its diagonal first (a
    kernel is evaluated with [diag=True], a matrix-valued constant array
    or tensor gives its diagonal, any other operand is left as it is),
    then the operands are combined. *)
Definition diag_operand (X : texp) (Xs : option texp) (f : factor)
  : result pyval :=
  match f with
  | FCov k => call k X Xs true
  | FNdarray (Mat m) => Ok (VArr (Vec (diagonal m)))
  | FNdarray a => Ok (VArr a)
  | FTensor t =>
      if (ndim t =? 2)%nat then Ok (VTensor (TDiag t)) else Ok (VTensor t)
  | FNumber x => Ok (VNum x)
  end.

Fixpoint mapM {A B} (f : A -> result B) (l : list A) : result (list B) :=
  match l with
  | [] => Ok []
  | x :: l' => y <~ f x ;; ys <~ mapM f l' ;; Ok (y :: ys)
  end.

(** The binary operator folded over the values of the operands, from
    the left. *)
Definition combine (op : ndarray -> ndarray -> option ndarray)
    (vals : list (option ndarray)) : option ndarray :=
  match vals with
  | [] => None
  | v :: vs =>
      fold_left (fun acc y => (a <- acc ;; b <- y ;; op a b)%py) vs v
  end.

(** Two operands that differ at most off the diagonal of a matrix. *)
Definition same_diagonal (f f' : factor) : Prop :=
  match f, f' with
  | FNdarray (Mat m), FNdarray (Mat m') => diagonal m = diagonal m'
  | FTensor t, FTensor t' =>
      t = t' \/
      (ndim t = 2%nat /\ ndim t' = 2%nat /\
       forall rho, eval rho (TDiag t) = eval rho (TDiag t'))
  | _, _ => f = f'
  end.

(** Two results with the same value: the same exception, the same number
    or array, or tensors of equal value. *)
Definition same_value (rho : env) (v v' : pyval) : Prop :=
  match v, v' with
  | VTensor t, VTensor t' => eval rho t = eval rho t'
  | _, _ => v = v'
  end.

Definition same_result (rho : env) (r r' : result pyval) : Prop :=
  match r, r' with
  | Ok v, Ok v' => same_value rho v v'
  | Raise e, Raise e' => e = e'
  | _, _ => False
  end.

(** The clipped squared distances between the rows of a scaled input. *)
Definition sqd_entry (d : nat) (xd : list (list R)) (i j : nat) : R :=
  Rmax (-2 * sum_n d (fun k => get xd i k * get xd j k)
        + (sum_n d (fun k => get xd i k * get xd i k)
           + sum_n d (fun k => get xd j k * get xd j k))) 0.

(** The six stationary kernels, with their lengthscales. *)
Definition stationary_lengthscales (k : Covariance) : option texp :=
  match k with
  | ExpQuad _ ls | RatQuad _ ls _ | Matern52 _ ls | Matern32 _ ls
  | Exponential _ ls | Cosine _ ls => Some ls
  | _ => None
  end.

(** What the exponent [alpha] of a rational quadratic kernel has to
    satisfy; nothing for the other kernels. *)
Definition alpha_positive (rho : env) (k : Covariance) : Prop :=
  match k with
  | RatQuad _ _ alpha => exists a, eval rho alpha = Some (Scalar a) /\ 0 < a
  | _ => True
  end.


(** The tensor a kernel or a noise function gives. *)
Definition kernel_at (K : Covariance) (X : texp) (Xs : option texp)
    (diag : bool) : result texp :=
  v <~ call K X Xs diag ;; Ok (as_tensor_variable v).
Definition noise_at (Kn : noise_func) (X : texp) : result texp :=
  match Kn with
  | NoiseCov k => kernel_at k X None false
  | NoiseLambda f => Ok (f X)
  end.

(** The shapes of the arguments of [cholesky]. *)
Definition Stabilized (e : texp) : Prop := exists K, e = stabilize K.
Definition Stabilized_plus_noise (e : texp) : Prop :=
  exists K N, e = TAdd (stabilize K) N.
Definition Identity_plus_product (e : texp) : Prop :=
  exists n B A, e = TAdd (TEye n) (TDot B (TTranspose A)).

(** The matrices of the sparse conjugate variant: [A], the effective
    noise of the approximation, and the argument of the second
    factorisation. *)
Definition sparse_A (Kuu Kuf : texp) : texp :=
  TSolveLower (TCholesky (stabilize Kuu)) Kuf.
Definition sparse_Lamd (approx : string) (sigma2 Kffd A : texp) : texp :=
  let Qffd := TSum (TMul A A) (Some 0%nat) in
  if String.eqb approx "FITC" then Lamd_FITC sigma2 Kffd Qffd
  else Lamd_VFE sigma2 Qffd.
Definition sparse_B (nu A Lamd : texp) : texp :=
  TAdd (TEye nu) (TDot (TDiv A Lamd) (TTranspose A)).

(** The calls of [cholesky] between two states. *)
Definition chol_calls_between (w w' : world) (new : list texp) : Prop :=
  chol_calls w' = chol_calls w ++ new.

(** The entries of [K + 1e-6 * (trace (K) / n) * I]. *)
Definition stabilized_entries (n : nat) (k : list (list R))
  : list (list R) :=
  mat_tab n n (fun i j =>
    get k i j + 1e-6 * (trace k / INR n) * (if (i =? j)%nat then 1 else 0)).

(** *** Further expressions, for the properties beyond the claims *)

(** A combination directly inside a combination of the same class. *)
Definition nested_same (cls : combination_class) (f : factor) : bool :=
  match cls, f with
  | ClsAdd, FCov (Add _ _) => true
  | ClsProd, FCov (Prod _ _) => true
  | _, _ => false
  end.

(** A kernel none of whose own terms is a combination of its class. *)
Definition flat_kernel (k : Covariance) : Prop :=
  match k with
  | Add _ fl => forallb (fun f => negb (nested_same ClsAdd f)) fl = true
  | Prod _ fl => forallb (fun f => negb (nested_same ClsProd f)) fl = true
  | _ => True
  end.

(** [(k1 * k2) * k3] and [k1 * (k2 * k3)] *)
Definition left_nested_prod (k1 k2 k3 : Covariance) : result Covariance :=
  s <~ __mul__ k1 (FCov k2) ;; __mul__ s (FCov k3).
Definition right_nested_prod (k1 k2 k3 : Covariance) : result Covariance :=
  s <~ __mul__ k2 (FCov k3) ;; __mul__ k1 (FCov s).
Definition terms_prod (k : Covariance) : list factor :=
  match k with
  | Prod _ fl => fl
  | _ => [FCov k]
  end.

Definition symmetric (n : nat) (m : list (list R)) : Prop :=
  forall i j, (i < n)%nat -> (j < n)%nat -> get m i j = get m j i.

(** The squared Euclidean distance between two rows of a matrix. *)
Definition row_sqdist (d : nat) (xd : list (list R)) (i j : nat) : R :=
  sum_n d (fun k => (get xd i k - get xd j k) * (get xd i k - get xd j k)).

(** The value of [alpha] of a rational quadratic kernel. *)
Definition alpha_value (rho : env) (k : Covariance) : R :=
  match k with
  | RatQuad _ _ alpha =>
      match eval rho alpha with
      | Some (Scalar a) => a
      | _ => 0
      end
  | _ => 0
  end.

(** A computation that leaves the variables of the model and the log
    as they are, whatever it returns. *)
Definition same_model (w w' : world) : Prop :=
  model_vars w' = model_vars w /\ info_log w' = info_log w.
Definition preserves {A} (c : M A) : Prop :=
  forall w, same_model w (snd (c w)).

(** The number of samples [sample_gp] is asked for. *)
Definition requested (len_trace : nat) (n_samples : option Z) : Z :=
  match n_samples with
  | None => Z.of_nat len_trace
  | Some n => n
  end.

(** The mean function the constructor [GP] uses: [Zero ()] by default,
    none when the argument is not a [Mean]. *)
Definition mean_of (Zero : Mean) (mean_func : option mean_arg)
  : option Mean :=
  match mean_func with
  | None => Some Zero
  | Some (IsMean m) => Some m
  | Some NotMean => None
  end.

(** The entries of [Gibbs.square_dist (X, Xs)] as the code computes
    them: both squared norms are those of rows of [Xs]. *)
Definition gibbs_sqd_entry (d : nat) (x xs : list (list R)) (i j : nat) : R :=
  Rmax (-2 * sum_n d (fun k => get x i k * get xs j k)
        + (sum_n d (fun k => get xs i k * get xs i k)
           + sum_n d (fun k => get xs j k * get xs j k))) 0.

(** The input a stationary kernel takes distances of: the active
    columns of [X], each divided by its lengthscale. *)
Definition scaled_input (k : Covariance) (ls X : texp) : texp :=
  TMul (TIndexCols X (active_dims (base_of k))) (TDiv (TConst 1) ls).

(** The six stationary kernels as functions of the squared distance
    [s]; [a] is the exponent of the rational quadratic kernel. *)
Definition kernel_profile (k : Covariance) (a : R) (s : R) : R :=
  let r := sqrt (s + 1e-12) in
  match k with
  | ExpQuad _ _ => exp (-0.5 * s)
  | RatQuad _ _ _ => Rpower (1 + 0.5 * s * (1 / a)) (-1 * a)
  | Matern52 _ _ =>
      (1 + sqrt 5 * r + 5 / 3 * (r * r)) * exp (-1 * sqrt 5 * r)
  | Matern32 _ _ => (1 + sqrt 3 * r) * exp (- sqrt 3 * r)
  | Exponential _ _ => exp (-0.5 * r)
  | Cosine _ _ => cos (PI * r)
  | _ => 0
  end.

End Spec.

(** ** Concrete instances of what lies outside the two modules *)

Module Instances.

(** [Zero] of [pymc3/gp/mean.py]: the zero vector of the length of the
    inputs. *)
Definition Zero : Mean := {| mean_call := fun X => TZeros1 (TShape0 X) |}.

(** [np.std (a, 0)]: the standard deviation of each column. *)
Definition std (l : list R) : R :=
  let n := INR (length l) in
  let mu := rsum l / n in
  sqrt (rsum (map (fun x => (x - mu) * (x - mu)) l) / n).

Definition np_std0 (a : ndarray) : ndarray :=
  match a with
  | Scalar _ => Scalar 0
  | Vec v => Scalar (std v)
  | Mat m => Vec (map std (transpose m))
  end.

(** An instance for SciPy's [kmeans (obs, k)]: the first [k]
    observations as centroids, which is where the iteration starts from
    when it is given them as the initial guess. *)
Definition kmeans (obs : ndarray) (k : Z) : result ndarray :=
  match obs with
  | Mat m =>
      if ((0 <? k) && (k <=? Z.of_nat (nrows m)))%Z
      then Ok (Mat (firstn (Z.to_nat k) m))
      else Raise ValueError
  | _ => Raise ValueError
  end.

(** [np.random.seed (s)]: a linear congruential stream. *)
Definition np_random_seed (s : Z) : rng :=
  {| draws := fun i => ((Z.to_nat s + i) * 75 + 74)%nat; pos := 0 |}.

(** An instance for [stats.multivariate_normal.rvs]: it needs a vector and
    a square matrix of the same size and answers the mean, the draw of
    probability one when the covariance vanishes. *)
Definition mvn_rvs (g : rng) (mean cov : ndarray) : result ndarray * rng :=
  match mean, cov with
  | Vec mu, Mat c =>
      if (length mu =? nrows c)%nat && (nrows c =? ncols c)%nat
      then (Ok (Vec mu), {| draws := draws g; pos := S (pos g) |})
      else (Raise ValueError, g)
  | _, _ => (Raise ValueError, g)
  end.

Definition context : list string := ["model"%string].

Definition base1 : base := {| input_dim := 1; active_dims := [0%Z] |}.

(** Three training inputs on a line, and two inducing points. *)
Definition X3 : ndarray := Mat [[0]; [1]; [2]].
Definition Xu2 : ndarray := Mat [[0]; [2]].
Definition y3 : texp := TArr (Vec [0; 1; 2]).

Definition k_expquad : Covariance := ExpQuad base1 (TConst 1).
Definition k_matern32 : Covariance := Matern32 base1 (TConst 1).
Definition k_linear : Covariance := Linear base1 (TConst 0).

(** A sparse conjugate GP with one training input and one inducing
    point, and a full conjugate GP with one training input. *)
Definition sparse1 (approx : string) : GPSparseConjugate :=
  {| sc_X := TArr (Mat [[0]]); sc_nf := TShape0 (TArr (Mat [[0]]));
     sc_K := k_linear; sc_m := Zero;
     sc_mean := mean_call Zero (TArr (Mat [[0]]));
     sc_sigma2 := TSquare (TConst 1); sc_approx := approx;
     sc_Xu := TArr (Mat [[1]]); sc_nu := TShape0 (TArr (Mat [[1]])) |}.

Definition full1 : GPFullConjugate :=
  GPFullConjugate_init (TArr (Mat [[0]])) Zero k_linear
    (NoiseCov (WhiteNoise base1 (TConst 1))).

(** One test input for [full1], and the covariance the conditional would
    return there without the final [stabilize]. *)
Definition X1 : texp := TArr (Mat [[0]]).
Definition Xs1 : texp := TArr (Mat [[1]]).
Definition y1 : texp := TArr (Vec [0]).
Definition Kxx1 : texp := Linear_full base1 (TConst 0) X1 None.
Definition Knx1 : texp := WhiteNoise_full (TConst 1) X1 None.
Definition Kxs1 : texp := Linear_full base1 (TConst 0) X1 (Some Xs1).
Definition Kss1 : texp := Linear_full base1 (TConst 0) Xs1 None.
Definition unstabilized_cov1 : texp :=
  Spec.posterior_cov Kss1 (Spec.fc_A (Spec.fc_L Kxx1 Knx1) Kxs1).

(** Two sums that differ in the off-diagonal entries of a constant
    matrix, and two input points. *)
Definition X2 : texp := TArr (Mat [[1]; [2]]).
Definition sum_a : list factor :=
  [FCov k_linear; FNdarray (Mat [[1; 2]; [3; 4]]); FNumber 5].
Definition sum_b : list factor :=
  [FCov k_linear; FNdarray (Mat [[1; 7]; [8; 4]]); FNumber 5].

Definition rng0 : rng := {| draws := fun i => i; pos := 0 |}.

(** A trace of three entries, none of which binds a variable. *)
Definition point0 : GP.point := fun _ => None.
Definition trace3 : list GP.point := [point0; point0; point0].
Definition rv0 : RV := Deterministic "f" (TConst 0) None.

End Instances.


(** * Properties *)

Open Scope py_scope.

(** ** Arrays by their entries *)

Lemma sequence_map {A B} (g : A -> option B) (h : A -> B) (l : list A) :
  (forall x, In x l -> g x = Some (h x)) ->
  sequence (map g l) = Some (map h l).
Proof.
  induction l as [|x l IH]; intros H; simpl; [reflexivity|].
  rewrite (H x) by (left; reflexivity). simpl.
  rewrite IH by (intros y Hy; apply H; right; exact Hy). reflexivity.
Qed.

Lemma length_tabulate {A} (n : nat) (f : nat -> A) :
  length (tabulate n f) = n.
Proof. unfold tabulate. rewrite length_map. apply length_seq. Qed.

Lemma nth_tabulate {A} (n : nat) (f : nat -> A) (i : nat) (d : A) :
  (i < n)%nat -> nth i (tabulate n f) d = f i.
Proof.
  intros Hi. unfold tabulate.
  rewrite (nth_indep _ d (f O)) by (rewrite length_map, length_seq; lia).
  rewrite map_nth, seq_nth by lia. reflexivity.
Qed.

Lemma tabulate_ext {A} (n : nat) (f g : nat -> A) :
  (forall i, (i < n)%nat -> f i = g i) -> tabulate n f = tabulate n g.
Proof.
  intros H. unfold tabulate. apply map_ext_in. intros i Hi.
  apply in_seq in Hi. apply H. lia.
Qed.

Lemma map_tabulate {A B} (g : A -> B) (n : nat) (f : nat -> A) :
  map g (tabulate n f) = tabulate n (fun i => g (f i)).
Proof. unfold tabulate. apply map_map. Qed.

Lemma sequence_tabulate {A} (n : nat) (g : nat -> option A) (h : nat -> A) :
  (forall i, (i < n)%nat -> g i = Some (h i)) ->
  sequence (tabulate n g) = Some (tabulate n h).
Proof.
  intros H. unfold tabulate. apply sequence_map. intros i Hi.
  apply in_seq in Hi. apply H. lia.
Qed.

Lemma list_eq_tabulate {A} (d : A) (l : list A) :
  l = tabulate (length l) (fun i => nth i l d).
Proof.
  apply (nth_ext _ _ d d).
  - rewrite length_tabulate. reflexivity.
  - intros i Hi. rewrite nth_tabulate by exact Hi. reflexivity.
Qed.

Lemma nrows_mat_tab (r c : nat) (f : nat -> nat -> R) :
  nrows (mat_tab r c f) = r.
Proof. apply length_tabulate. Qed.

Lemma ncols_mat_tab (r c : nat) (f : nat -> nat -> R) :
  (0 < r)%nat -> ncols (mat_tab r c f) = c.
Proof.
  intros Hr. unfold ncols, mat_tab.
  replace (hd [] (tabulate r (fun i => tabulate c (f i))))
    with (nth 0 (tabulate r (fun i => tabulate c (f i))) [])
    by (destruct (tabulate r _); reflexivity).
  rewrite nth_tabulate by exact Hr. apply length_tabulate.
Qed.

Lemma get_mat_tab (r c : nat) (f : nat -> nat -> R) (i j : nat) :
  (i < r)%nat -> (j < c)%nat -> get (mat_tab r c f) i j = f i j.
Proof.
  intros Hi Hj. unfold get, mat_tab.
  rewrite nth_tabulate by exact Hi. apply nth_tabulate. exact Hj.
Qed.

Lemma mat_tab_ext (r c : nat) (f g : nat -> nat -> R) :
  (forall i j, (i < r)%nat -> (j < c)%nat -> f i j = g i j) ->
  mat_tab r c f = mat_tab r c g.
Proof.
  intros H. apply tabulate_ext. intros i Hi. apply tabulate_ext.
  intros j Hj. apply H; assumption.
Qed.

Lemma rect_mat_tab (r c : nat) (f : nat -> nat -> R) :
  rect r c (mat_tab r c f).
Proof.
  split; [apply length_tabulate|]. apply Forall_forall. intros row Hin.
  unfold mat_tab, tabulate in Hin. apply in_map_iff in Hin.
  destruct Hin as (i & <- & _). apply length_tabulate.
Qed.

Lemma rect_eq_mat_tab (r c : nat) (m : list (list R)) :
  rect r c m -> m = mat_tab r c (get m).
Proof.
  intros [Hr Hc]. apply (nth_ext _ _ [] []).
  - rewrite nrows_mat_tab. exact Hr.
  - intros i Hi. unfold mat_tab. rewrite nth_tabulate by lia.
    assert (Hrow : length (nth i m []) = c).
    { rewrite Forall_forall in Hc. apply Hc. apply nth_In. exact Hi. }
    rewrite (list_eq_tabulate 0 (nth i m [])) at 1. rewrite Hrow.
    reflexivity.
Qed.

Lemma rect_ncols (r c : nat) (m : list (list R)) :
  rect r c m -> (0 < r)%nat -> ncols m = c.
Proof.
  intros H Hr. rewrite (rect_eq_mat_tab r c m H). apply ncols_mat_tab. exact Hr.
Qed.

Lemma map_mat_tab (g : R -> R) (r c : nat) (f : nat -> nat -> R) :
  map (map g) (mat_tab r c f) = mat_tab r c (fun i j => g (f i j)).
Proof.
  unfold mat_tab. rewrite map_tabulate. apply tabulate_ext. intros i _.
  apply map_tabulate.
Qed.

Lemma bidx_lt (n i : nat) : (i < n)%nat -> bidx n i = i.
Proof. unfold bidx. destruct (Nat.eqb_spec n 1); lia. Qed.

Lemma bdim_same (n : nat) : bdim n n = Some n.
Proof. unfold bdim. rewrite Nat.eqb_refl. reflexivity. Qed.

Lemma bdim_1_r (n : nat) : bdim n 1 = Some n.
Proof.
  unfold bdim. destruct (Nat.eqb_spec n 1); [subst; reflexivity|].
  reflexivity.
Qed.

Lemma bdim_1_l (n : nat) : bdim 1 n = Some n.
Proof.
  unfold bdim. destruct (Nat.eqb_spec 1 n); [subst; reflexivity|].
  reflexivity.
Qed.

(** *** Elementwise operations on arrays given by their entries *)

Lemma sequence_mat_tab (r c : nat) (g : nat -> nat -> option R)
    (h : nat -> nat -> R) :
  (forall i j, (i < r)%nat -> (j < c)%nat -> g i j = Some (h i j)) ->
  sequence (tabulate r (fun i => sequence (tabulate c (g i))))
  = Some (mat_tab r c h).
Proof.
  intros H. apply sequence_tabulate. intros i Hi.
  apply sequence_tabulate. intros j Hj. apply H; assumption.
Qed.

Lemma uop_mat_tab (g : R -> option R) (r c : nat) (f h : nat -> nat -> R) :
  (forall i j, (i < r)%nat -> (j < c)%nat -> g (f i j) = Some (h i j)) ->
  uop g (Mat (mat_tab r c f)) = Some (Mat (mat_tab r c h)).
Proof.
  intros H. simpl. unfold mat_tab at 1. rewrite map_tabulate.
  erewrite (tabulate_ext r); [|intros i Hi; rewrite map_tabulate; reflexivity].
  rewrite (sequence_mat_tab r c (fun i j => g (f i j)) h H). reflexivity.
Qed.

Lemma uop_vec_tab (g : R -> option R) (n : nat) (f h : nat -> R) :
  (forall i, (i < n)%nat -> g (f i) = Some (h i)) ->
  uop g (Vec (tabulate n f)) = Some (Vec (tabulate n h)).
Proof.
  intros H. simpl. rewrite map_tabulate.
  rewrite (sequence_tabulate n (fun i => g (f i)) h H). reflexivity.
Qed.

Lemma bop_mat_mat (g : R -> R -> option R) (r c : nat)
    (a b h : nat -> nat -> R) :
  (0 < r)%nat ->
  (forall i j, (i < r)%nat -> (j < c)%nat -> g (a i j) (b i j) = Some (h i j)) ->
  bop g (Mat (mat_tab r c a)) (Mat (mat_tab r c b))
  = Some (Mat (mat_tab r c h)).
Proof.
  intros Hr H. simpl. unfold bmat.
  rewrite !nrows_mat_tab, !ncols_mat_tab, !bdim_same by exact Hr. simpl.
  rewrite (sequence_mat_tab _ _ _ h); [reflexivity|].
  intros i j Hi Hj. rewrite !bidx_lt, !get_mat_tab by assumption.
  apply H; assumption.
Qed.

Lemma bop_col_row (g : R -> R -> option R) (n m : nat)
    (a b h : nat -> nat -> R) :
  (0 < n)%nat -> (0 < m)%nat ->
  (forall i j, (i < n)%nat -> (j < m)%nat -> g (a i O) (b O j) = Some (h i j)) ->
  bop g (Mat (mat_tab n 1 a)) (Mat (mat_tab 1 m b))
  = Some (Mat (mat_tab n m h)).
Proof.
  intros Hn Hm H. simpl. unfold bmat.
  rewrite !nrows_mat_tab, !ncols_mat_tab by lia.
  rewrite bdim_1_r, bdim_1_l. simpl.
  rewrite (sequence_mat_tab _ _ _ h); [reflexivity|].
  intros i j Hi Hj. rewrite (bidx_lt _ _ Hi), (bidx_lt _ _ Hj).
  unfold bidx at 1 2. simpl. rewrite !get_mat_tab by lia.
  apply H; assumption.
Qed.

Lemma bop_scalar_mat (g : R -> R -> option R) (x : R) (r c : nat)
    (f h : nat -> nat -> R) :
  (forall i j, (i < r)%nat -> (j < c)%nat -> g x (f i j) = Some (h i j)) ->
  bop g (Scalar x) (Mat (mat_tab r c f)) = Some (Mat (mat_tab r c h)).
Proof. intros H. apply (uop_mat_tab (g x) r c f h H). Qed.

Lemma bop_mat_scalar (g : R -> R -> option R) (y : R) (r c : nat)
    (f h : nat -> nat -> R) :
  (forall i j, (i < r)%nat -> (j < c)%nat -> g (f i j) y = Some (h i j)) ->
  bop g (Mat (mat_tab r c f)) (Scalar y) = Some (Mat (mat_tab r c h)).
Proof. intros H. apply (uop_mat_tab (fun x => g x y) r c f h H). Qed.

Lemma bop_mat_vec (g : R -> R -> option R) (r c : nat)
    (a : nat -> nat -> R) (v : nat -> R) (h : nat -> nat -> R) :
  (0 < r)%nat -> (0 < c)%nat ->
  (forall i j, (i < r)%nat -> (j < c)%nat -> g (a i j) (v j) = Some (h i j)) ->
  bop g (Mat (mat_tab r c a)) (Vec (tabulate c v))
  = Some (Mat (mat_tab r c h)).
Proof.
  intros Hr Hc H. simpl. unfold bmat.
  rewrite !nrows_mat_tab, !ncols_mat_tab by exact Hr.
  unfold nrows, ncols. simpl. rewrite length_tabulate.
  rewrite bdim_1_r, bdim_same. simpl.
  rewrite (sequence_mat_tab _ _ _ h); [reflexivity|].
  intros i j Hi Hj. rewrite (bidx_lt _ _ Hi), (bidx_lt _ _ Hj).
  rewrite get_mat_tab by assumption.
  unfold get. simpl. rewrite nth_tabulate by exact Hj.
  apply H; assumption.
Qed.

Lemma rsum_tabulate_ext (n : nat) (f g : nat -> R) :
  (forall i, (i < n)%nat -> f i = g i) -> sum_n n f = sum_n n g.
Proof. intros H. unfold sum_n. rewrite (tabulate_ext n f g H). reflexivity. Qed.

Lemma fill_tabulate (n : nat) (x : R) : fill n x = tabulate n (fun _ => x).
Proof.
  unfold fill, tabulate. generalize O as s.
  induction n as [|n IH]; intros s; simpl; [reflexivity|].
  rewrite (IH (S s)). reflexivity.
Qed.

(** *** Evaluation at concrete inputs *)

Ltac sqrt_nonzero e :=
  assert (0 < sqrt e) by (apply sqrt_lt_R0; lra); lra.

Ltac decide_R :=
  match goal with
  | |- context [Req_dec_T (sqrt ?e) 0] =>
      destruct (Req_dec_T (sqrt e) 0); [exfalso; sqrt_nonzero e | ]
  | |- context [Req_dec_T ?a ?b] =>
      first [ destruct (Req_dec_T a b); [exfalso; lra | ]
            | destruct (Req_dec_T a b); [ | exfalso; lra] ]
  | |- context [Rlt_dec ?a ?b] =>
      first [ destruct (Rlt_dec a b); [exfalso; lra | ]
            | destruct (Rlt_dec a b); [ | exfalso; lra] ]
  end.

Ltac sqrt_one :=
  match goal with
  | |- context [sqrt ?e] => replace e with 1 by lra; rewrite sqrt_1
  end.

Ltac crunch :=
  repeat (cbn; unfold rdiv, rsqrt, rlog, chol_row;
          first [decide_R | sqrt_one]);
  cbn.

(** ** [stabilize] and the calls of [cholesky] *)

Lemma INR_pos_neq (n : nat) : (0 < n)%nat -> INR n <> 0.
Proof. intros H. apply not_0_INR. lia. Qed.

(** The value of [stabilize (K)] for an n by n matrix. *)
Lemma eval_stabilize (rho : env) (K : texp) (k : list (list R)) (n : nat) :
  eval rho K = Some (Mat k) -> rect n n k -> (0 < n)%nat ->
  eval rho (stabilize K) = Some (Mat (Spec.stabilized_entries n k)).
Proof.
  intros HK Hrect Hn. unfold stabilize. cbn [eval]. rewrite HK.
  cbn [obind shape0]. destruct Hrect as [Hrows Hcols].
  unfold nrows at 1 2. rewrite Hrows.
  cbn [div bop option_map]. unfold rdiv.
  destruct (Req_dec_T (INR n) 0) as [E|_];
    [exfalso; exact (INR_pos_neq n Hn E)|].
  cbn [option_map obind].
  change (mul (Scalar 1e-6) (Scalar (trace k / INR n)))
    with (Some (Scalar (1e-6 * (trace k / INR n)))).
  cbn [obind]. unfold mul, add, eye.
  rewrite (bop_scalar_mat rmul _ n n _
             (fun i j => 1e-6 * (trace k / INR n)
                         * (if (i =? j)%nat then 1 else 0)))
    by (intros; reflexivity).
  cbn [obind].
  rewrite (rect_eq_mat_tab n n k (conj Hrows Hcols)) at 1.
  rewrite (bop_mat_mat radd n n _ _
             (fun i j => get k i j + 1e-6 * (trace k / INR n)
                         * (if (i =? j)%nat then 1 else 0)) Hn)
    by (intros; reflexivity).
  reflexivity.
Qed.

Lemma Identity_plus_product_not_Stabilized (e : texp) :
  Spec.Identity_plus_product e -> ~ Spec.Stabilized e.
Proof.
  intros (n & B & A & ->) [K H]. unfold stabilize in H. discriminate.
Qed.

Lemma chol_between_refl (w : world) : Spec.chol_calls_between w w [].
Proof. unfold Spec.chol_calls_between. rewrite app_nil_r. reflexivity. Qed.

Lemma K_call_world K X Xs d w : snd (K_call K X Xs d w) = w.
Proof.
  unfold K_call, bind, lift, ret. destruct (call K X Xs d); reflexivity.
Qed.

Lemma Kn_call_world Kn X w : snd (Kn_call Kn X w) = w.
Proof. destruct Kn; [apply K_call_world | reflexivity]. Qed.

(** Running a kernel call inside a computation: either it raises and the
    state is unchanged, or it gives a tensor and the state is unchanged. *)
Lemma bind_K_call {A} K X Xs d (k : texp -> M A) w :
  (exists e, call K X Xs d = Raise e /\
             bind (K_call K X Xs d) k w = (Raise e, w)) \/
  (exists v, call K X Xs d = Ok v /\
             bind (K_call K X Xs d) k w = k (as_tensor_variable v) w).
Proof.
  unfold bind, K_call, lift, ret.
  destruct (call K X Xs d) as [v|e]; [right|left]; eauto.
Qed.

Lemma bind_Kn_call {A} Kn X (k : texp -> M A) w :
  (exists e, bind (Kn_call Kn X) k w = (Raise e, w)) \/
  (exists t, bind (Kn_call Kn X) k w = k t w).
Proof.
  destruct Kn as [K|f]; simpl.
  - destruct (bind_K_call K X None false k w) as [(e & _ & H)|(v & _ & H)];
      [left|right]; eauto.
  - right. exists (f X). reflexivity.
Qed.

Ltac step_K :=
  match goal with
  | |- context [bind (K_call ?K ?X ?Xs ?d) ?k ?w] =>
      let e := fresh "e" in let v := fresh "K" in let H := fresh "H" in
      let Hc := fresh "Hcall" in
      destruct (bind_K_call K X Xs d k w) as [(e & Hc & H)|(v & Hc & H)];
      rewrite H; clear H; cbn beta
  | |- context [bind (Kn_call ?Kn ?X) ?k ?w] =>
      let e := fresh "e" in let v := fresh "Kn" in let H := fresh "H" in
      destruct (bind_Kn_call Kn X k w) as [(e & H)|(v & H)];
      rewrite H; clear H; cbn beta
  end.

Ltac step_chol :=
  match goal with
  | |- context [bind (cholesky ?a) ?k ?w] =>
      change (bind (cholesky a) k w)
        with (k (TCholesky a)
                {| model_vars := model_vars w; info_log := info_log w;
                   chol_calls := chol_calls w ++ [a] |});
      cbn beta
  end.

Ltac solve_shape :=
  unfold Spec.Stabilized, Spec.Stabilized_plus_noise,
    Spec.Identity_plus_product;
  first [ eexists; reflexivity
        | do 2 eexists; reflexivity
        | do 3 eexists; reflexivity
        | left; eexists; reflexivity
        | right; do 3 eexists; reflexivity ].

Ltac done_calls :=
  unfold Spec.chol_calls_between; cbn [snd fst chol_calls ret raise];
  first
    [ exists (@nil texp);
      split; [ rewrite app_nil_r; reflexivity | constructor ]
    | eexists;
      split; [ rewrite <- ?app_assoc; reflexivity
             | repeat first [ apply Forall_cons | apply Forall_nil
                            | solve_shape ] ] ].

Ltac step_ret :=
  match goal with
  | |- context [bind (ret ?a) ?k ?w] =>
      change (bind (ret a) k w) with (k a w); cbn beta iota
  | |- context [bind (@raise ?T ?e) ?k ?w] =>
      change (bind (@raise T e) k w) with (@raise _ e w) at 1; cbn beta
  end.

Lemma bind_assoc {A B C} (c : M A) (k1 : A -> M B) (k2 : B -> M C) w :
  bind (bind c k1) k2 w = bind c (fun a => bind (k1 a) k2) w.
Proof. unfold bind. destruct (c w) as [[a|e] w']; reflexivity. Qed.

Ltac run_method :=
  repeat first [ rewrite bind_assoc | step_ret | step_K | step_chol ].

Lemma NonConj_prior_calls g w :
  exists new,
    Spec.chol_calls_between w (snd (GPFullNonConjugate_prior g w)) new /\
    Forall Spec.Stabilized new.
Proof.
  unfold GPFullNonConjugate_prior. run_method; done_calls.
Qed.

Lemma NonConj_conditional_calls g Xs v w :
  exists new,
    Spec.chol_calls_between w
      (snd (GPFullNonConjugate_conditional g Xs v w)) new /\
    Forall Spec.Stabilized new.
Proof.
  unfold GPFullNonConjugate_conditional.
  destruct (nc_v g); run_method; done_calls.
Qed.

Lemma NonConj_RV_calls g w :
  exists new,
    Spec.chol_calls_between w (snd (GPFullNonConjugate_RV g w)) new /\
    Forall Spec.Stabilized new.
Proof.
  unfold GPFullNonConjugate_RV.
  change (bind (register ?v) ?k w) with (k tt
    {| model_vars := model_vars w ++ [v]; info_log := info_log w;
       chol_calls := chol_calls w |}).
  cbn beta. run_method; done_calls.
Qed.

Lemma Full_prior_calls g obs_noise w :
  exists new,
    Spec.chol_calls_between w (snd (GPFullConjugate_prior g obs_noise w)) new
    /\ Forall Spec.Stabilized_plus_noise new.
Proof.
  unfold GPFullConjugate_prior. destruct obs_noise; run_method; done_calls.
Qed.

Lemma Full_conditional_calls g Xs y obs_noise w :
  exists new,
    Spec.chol_calls_between w
      (snd (GPFullConjugate_conditional g Xs y obs_noise w)) new /\
    Forall Spec.Stabilized_plus_noise new.
Proof.
  unfold GPFullConjugate_conditional.
  destruct obs_noise; run_method; done_calls.
Qed.

Lemma Full_logp_calls g y w :
  exists new,
    Spec.chol_calls_between w (snd (GPFullConjugate_logp g y w)) new /\
    Forall Spec.Stabilized_plus_noise new.
Proof.
  unfold GPFullConjugate_logp. run_method; done_calls.
Qed.

Lemma Sparse_prior_calls g obs_noise w :
  exists new,
    Spec.chol_calls_between w (snd (GPSparseConjugate_prior g obs_noise w))
      new /\
    Forall Spec.Stabilized new.
Proof.
  unfold GPSparseConjugate_prior. destruct obs_noise; run_method; done_calls.
Qed.

Lemma Sparse_conditional_calls g Xs y obs_noise w :
  exists new,
    Spec.chol_calls_between w
      (snd (GPSparseConjugate_conditional g Xs y obs_noise w)) new /\
    Forall (fun e => Spec.Stabilized e \/ Spec.Identity_plus_product e) new.
Proof.
  unfold GPSparseConjugate_conditional.
  destruct (String.eqb (sc_approx g) "FITC");
    [|destruct (String.eqb (sc_approx g) "VFE")];
    destruct obs_noise; run_method; done_calls.
Qed.

Lemma Sparse_logp_calls g y w :
  exists new,
    Spec.chol_calls_between w (snd (GPSparseConjugate_logp g y w)) new /\
    Forall (fun e => Spec.Stabilized e \/ Spec.Identity_plus_product e) new.
Proof.
  unfold GPSparseConjugate_logp.
  destruct (String.eqb (sc_approx g) "FITC");
    [|destruct (String.eqb (sc_approx g) "VFE")];
    run_method; done_calls.
Qed.

(** *** The arguments of [cholesky], by name *)

Lemma bind_K_call_ok {A} K X Xs d (k : texp -> M A) w t :
  Spec.kernel_at K X Xs d = Ok t -> bind (K_call K X Xs d) k w = k t w.
Proof.
  unfold Spec.kernel_at, bind, K_call, bind, lift, ret.
  destruct (call K X Xs d) as [v|e]; simpl; [|discriminate].
  intros H. injection H as <-. reflexivity.
Qed.

Lemma bind_Kn_call_ok {A} Kn X (k : texp -> M A) w t :
  Spec.noise_at Kn X = Ok t -> bind (Kn_call Kn X) k w = k t w.
Proof.
  destruct Kn as [K|f]; simpl.
  - apply bind_K_call_ok.
  - intros H. injection H as <-. reflexivity.
Qed.

Ltac step_ok :=
  match goal with
  | H : Spec.kernel_at ?K ?X ?Xs ?d = Ok ?t
    |- context [bind (K_call ?K ?X ?Xs ?d) ?k ?w] =>
      rewrite (bind_K_call_ok K X Xs d k w t H); cbn beta
  | H : Spec.noise_at ?Kn ?X = Ok ?t
    |- context [bind (Kn_call ?Kn ?X) ?k ?w] =>
      rewrite (bind_Kn_call_ok Kn X k w t H); cbn beta
  end.

Ltac run_exact :=
  repeat first [ rewrite bind_assoc | step_ret | step_ok | step_K
               | step_chol ].

Ltac done_exact :=
  unfold Spec.chol_calls_between; cbn [snd fst chol_calls ret raise];
  rewrite <- ?app_assoc; reflexivity.

Lemma NonConj_prior_exact g w :
  chol_calls (snd (GPFullNonConjugate_prior g w)) = chol_calls w.
Proof.
  unfold GPFullNonConjugate_prior. run_method; reflexivity.
Qed.

Lemma NonConj_conditional_exact g Xs v_kw w v Kxx Kxs Kss :
  nc_v g = Some v ->
  Spec.kernel_at (nc_K g) (nc_X g) None false = Ok Kxx ->
  Spec.kernel_at (nc_K g) (nc_X g) (Some Xs) false = Ok Kxs ->
  Spec.kernel_at (nc_K g) Xs None false = Ok Kss ->
  Spec.chol_calls_between w
    (snd (GPFullNonConjugate_conditional g Xs v_kw w)) [stabilize Kxx].
Proof.
  intros Hv Hxx Hxs Hss. unfold GPFullNonConjugate_conditional.
  rewrite Hv. run_exact; done_exact.
Qed.

Lemma NonConj_RV_exact g w Kxx :
  Spec.kernel_at (nc_K g) (nc_X g) None false = Ok Kxx ->
  Spec.chol_calls_between w (snd (GPFullNonConjugate_RV g w))
    [stabilize Kxx].
Proof.
  intros Hxx. unfold GPFullNonConjugate_RV.
  change (bind (register ?v) ?k w) with (k tt
    {| model_vars := model_vars w ++ [v]; info_log := info_log w;
       chol_calls := chol_calls w |}).
  cbn beta. cbn [nc_K nc_X nc_name nc_nf nc_m nc_mean nc_v].
  run_exact.
  change (bind (register ?v) ?k ?w0) with (k tt
    {| model_vars := model_vars w0 ++ [v]; info_log := info_log w0;
       chol_calls := chol_calls w0 |}).
  done_exact.
Qed.

Lemma Full_prior_exact g obs_noise w :
  chol_calls (snd (GPFullConjugate_prior g obs_noise w)) = chol_calls w.
Proof.
  unfold GPFullConjugate_prior. destruct obs_noise; run_method; reflexivity.
Qed.

Lemma Full_conditional_exact g Xs y obs_noise w Kxx Knx Kxs Kss :
  Spec.kernel_at (fc_K g) (fc_X g) None false = Ok Kxx ->
  Spec.noise_at (fc_Kn g) (fc_X g) = Ok Knx ->
  Spec.kernel_at (fc_K g) (fc_X g) (Some Xs) false = Ok Kxs ->
  Spec.kernel_at (fc_K g) Xs None false = Ok Kss ->
  Spec.chol_calls_between w
    (snd (GPFullConjugate_conditional g Xs y obs_noise w))
    [TAdd (stabilize Kxx) Knx].
Proof.
  intros Hxx Hnx Hxs Hss. unfold GPFullConjugate_conditional.
  destruct obs_noise; run_exact; done_exact.
Qed.

Lemma Full_logp_exact g y w Kxx Knx :
  Spec.kernel_at (fc_K g) (fc_X g) None false = Ok Kxx ->
  Spec.noise_at (fc_Kn g) (fc_X g) = Ok Knx ->
  Spec.chol_calls_between w (snd (GPFullConjugate_logp g y w))
    [TAdd (stabilize Kxx) Knx].
Proof.
  intros Hxx Hnx. unfold GPFullConjugate_logp. run_exact; done_exact.
Qed.

Lemma Sparse_prior_exact g obs_noise w Kuu Kuf :
  Spec.kernel_at (sc_K g) (sc_Xu g) None false = Ok Kuu ->
  Spec.kernel_at (sc_K g) (sc_Xu g) (Some (sc_X g)) false = Ok Kuf ->
  Spec.chol_calls_between w (snd (GPSparseConjugate_prior g obs_noise w))
    [stabilize Kuu].
Proof.
  intros Huu Huf. unfold GPSparseConjugate_prior.
  destruct obs_noise; run_exact; done_exact.
Qed.

Lemma Sparse_conditional_exact g Xs y obs_noise w Kuu Kuf Kffd :
  Spec.kernel_at (sc_K g) (sc_Xu g) None false = Ok Kuu ->
  Spec.kernel_at (sc_K g) (sc_Xu g) (Some (sc_X g)) false = Ok Kuf ->
  (sc_approx g = "FITC"%string /\
   Spec.kernel_at (sc_K g) (sc_X g) None true = Ok Kffd) \/
  sc_approx g = "VFE"%string ->
  Spec.chol_calls_between w
    (snd (GPSparseConjugate_conditional g Xs y obs_noise w))
    [stabilize Kuu;
     Spec.sparse_B (sc_nu g) (Spec.sparse_A Kuu Kuf)
       (Spec.sparse_Lamd (sc_approx g) (sc_sigma2 g) Kffd
          (Spec.sparse_A Kuu Kuf))].
Proof.
  intros Huu Huf Ha. unfold GPSparseConjugate_conditional, Spec.sparse_Lamd.
  destruct Ha as [[Ha Hffd]|Ha]; rewrite Ha;
    cbn [String.eqb Ascii.eqb Bool.eqb];
    destruct obs_noise; run_exact; done_exact.
Qed.

Lemma Sparse_logp_exact g y w Kuu Kuf Kffd :
  Spec.kernel_at (sc_K g) (sc_Xu g) (Some (sc_Xu g)) false = Ok Kuu ->
  Spec.kernel_at (sc_K g) (sc_Xu g) (Some (sc_X g)) false = Ok Kuf ->
  Spec.kernel_at (sc_K g) (sc_X g) None true = Ok Kffd ->
  sc_approx g = "FITC"%string \/ sc_approx g = "VFE"%string ->
  Spec.chol_calls_between w (snd (GPSparseConjugate_logp g y w))
    [stabilize Kuu;
     Spec.sparse_B (sc_nu g) (Spec.sparse_A Kuu Kuf)
       (Spec.sparse_Lamd (sc_approx g) (sc_sigma2 g) Kffd
          (Spec.sparse_A Kuu Kuf))].
Proof.
  intros Huu Huf Hffd Ha. unfold GPSparseConjugate_logp, Spec.sparse_Lamd.
  destruct Ha as [Ha|Ha]; rewrite Ha;
    cbn [String.eqb Ascii.eqb Bool.eqb];
    run_exact; done_exact.
Qed.

(** C3 (amended). [stabilize (K)] has the value [K + 1e-6 * (trace (K) /
    n) * I] for an n by n matrix [K].  The arguments of [cholesky], when
    the kernel calls before them succeed, are these and no others, in
    this order.  Non-conjugate variant: [prior] makes no factorisation;
    [conditional] and [RV] factor [stabilize (K (X))].  Full conjugate
    variant: [prior] makes none; [conditional] and [logp] factor
    [stabilize (K (X)) + Kn (X)], the noise being added after the
    stabilisation.  Sparse conjugate variant: [prior] factors
    [stabilize (K (Xu))]; [conditional] and [logp] factor
    [stabilize (K (Xu))] first and then
    [eye (nu) + dot (A / Lamd, transpose (A))], to which [stabilize] is
    not applied, where [A = solve_lower (cholesky (stabilize (K (Xu))),
    K (Xu, X))] and [Lamd] is the effective noise of the approximation.
    Whatever the kernel calls do, every argument has the shape named
    for its variant, and a matrix of the second sparse shape is not
    [stabilize] of anything. *)
Theorem stabilize_and_cholesky_arguments :
  (forall rho K k n,
     eval rho K = Some (Mat k) -> rect n n k -> (0 < n)%nat ->
     eval rho (stabilize K) = Some (Mat (Spec.stabilized_entries n k))) /\
  (* the non-conjugate variant *)
  (forall g w,
     chol_calls (snd (GPFullNonConjugate_prior g w)) = chol_calls w) /\
  (forall g Xs v_kw w v Kxx Kxs Kss,
     nc_v g = Some v ->
     Spec.kernel_at (nc_K g) (nc_X g) None false = Ok Kxx ->
     Spec.kernel_at (nc_K g) (nc_X g) (Some Xs) false = Ok Kxs ->
     Spec.kernel_at (nc_K g) Xs None false = Ok Kss ->
     Spec.chol_calls_between w
       (snd (GPFullNonConjugate_conditional g Xs v_kw w)) [stabilize Kxx]) /\
  (forall g w Kxx,
     Spec.kernel_at (nc_K g) (nc_X g) None false = Ok Kxx ->
     Spec.chol_calls_between w (snd (GPFullNonConjugate_RV g w))
       [stabilize Kxx]) /\
  (* the full conjugate variant *)
  (forall g obs_noise w,
     chol_calls (snd (GPFullConjugate_prior g obs_noise w)) = chol_calls w) /\
  (forall g Xs y obs_noise w Kxx Knx Kxs Kss,
     Spec.kernel_at (fc_K g) (fc_X g) None false = Ok Kxx ->
     Spec.noise_at (fc_Kn g) (fc_X g) = Ok Knx ->
     Spec.kernel_at (fc_K g) (fc_X g) (Some Xs) false = Ok Kxs ->
     Spec.kernel_at (fc_K g) Xs None false = Ok Kss ->
     Spec.chol_calls_between w
       (snd (GPFullConjugate_conditional g Xs y obs_noise w))
       [TAdd (stabilize Kxx) Knx]) /\
  (forall g y w Kxx Knx,
     Spec.kernel_at (fc_K g) (fc_X g) None false = Ok Kxx ->
     Spec.noise_at (fc_Kn g) (fc_X g) = Ok Knx ->
     Spec.chol_calls_between w (snd (GPFullConjugate_logp g y w))
       [TAdd (stabilize Kxx) Knx]) /\
  (* the sparse conjugate variant *)
  (forall g obs_noise w Kuu Kuf,
     Spec.kernel_at (sc_K g) (sc_Xu g) None false = Ok Kuu ->
     Spec.kernel_at (sc_K g) (sc_Xu g) (Some (sc_X g)) false = Ok Kuf ->
     Spec.chol_calls_between w (snd (GPSparseConjugate_prior g obs_noise w))
       [stabilize Kuu]) /\
  (forall g Xs y obs_noise w Kuu Kuf Kffd,
     Spec.kernel_at (sc_K g) (sc_Xu g) None false = Ok Kuu ->
     Spec.kernel_at (sc_K g) (sc_Xu g) (Some (sc_X g)) false = Ok Kuf ->
     (sc_approx g = "FITC"%string /\
      Spec.kernel_at (sc_K g) (sc_X g) None true = Ok Kffd) \/
     sc_approx g = "VFE"%string ->
     Spec.chol_calls_between w
       (snd (GPSparseConjugate_conditional g Xs y obs_noise w))
       [stabilize Kuu;
        Spec.sparse_B (sc_nu g) (Spec.sparse_A Kuu Kuf)
          (Spec.sparse_Lamd (sc_approx g) (sc_sigma2 g) Kffd
             (Spec.sparse_A Kuu Kuf))]) /\
  (forall g y w Kuu Kuf Kffd,
     Spec.kernel_at (sc_K g) (sc_Xu g) (Some (sc_Xu g)) false = Ok Kuu ->
     Spec.kernel_at (sc_K g) (sc_Xu g) (Some (sc_X g)) false = Ok Kuf ->
     Spec.kernel_at (sc_K g) (sc_X g) None true = Ok Kffd ->
     sc_approx g = "FITC"%string \/ sc_approx g = "VFE"%string ->
     Spec.chol_calls_between w (snd (GPSparseConjugate_logp g y w))
       [stabilize Kuu;
        Spec.sparse_B (sc_nu g) (Spec.sparse_A Kuu Kuf)
          (Spec.sparse_Lamd (sc_approx g) (sc_sigma2 g) Kffd
             (Spec.sparse_A Kuu Kuf))]) /\
  (* whatever the kernel calls do *)
  (forall g Xs v w, exists new,
     Spec.chol_calls_between w
       (snd (GPFullNonConjugate_conditional g Xs v w)) new /\
     Forall Spec.Stabilized new) /\
  (forall g w, exists new,
     Spec.chol_calls_between w (snd (GPFullNonConjugate_RV g w)) new /\
     Forall Spec.Stabilized new) /\
  (forall g Xs y obs_noise w, exists new,
     Spec.chol_calls_between w
       (snd (GPFullConjugate_conditional g Xs y obs_noise w)) new /\
     Forall Spec.Stabilized_plus_noise new) /\
  (forall g y w, exists new,
     Spec.chol_calls_between w (snd (GPFullConjugate_logp g y w)) new /\
     Forall Spec.Stabilized_plus_noise new) /\
  (forall g obs_noise w, exists new,
     Spec.chol_calls_between w (snd (GPSparseConjugate_prior g obs_noise w))
       new /\
     Forall Spec.Stabilized new) /\
  (forall g Xs y obs_noise w, exists new,
     Spec.chol_calls_between w
       (snd (GPSparseConjugate_conditional g Xs y obs_noise w)) new /\
     Forall (fun e => Spec.Stabilized e \/ Spec.Identity_plus_product e) new)
  /\
  (forall g y w, exists new,
     Spec.chol_calls_between w (snd (GPSparseConjugate_logp g y w)) new /\
     Forall (fun e => Spec.Stabilized e \/ Spec.Identity_plus_product e) new)
  /\
  (forall e, Spec.Identity_plus_product e -> ~ Spec.Stabilized e).
Proof.
  split; [exact eval_stabilize|].
  split; [exact NonConj_prior_exact|].
  split; [exact NonConj_conditional_exact|].
  split; [exact NonConj_RV_exact|].
  split; [exact Full_prior_exact|].
  split; [exact Full_conditional_exact|].
  split; [exact Full_logp_exact|].
  split; [exact Sparse_prior_exact|].
  split; [exact Sparse_conditional_exact|].
  split; [exact Sparse_logp_exact|].
  split; [exact NonConj_conditional_calls|].
  split; [exact NonConj_RV_calls|].
  split; [exact Full_conditional_calls|].
  split; [exact Full_logp_calls|].
  split; [exact Sparse_prior_calls|].
  split; [exact Sparse_conditional_calls|].
  split; [exact Sparse_logp_calls|].
  exact Identity_plus_product_not_Stabilized.
Qed.

(** [stabilize] of the 1 by 1 matrix 2; the two factorisations of the
    sparse conjugate [logp] and the one of the full conjugate [logp], at
    one training input. *)
Lemma stabilize_and_cholesky_arguments_witness :
  (eval Instances.point0 (stabilize (TArr (Mat [[2]])))
   = Some (Mat (Spec.stabilized_entries 1 [[2]])) /\
   Spec.stabilized_entries 1 [[2]] = [[2 + 1e-6 * ((2 + 0) / 1) * 1]]) /\
  (let Kuu := Linear_full Instances.base1 (TConst 0) (TArr (Mat [[1]]))
                (Some (TArr (Mat [[1]]))) in
   let Kuf := Linear_full Instances.base1 (TConst 0) (TArr (Mat [[1]]))
                (Some (TArr (Mat [[0]]))) in
   let Kffd := Linear_diag Instances.base1 (TConst 0) (TArr (Mat [[0]])) in
   let A := TSolveLower (TCholesky (stabilize Kuu)) Kuf in
   chol_calls (snd (GPSparseConjugate_logp (Instances.sparse1 "FITC")
                      (TArr (Vec [0])) world0))
   = [stabilize Kuu;
      TAdd (TEye (TShape0 (TArr (Mat [[1]]))))
        (TDot (TDiv A (Spec.Lamd_FITC (TSquare (TConst 1)) Kffd
                         (TSum (TMul A A) (Some 0%nat))))
              (TTranspose A))]) /\
  chol_calls (snd (GPFullConjugate_logp Instances.full1 Instances.y1 world0))
  = [TAdd (stabilize Instances.Kxx1) Instances.Knx1].
Proof.
  destruct stabilize_and_cholesky_arguments
    as (Hs & _ & _ & _ & _ & _ & Hfl & _ & _ & Hsl & _).
  split; [split; [|reflexivity]|split].
  - apply Hs.
    + reflexivity.
    + split; [reflexivity|]. repeat constructor.
    + lia.
  - exact (Hsl (Instances.sparse1 "FITC") (TArr (Vec [0])) world0 _ _ _
             eq_refl eq_refl eq_refl (or_introl eq_refl)).
  - exact (Hfl Instances.full1 Instances.y1 world0 _ _ eq_refl eq_refl).
Defined.

(** The sparse conjugate [logp] passes [eye (nu) + dot (A_l,
    transpose (A))] to [cholesky]; it is not [stabilize] of anything. *)
Lemma cholesky_of_unstabilized_matrix :
  exists new,
    Spec.chol_calls_between world0
      (snd (GPSparseConjugate_logp (Instances.sparse1 "VFE")
              (TArr (Vec [0])) world0)) new /\
    length new = 2%nat /\
    ~ Forall Spec.Stabilized new.
Proof.
  eexists. split; [|split].
  - unfold Spec.chol_calls_between, GPSparseConjugate_logp, bind, K_call,
      bind, lift, ret, cholesky. simpl. reflexivity.
  - reflexivity.
  - intros H. inversion H as [|a l _ H2]; subst.
    inversion H2 as [|b l' [K HK] _]; subst.
    unfold stabilize in HK. discriminate.
Qed.

(** ** The conditional of the full conjugate variant *)

Lemma bdim_comm (n m : nat) : bdim n m = bdim m n.
Proof.
  unfold bdim.
  destruct (Nat.eqb_spec n m), (Nat.eqb_spec m n), (Nat.eqb_spec n 1),
    (Nat.eqb_spec m 1); subst; try reflexivity; try lia.
Qed.

Section Commutative.
Variable f : R -> R -> option R.
Hypothesis f_comm : forall x y, f x y = f y x.

Lemma bvec_comm (u v : list R) : bvec f u v = bvec f v u.
Proof.
  unfold bvec. rewrite (bdim_comm (length u) (length v)).
  destruct (bdim (length v) (length u)); [|reflexivity]. simpl.
  f_equal. apply tabulate_ext. intros i _. apply f_comm.
Qed.

Lemma bmat_comm (a b : list (list R)) : bmat f a b = bmat f b a.
Proof.
  unfold bmat. rewrite (bdim_comm (nrows a) (nrows b)).
  destruct (bdim (nrows b) (nrows a)); [|reflexivity]. simpl.
  rewrite (bdim_comm (ncols a) (ncols b)).
  destruct (bdim (ncols b) (ncols a)); [|reflexivity]. simpl.
  f_equal. apply tabulate_ext. intros i _. f_equal.
  apply tabulate_ext. intros j _. apply f_comm.
Qed.

Lemma bop_comm (a b : ndarray) : bop f a b = bop f b a.
Proof.
  destruct a as [x|u|m], b as [y|v|m']; simpl.
  - rewrite f_comm. reflexivity.
  - do 2 f_equal. apply map_ext. intros; apply f_comm.
  - do 2 f_equal. apply map_ext. intros row. f_equal.
    apply map_ext. intros; apply f_comm.
  - do 2 f_equal. apply map_ext. intros; apply f_comm.
  - rewrite bvec_comm. reflexivity.
  - rewrite bmat_comm. reflexivity.
  - do 2 f_equal. apply map_ext. intros row. f_equal.
    apply map_ext. intros; apply f_comm.
  - rewrite bmat_comm. reflexivity.
  - rewrite bmat_comm. reflexivity.
Qed.
End Commutative.

Lemma eval_TAdd_comm (rho : env) (a b : texp) :
  eval rho (TAdd a b) = eval rho (TAdd b a).
Proof.
  cbn [eval]. destruct (eval rho a) as [x|], (eval rho b) as [y|];
    simpl; try reflexivity.
  apply bop_comm. intros u v. unfold radd. f_equal. apply Rplus_comm.
Qed.

Lemma K_call_kernel_at K X Xs d w :
  K_call K X Xs d w = (Spec.kernel_at K X Xs d, w).
Proof.
  unfold K_call, Spec.kernel_at, bind, lift, ret.
  destruct (call K X Xs d); reflexivity.
Qed.

Lemma Kn_call_noise_at Kn X w : Kn_call Kn X w = (Spec.noise_at Kn X, w).
Proof. destruct Kn; [apply K_call_kernel_at | reflexivity]. Qed.

Lemma bind_eq {A B} (c : M A) (k : A -> M B) w a :
  c w = (Ok a, w) -> bind c k w = k a w.
Proof. intros H. unfold bind. rewrite H. reflexivity. Qed.

(** C1 (amended). When the kernel and the noise function give their
    matrices, [conditional (Xs, y, obs_noise)] of the full conjugate
    variant passes [stabilize (K (X, X)) + Kn (X)] to [cholesky], and
    with [L] the factor, [A = solve_lower (L, K (X, Xs))] and
    [V = solve_lower (L, y - mean (X))] it returns the mean
    [transpose (A) . V + mean (Xs)], equal in value to
    [mean (Xs) + transpose (A) . V], and the covariance
    [stabilize (K (Xs, Xs) - transpose (A) . A)], or
    [stabilize (Kn (Xs) + K (Xs, Xs) - transpose (A) . A)] when
    [obs_noise] is true: the covariance returned is stabilised. *)
Theorem full_conjugate_conditional :
  forall (self : GPFullConjugate) (Xs y : texp) (obs_noise : bool) (w : world)
         (Kxx Knx Kxs Kss Kns : texp),
    Spec.kernel_at (fc_K self) (fc_X self) None false = Ok Kxx ->
    Spec.noise_at (fc_Kn self) (fc_X self) = Ok Knx ->
    Spec.kernel_at (fc_K self) (fc_X self) (Some Xs) false = Ok Kxs ->
    Spec.kernel_at (fc_K self) Xs None false = Ok Kss ->
    Spec.noise_at (fc_Kn self) Xs = Ok Kns ->
    let L := Spec.fc_L Kxx Knx in
    let A := Spec.fc_A L Kxs in
    let V := Spec.fc_V L y (mean_call (fc_m self) (fc_X self)) in
    exists mean,
      GPFullConjugate_conditional self Xs y obs_noise w =
        (Ok (mean,
             stabilize (if obs_noise
                        then Spec.posterior_cov_noise Kns Kss A
                        else Spec.posterior_cov Kss A)),
         {| model_vars := model_vars w; info_log := info_log w;
            chol_calls := chol_calls w ++ [TAdd (stabilize Kxx) Knx] |}) /\
      mean = TAdd (TDot (TTranspose A) V) (mean_call (fc_m self) Xs) /\
      forall rho,
        eval rho mean =
        eval rho (Spec.posterior_mean (mean_call (fc_m self) Xs) A V).
Proof.
  intros self Xs y obs_noise w Kxx Knx Kxs Kss Kns Hxx Hnx Hxs Hss Hns L A V.
  eexists. split; [|split; [reflexivity|]].
  - unfold GPFullConjugate_conditional.
    rewrite (bind_eq _ _ w Kxx)
      by (rewrite K_call_kernel_at, Hxx; reflexivity).
    rewrite (bind_eq _ _ w Knx)
      by (rewrite Kn_call_noise_at, Hnx; reflexivity).
    rewrite (bind_eq _ _ w Kxs)
      by (rewrite K_call_kernel_at, Hxs; reflexivity).
    rewrite (bind_eq _ _ w Kss)
      by (rewrite K_call_kernel_at, Hss; reflexivity).
    unfold bind at 1. cbn [cholesky].
    destruct obs_noise.
    + rewrite bind_assoc.
      rewrite (bind_eq _ _ _ Kns)
        by (rewrite Kn_call_noise_at, Hns; reflexivity).
      reflexivity.
    + reflexivity.
  - intros rho. apply eval_TAdd_comm.
Qed.

(** The conditional of [full1] at one new input, with observation
    noise. *)
Lemma full_conjugate_conditional_witness :
  exists mean cov w',
    GPFullConjugate_conditional Instances.full1 Instances.Xs1 Instances.y1
      true world0 = (Ok (mean, cov), w') /\
    chol_calls w' = [TAdd (stabilize Instances.Kxx1) Instances.Knx1].
Proof.
  edestruct (full_conjugate_conditional Instances.full1 Instances.Xs1
               Instances.y1 true world0) as (mean & H & _);
    [reflexivity | reflexivity | reflexivity | reflexivity | reflexivity |].
  do 3 eexists. split; [exact H|]. reflexivity.
Defined.

(** At the training input 0 and the new input 1, with the linear kernel
    and unit noise, [K (Xs, Xs) - transpose (A) . A] is the matrix 1 and
    the covariance returned is the matrix 1.000001. *)
Lemma conditional_covariance_is_stabilized :
  exists mean cov w' c,
    GPFullConjugate_conditional Instances.full1 Instances.Xs1 Instances.y1
      false world0 = (Ok (mean, cov), w') /\
    eval Instances.point0 Instances.unstabilized_cov1 = Some (Mat [[1]]) /\
    eval Instances.point0 cov = Some (Mat [[c]]) /\
    c = 1 + 1e-6 /\
    eval Instances.point0 cov
    <> eval Instances.point0 Instances.unstabilized_cov1.
Proof.
  assert (Hclaim : eval Instances.point0 Instances.unstabilized_cov1
                   = Some (Mat [[1]])).
  { crunch. do 4 f_equal. lra. }
  assert (Hcode : exists c,
            eval Instances.point0 (stabilize Instances.unstabilized_cov1)
            = Some (Mat [[c]]) /\ c = 1 + 1e-6).
  { rewrite (eval_stabilize _ _ [[1]] 1 Hclaim);
      [|split; [reflexivity | repeat constructor] | lia].
    eexists. split; [reflexivity|]. cbn. lra. }
  destruct Hcode as (c & Hc & Hv).
  eexists. exists (stabilize Instances.unstabilized_cov1). eexists.
  exists c.
  split.
  { unfold GPFullConjugate_conditional, bind, K_call, Kn_call, K_call, bind,
      lift, ret, cholesky. simpl. reflexivity. }
  split; [exact Hclaim|]. split; [exact Hc|].
  split; [exact Hv|].
  rewrite Hc, Hclaim. intros E. injection E as E. lra.
Qed.

(** ** The log density of the sparse conjugate variant *)

Lemma sequence_map_rlog (l : list R) :
  Forall (fun x => 0 < x) l -> sequence (map rlog l) = Some (map ln l).
Proof.
  intros H. apply sequence_map. intros x Hx.
  rewrite Forall_forall in H. specialize (H x Hx). unfold rlog.
  destruct (Rlt_dec 0 x); [reflexivity|contradiction].
Qed.

(** The value of the graph [-1.0 * (constant + logdet + quadratic +
    trace)] that [logp] builds, from the values of its parts. *)
Lemma eval_sparse_logp_graph (rho : env) (nf Lamd L_B r r_l c tr : texp)
    (n : R) (lam : list R) (lb : list (list R)) (rv rlv cv : list R) (t : R) :
  eval rho nf = Some (Scalar n) ->
  eval rho Lamd = Some (Vec lam) ->
  eval rho L_B = Some (Mat lb) ->
  eval rho r = Some (Vec rv) ->
  eval rho r_l = Some (Vec rlv) ->
  eval rho c = Some (Vec cv) ->
  eval rho tr = Some (Scalar t) ->
  Forall (fun x => 0 < x) lam ->
  Forall (fun x => 0 < x) (Spec.diagonal lb) ->
  length rv = length rlv ->
  eval rho
    (TMul (TConst (-1))
       (TAdd (TAdd (TAdd (TMul (TMul (TConst 0.5) nf) (TLog (TConst (2 * PI))))
                         (TAdd (TMul (TConst 0.5) (TSum (TLog Lamd) None))
                               (TSum (TLog (TDiag L_B)) None)))
                   (TMul (TConst 0.5) (TSub (TDot r r_l) (TDot c c))))
             tr))
  = Some (Scalar (Spec.sparse_logp_value n lam lb rv rlv cv t)).
Proof.
  intros Hn Hlam Hlb Hr Hrl Hc Ht Plam Plb Hlen.
  cbn [eval]. rewrite Hn, Hlam, Hlb, Hr, Hrl, Hc, Ht.
  cbn [obind uop diag option_map mul bop rmul].
  assert (Hpi : 0 < 2 * PI) by (pose proof PI_RGT_0; lra).
  unfold rlog at 1. destruct (Rlt_dec 0 (2 * PI)); [|contradiction].
  cbn [option_map obind].
  rewrite (sequence_map_rlog lam Plam).
  fold (Spec.diagonal lb). rewrite (sequence_map_rlog _ Plb).
  cbn [option_map obind Np.sum dot].
  rewrite Hlen, !Nat.eqb_refl.
  cbn [obind sub bop rsub option_map add radd mul rmul].
  do 2 f_equal. unfold Spec.sparse_logp_value, Spec.dotp.
  rewrite Hlen. lra.
Qed.

Lemma bop_vec_vec (f : R -> R -> option R) (g : R -> R -> R) (u v : list R) :
  (forall x y, f x y = Some (g x y)) ->
  length u = length v ->
  bop f (Vec u) (Vec v)
  = Some (Vec (tabulate (length u) (fun i => g (nth i u 0) (nth i v 0)))).
Proof.
  intros Hf H. simpl. unfold bvec. rewrite <- H, bdim_same. simpl.
  rewrite (sequence_tabulate _ _
             (fun i => g (nth i u 0) (nth i v 0))); [reflexivity|].
  intros i Hi. rewrite !bidx_lt by exact Hi. apply Hf.
Qed.

(** Under VFE the effective noise is [sigma^2] at every point. *)
Lemma eval_Lamd_VFE (rho : env) (sigma2 Qffd : texp) (s2 : R) (q : list R) :
  eval rho sigma2 = Some (Scalar s2) ->
  eval rho Qffd = Some (Vec q) ->
  eval rho (Spec.Lamd_VFE sigma2 Qffd) = Some (Vec (map (fun _ => 1 * s2) q)).
Proof.
  intros Hs Hq. unfold Spec.Lamd_VFE. cbn [eval]. rewrite Hs, Hq.
  cbn [obind ones_like mul bop]. unfold rmul.
  rewrite (sequence_map _ (fun x => x * s2)) by reflexivity.
  rewrite map_map. reflexivity.
Qed.

(** Under FITC it is [clip (K_diag (X) - Qffd, 0, inf) + sigma^2]. *)
Lemma eval_Lamd_FITC (rho : env) (sigma2 Kffd Qffd : texp) (s2 : R)
    (kf q : list R) :
  eval rho sigma2 = Some (Scalar s2) ->
  eval rho Kffd = Some (Vec kf) ->
  eval rho Qffd = Some (Vec q) ->
  length kf = length q ->
  eval rho (Spec.Lamd_FITC sigma2 Kffd Qffd)
  = Some (Vec (tabulate (length kf)
                 (fun i => Rmax (nth i kf 0 - nth i q 0) 0 + s2))).
Proof.
  intros Hs Hk Hq Hlen. unfold Spec.Lamd_FITC. cbn [eval].
  rewrite Hs, Hk, Hq. cbn [obind as_scalar]. unfold sub.
  rewrite (bop_vec_vec rsub Rminus kf q (fun _ _ => eq_refl) Hlen).
  cbn [obind].
  rewrite (uop_vec_tab (clip_lo 0) (length kf) _
             (fun i => Rmax (nth i kf 0 - nth i q 0) 0))
    by reflexivity.
  cbn [obind add bop]. unfold radd.
  rewrite (sequence_map _ (fun x => x + s2)) by reflexivity.
  rewrite map_tabulate. reflexivity.
Qed.

(** The trace term of VFE. *)
Lemma eval_trace_VFE (rho : env) (sigma2 Kffd Qffd : texp) (s2 : R)
    (kf q : list R) :
  eval rho sigma2 = Some (Scalar s2) ->
  eval rho Kffd = Some (Vec kf) ->
  eval rho Qffd = Some (Vec q) ->
  s2 <> 0 ->
  eval rho (Spec.trace_VFE sigma2 Kffd Qffd)
  = Some (Scalar (1 / (2 * s2) * (rsum kf - rsum q))).
Proof.
  intros Hs Hk Hq Hnz. unfold Spec.trace_VFE. cbn [eval].
  rewrite Hs, Hk, Hq. cbn [obind mul bop rmul option_map div].
  unfold rdiv. destruct (Req_dec_T (2 * s2) 0); [exfalso; lra|].
  reflexivity.
Qed.

(** C2. When the kernel gives its matrices and [approx] is FITC or VFE,
    [logp (y)] of the sparse conjugate variant returns a graph whose
    value is [-(0.5 n log (2 pi) + 0.5 sum (log Lamd) + sum (log (diag
    L_B)) + 0.5 (r . r_l - c . c) + trace_term)]; under FITC [Lamd] is
    [clip (K_diag (X) - Qffd, 0, inf) + sigma^2] and the trace term is 0;
    under VFE [Lamd] is [sigma^2] at every point and the trace term is
    [(1 / (2 sigma^2)) (sum K_diag (X) - sum Qffd)].  The two modes run
    the same statements on their [Lamd] and trace term, so the formula
    differs between them by the trace penalty alone. *)
Theorem sparse_conjugate_logp :
  forall (self : GPSparseConjugate) (y : texp) (w : world)
         (Kuu Kuf Kffd : texp),
    Spec.kernel_at (sc_K self) (sc_Xu self) (Some (sc_Xu self)) false
      = Ok Kuu ->
    Spec.kernel_at (sc_K self) (sc_Xu self) (Some (sc_X self)) false
      = Ok Kuf ->
    Spec.kernel_at (sc_K self) (sc_X self) None true = Ok Kffd ->
    (sc_approx self = "FITC" \/ sc_approx self = "VFE")%string ->
    let fitc := String.eqb (sc_approx self) "FITC" in
    let A := TSolveLower (TCholesky (stabilize Kuu)) Kuf in
    let Qffd := TSum (TMul A A) (Some 0%nat) in
    let Lamd := if fitc then Spec.Lamd_FITC (sc_sigma2 self) Kffd Qffd
                else Spec.Lamd_VFE (sc_sigma2 self) Qffd in
    let trace_term := if fitc then TConst 0
                      else Spec.trace_VFE (sc_sigma2 self) Kffd Qffd in
    let L_B := TCholesky (TAdd (TEye (sc_nu self))
                            (TDot (TDiv A Lamd) (TTranspose A))) in
    let r := TSub y (mean_call (sc_m self) (sc_X self)) in
    let r_l := TDiv r Lamd in
    let c := TSolveLower L_B (TDot A r_l) in
    exists e w',
      GPSparseConjugate_logp self y w = (Ok (VTensor e), w') /\
      (forall rho n lam lb rv rlv cv t,
         eval rho (sc_nf self) = Some (Scalar n) ->
         eval rho Lamd = Some (Vec lam) ->
         eval rho L_B = Some (Mat lb) ->
         eval rho r = Some (Vec rv) ->
         eval rho r_l = Some (Vec rlv) ->
         eval rho c = Some (Vec cv) ->
         eval rho trace_term = Some (Scalar t) ->
         Forall (fun x => 0 < x) lam ->
         Forall (fun x => 0 < x) (Spec.diagonal lb) ->
         length rv = length rlv ->
         eval rho e
         = Some (Scalar (Spec.sparse_logp_value n lam lb rv rlv cv t))) /\
      (forall rho s2 kf q,
         eval rho (sc_sigma2 self) = Some (Scalar s2) ->
         eval rho Kffd = Some (Vec kf) ->
         eval rho Qffd = Some (Vec q) ->
         length kf = length q ->
         if fitc
         then eval rho Lamd
              = Some (Vec (tabulate (length kf)
                             (fun i => Rmax (nth i kf 0 - nth i q 0) 0 + s2)))
              /\ eval rho trace_term = Some (Scalar 0)
         else eval rho Lamd = Some (Vec (map (fun _ => 1 * s2) q)) /\
              (s2 <> 0 ->
               eval rho trace_term
               = Some (Scalar (1 / (2 * s2) * (rsum kf - rsum q))))).
Proof.
  intros self y w Kuu Kuf Kffd Huu Huf Hffd Happrox
         fitc A Qffd Lamd trace_term L_B r r_l c.
  assert (Hrun : GPSparseConjugate_logp self y w =
    (Ok (VTensor
           (TMul (TConst (-1))
              (TAdd (TAdd (TAdd (TMul (TMul (TConst 0.5) (sc_nf self))
                                      (TLog (TConst (2 * PI))))
                                (TAdd (TMul (TConst 0.5)
                                         (TSum (TLog Lamd) None))
                                      (TSum (TLog (TDiag L_B)) None)))
                          (TMul (TConst 0.5)
                             (TSub (TDot r r_l) (TDot c c))))
                    trace_term))),
     {| model_vars := model_vars w; info_log := info_log w;
        chol_calls := (chol_calls w ++ [stabilize Kuu])
                      ++ [TAdd (TEye (sc_nu self))
                            (TDot (TDiv A Lamd) (TTranspose A))] |})).
  { unfold GPSparseConjugate_logp.
    rewrite (bind_eq _ _ w Kuu)
      by (rewrite K_call_kernel_at, Huu; reflexivity).
    rewrite (bind_eq _ _ w Kuf)
      by (rewrite K_call_kernel_at, Huf; reflexivity).
    step_chol.
    subst Lamd trace_term L_B r_l c. subst fitc.
    destruct Happrox as [E|E]; rewrite E; cbn [String.eqb Ascii.eqb
      Bool.eqb andb];
      rewrite bind_assoc;
      (rewrite (bind_eq _ _ _ Kffd)
         by (rewrite K_call_kernel_at, Hffd; reflexivity));
      step_ret; step_chol; reflexivity. }
  eexists _, _. split; [exact Hrun|]. split.
  - intros. apply eval_sparse_logp_graph; assumption.
  - intros rho s2 kf q Hs Hk Hq Hlen. subst Lamd trace_term.
    destruct fitc.
    + split; [apply eval_Lamd_FITC; assumption | reflexivity].
    + split; [apply eval_Lamd_VFE; assumption|].
      intros Hnz. apply eval_trace_VFE; assumption.
Qed.

(** [logp] of the sparse GP [sparse1] under VFE has a value. *)
Lemma sparse_conjugate_logp_witness :
  exists e w' v,
    GPSparseConjugate_logp (Instances.sparse1 "VFE") Instances.y1 world0
      = (Ok (VTensor e), w') /\
    eval Instances.point0 e = Some (Scalar v).
Proof.
  edestruct (sparse_conjugate_logp (Instances.sparse1 "VFE") Instances.y1
               world0) as (e & w' & Hrun & Hval & _);
    [reflexivity | reflexivity | reflexivity | right; reflexivity |].
  exists e, w'. eexists. split; [exact Hrun|].
  eapply Hval.
  - crunch. reflexivity.
  - crunch. reflexivity.
  - crunch. reflexivity.
  - crunch. reflexivity.
  - crunch. reflexivity.
  - crunch. reflexivity.
  - crunch. reflexivity.
  - repeat constructor. lra.
  - cbn. repeat constructor. lra.
  - reflexivity.
Defined.

(** ** Combinations evaluated with [diag=True] *)

Lemma merge_factor_diag (X : texp) (Xs : option texp) (f : factor) :
  merge_factor (fun k => call k X Xs true) true f = Spec.diag_operand X Xs f.
Proof.
  destruct f as [k|a|t|x]; simpl; try reflexivity.
  - destruct a; reflexivity.
  - rewrite andb_true_r. reflexivity.
Qed.

Lemma merge_factors_diag (fl : list factor) (X : texp) (Xs : option texp) :
  merge_factors fl X Xs true = Spec.mapM (Spec.diag_operand X Xs) fl.
Proof.
  induction fl as [|f fl IH]; simpl; [reflexivity|].
  rewrite merge_factor_diag, IH. reflexivity.
Qed.

Lemma call_Add (b : base) (fl : list factor) X Xs diag :
  call (Add b fl) X Xs diag =
  (vs <~ merge_factors fl X Xs diag ;; reduce py_add vs).
Proof.
  cbn [call]. f_equal. induction fl as [|f fl IH]; simpl; [reflexivity|].
  rewrite IH. reflexivity.
Qed.

Lemma call_Prod (b : base) (fl : list factor) X Xs diag :
  call (Prod b fl) X Xs diag =
  (vs <~ merge_factors fl X Xs diag ;; reduce py_mul vs).
Proof.
  cbn [call]. f_equal. induction fl as [|f fl IH]; simpl; [reflexivity|].
  rewrite IH. reflexivity.
Qed.

(** The value of [x + y] and [x * y] on Python values is NumPy's
    operation on the values of the operands. *)
Lemma eval_py_binop npop node (x y v : pyval) (rho : env) :
  (forall a b, eval rho (node a b) =
               (u <- eval rho a ;; w <- eval rho b ;; npop u w)) ->
  py_binop npop node x y = Ok v ->
  eval_val rho v =
  (a <- eval_val rho x ;; b <- eval_val rho y ;; npop a b).
Proof.
  intros Hnode. unfold py_binop, eval_val.
  destruct x as [a|a|s], y as [b|b|t]; simpl;
    try (intros H; injection H as <-; simpl; apply Hnode).
  - destruct (npop (Scalar a) (Scalar b)) as [[c|?|?]|]; try discriminate.
    intros H; injection H as <-. reflexivity.
  - destruct (npop (Scalar a) b) as [c|]; [|discriminate].
    intros H; injection H as <-. reflexivity.
  - destruct (npop a (Scalar b)) as [c|]; [|discriminate].
    intros H; injection H as <-. reflexivity.
  - destruct (npop a b) as [c|]; [|discriminate].
    intros H; injection H as <-. reflexivity.
Qed.

Lemma eval_reduce npop node (rho : env) :
  (forall a b, eval rho (node a b) =
               (u <- eval rho a ;; w <- eval rho b ;; npop u w)) ->
  forall vs v,
    reduce (py_binop npop node) vs = Ok v ->
    eval_val rho v = Spec.combine npop (map (eval_val rho) vs).
Proof.
  intros Hnode vs v. destruct vs as [|x vs]; [discriminate|].
  unfold reduce, Spec.combine. cbn [map].
  assert (G : forall (acc : result pyval) (o : option ndarray),
             (forall a, acc = Ok a -> eval_val rho a = o) ->
             fold_left (fun acc y => a <~ acc ;; py_binop npop node a y)
               vs acc = Ok v ->
             eval_val rho v =
             fold_left (fun acc y => a <- acc ;; b <- y ;; npop a b)
               (map (eval_val rho) vs) o).
  { induction vs as [|y vs IH]; intros acc o Hacc H; simpl in *.
    - apply Hacc. exact H.
    - refine (IH _ _ _ H). intros a Ha.
      destruct acc as [a0|e]; simpl in Ha; [|discriminate].
      rewrite (eval_py_binop npop node a0 y a rho Hnode Ha).
      rewrite (Hacc a0 eq_refl). reflexivity. }
  apply G. intros a Ha. injection Ha as <-. reflexivity.
Qed.

Lemma eval_TAdd_node rho a b :
  eval rho (TAdd a b) = (u <- eval rho a ;; w <- eval rho b ;; Np.add u w).
Proof. reflexivity. Qed.

Lemma eval_TMul_node rho a b :
  eval rho (TMul a b) = (u <- eval rho a ;; w <- eval rho b ;; Np.mul u w).
Proof. reflexivity. Qed.

(** *** Operands that differ off the diagonal *)

Lemma same_value_refl rho v : Spec.same_value rho v v.
Proof. destruct v; reflexivity. Qed.

Lemma same_result_refl rho r : Spec.same_result rho r r.
Proof. destruct r; simpl; [apply same_value_refl | reflexivity]. Qed.

Lemma same_value_eval rho v v' :
  Spec.same_value rho v v' ->
  eval rho (as_tensor_variable v) = eval rho (as_tensor_variable v').
Proof.
  destruct v, v'; simpl; intros H; try (inversion H; reflexivity);
    try discriminate; exact H.
Qed.

Lemma diag_operand_same X Xs rho f f' :
  Spec.same_diagonal f f' ->
  Spec.same_result rho (Spec.diag_operand X Xs f) (Spec.diag_operand X Xs f').
Proof.
  destruct f as [k|[?|?|m]|t|x], f' as [k'|[?|?|m']|t'|x']; simpl; intros H;
    try discriminate;
    try (injection H as <-;
         first [apply same_result_refl | apply same_value_refl | reflexivity]).
  - rewrite H. reflexivity.
  - destruct H as [<-|(H2 & H2' & He)]; [apply same_result_refl|].
    rewrite H2, H2'. simpl. apply He.
Qed.

Lemma py_binop_same npop node rho x x' y y' :
  (forall a b, eval rho (node a b) =
               (u <- eval rho a ;; w <- eval rho b ;; npop u w)) ->
  Spec.same_value rho x x' -> Spec.same_value rho y y' ->
  Spec.same_result rho (py_binop npop node x y) (py_binop npop node x' y').
Proof.
  intros Hnode Hx Hy.
  assert (Ex := same_value_eval rho x x' Hx).
  assert (Ey := same_value_eval rho y y' Hy).
  destruct x as [a|a|s], x' as [a'|a'|s']; simpl in Hx; try discriminate;
    try (injection Hx as <-);
    destruct y as [b|b|t], y' as [b'|b'|t']; simpl in Hy; try discriminate;
    try (injection Hy as <-);
    try apply same_result_refl;
    unfold py_binop; simpl; rewrite !Hnode; simpl in Ex, Ey;
    rewrite ?Ex, ?Ey; reflexivity.
Qed.

Lemma mapM_same X Xs rho fl fl' :
  Forall2 Spec.same_diagonal fl fl' ->
  match Spec.mapM (Spec.diag_operand X Xs) fl,
        Spec.mapM (Spec.diag_operand X Xs) fl' with
  | Ok vs, Ok vs' => Forall2 (Spec.same_value rho) vs vs'
  | Raise e, Raise e' => e = e'
  | _, _ => False
  end.
Proof.
  induction 1 as [|f f' fl fl' Hf _ IH]; simpl; [constructor|].
  pose proof (diag_operand_same X Xs rho f f' Hf) as Hd.
  destruct (Spec.diag_operand X Xs f) as [v|e],
           (Spec.diag_operand X Xs f') as [v'|e']; simpl in *;
    try contradiction; [|exact Hd].
  destruct (Spec.mapM _ fl) as [vs|e], (Spec.mapM _ fl') as [vs'|e'];
    simpl; try contradiction; [|exact IH].
  constructor; assumption.
Qed.

Lemma reduce_same npop node rho vs vs' :
  (forall a b, eval rho (node a b) =
               (u <- eval rho a ;; w <- eval rho b ;; npop u w)) ->
  Forall2 (Spec.same_value rho) vs vs' ->
  Spec.same_result rho (reduce (py_binop npop node) vs)
    (reduce (py_binop npop node) vs').
Proof.
  intros Hnode H. destruct H as [|x x' vs vs' Hx Hvs]; [reflexivity|].
  unfold reduce.
  assert (G : forall acc acc',
             Spec.same_result rho acc acc' ->
             Spec.same_result rho
               (fold_left (fun acc y => a <~ acc ;; py_binop npop node a y)
                  vs acc)
               (fold_left (fun acc y => a <~ acc ;; py_binop npop node a y)
                  vs' acc')).
  { induction Hvs as [|y y' vs vs' Hy _ IH]; intros acc acc' Hacc; simpl;
      [exact Hacc|].
    apply IH. destruct acc as [a|e], acc' as [a'|e']; simpl in *;
      try contradiction; [|exact Hacc].
    apply py_binop_same; assumption. }
  apply G. exact Hx.
Qed.

(** C4. A sum or product evaluated with [diag=True] reduces every operand
    to its diagonal before it combines them: a kernel is evaluated with
    [diag=True], a two-dimensional constant array is replaced by its
    diagonal and a two-dimensional tensor by [tt.diag] of it.  The value
    of the result is the operator folded over the values of these
    diagonals, and two combinations whose matrix operands differ only
    off the diagonal give the same result. *)
Theorem combination_diag :
  forall (b : base) (fl : list factor) (X : texp) (Xs : option texp),
    merge_factors fl X Xs true = Spec.mapM (Spec.diag_operand X Xs) fl /\
    call (Add b fl) X Xs true =
      (vs <~ Spec.mapM (Spec.diag_operand X Xs) fl ;; reduce py_add vs) /\
    call (Prod b fl) X Xs true =
      (vs <~ Spec.mapM (Spec.diag_operand X Xs) fl ;; reduce py_mul vs) /\
    (forall vs v rho,
       Spec.mapM (Spec.diag_operand X Xs) fl = Ok vs ->
       (call (Add b fl) X Xs true = Ok v ->
        eval_val rho v = Spec.combine Np.add (map (eval_val rho) vs)) /\
       (call (Prod b fl) X Xs true = Ok v ->
        eval_val rho v = Spec.combine Np.mul (map (eval_val rho) vs))) /\
    (forall b' fl' rho,
       Forall2 Spec.same_diagonal fl fl' ->
       Spec.same_result rho (call (Add b fl) X Xs true)
                            (call (Add b' fl') X Xs true) /\
       Spec.same_result rho (call (Prod b fl) X Xs true)
                            (call (Prod b' fl') X Xs true)).
Proof.
  intros b fl X Xs.
  split; [apply merge_factors_diag|].
  split; [rewrite call_Add, merge_factors_diag; reflexivity|].
  split; [rewrite call_Prod, merge_factors_diag; reflexivity|].
  split.
  - intros vs v rho Hvs. split; intros Hc.
    + rewrite call_Add, merge_factors_diag, Hvs in Hc. simpl in Hc.
      apply (eval_reduce Np.add TAdd rho (eval_TAdd_node rho) vs v Hc).
    + rewrite call_Prod, merge_factors_diag, Hvs in Hc. simpl in Hc.
      apply (eval_reduce Np.mul TMul rho (eval_TMul_node rho) vs v Hc).
  - intros b' fl' rho Hfl.
    pose proof (mapM_same X Xs rho fl fl' Hfl) as Hm.
    rewrite !call_Add, !call_Prod, !merge_factors_diag.
    destruct (Spec.mapM _ fl) as [vs|e], (Spec.mapM _ fl') as [vs'|e'];
      simpl; try contradiction; [|split; exact Hm].
    split.
    + apply (reduce_same Np.add TAdd rho vs vs' (eval_TAdd_node rho) Hm).
    + apply (reduce_same Np.mul TMul rho vs vs' (eval_TMul_node rho) Hm).
Qed.

(** The sums [sum_a] and [sum_b] differ off the diagonal of their
    constant matrix and give the same diagonal-only result. *)
Lemma combination_diag_witness :
  Spec.same_result Instances.point0
    (call (Add Instances.base1 Instances.sum_a) Instances.X2 None true)
    (call (Add Instances.base1 Instances.sum_b) Instances.X2 None true) /\
  exists v,
    call (Add Instances.base1 Instances.sum_a) Instances.X2 None true
      = Ok v /\
    eval_val Instances.point0 v =
    Spec.combine Np.add
      [eval Instances.point0
         (Linear_diag Instances.base1 (TConst 0) Instances.X2);
       Some (Vec [1; 4]); Some (Scalar 5)].
Proof.
  destruct (combination_diag Instances.base1 Instances.sum_a Instances.X2
              None) as (_ & _ & _ & Hval & Hsame).
  split.
  - apply Hsame. repeat constructor.
  - eexists. split; [reflexivity|].
    apply (proj1 (Hval
             [VTensor (Linear_diag Instances.base1 (TConst 0) Instances.X2);
              VArr (Vec [1; 4]); VNum 5]
             _ Instances.point0 eq_refl)).
    reflexivity.
Defined.

(** ** Stationary kernels on their diagonal *)

(** *** Bounds on the kernel formulas at the distance floor *)

Lemma exp_neg_bounds (a : R) : 0 <= a -> 1 - a <= exp (- a) <= 1.
Proof.
  intros Ha. split.
  - pose proof (exp_ineq1_le (- a)). lra.
  - destruct (Req_dec a 0) as [->|Hn].
    + rewrite Ropp_0, exp_0. lra.
    + rewrite <- exp_0. left. apply exp_increasing. lra.
Qed.

Lemma one_plus_exp_neg (a : R) : 0 <= a -> (1 + a) * exp (- a) <= 1.
Proof.
  intros Ha. rewrite exp_Ropp.
  pose proof (exp_ineq1_le a) as H1. pose proof (exp_pos a) as Hp.
  apply (Rmult_le_reg_r (exp a)); [exact Hp|].
  rewrite Rmult_assoc, Rinv_l by lra. lra.
Qed.

Lemma sqrt_floor : sqrt (0 + 1e-12) = 1e-6.
Proof.
  replace (0 + 1e-12) with (1e-6 * 1e-6) by lra. apply sqrt_square. lra.
Qed.








(** *** The squared distances *)

Lemma index_cols_rect (x : list (list R)) (n D : nat) (dims : list Z) :
  rect n D x ->
  Forall (fun i => norm_index D i <> None) dims ->
  exists xs, index_cols (Mat x) dims = Some (Mat xs) /\
             rect n (length dims) xs.
Proof.
  intros [Hn Hc] Hd. rewrite Forall_forall in Hc, Hd.
  set (idx := fun i => match norm_index D i with Some k => k | None => O end).
  exists (map (fun row => map (fun i => nth (idx i) row 0) dims) x).
  split.
  - unfold index_cols.
    rewrite (sequence_map _ (fun row => map (fun i => nth (idx i) row 0) dims));
      [reflexivity|].
    intros row Hrow. apply sequence_map. intros i Hi.
    rewrite (Hc row Hrow). unfold idx.
    destruct (norm_index D i) eqn:E; [reflexivity|].
    exfalso. exact (Hd i Hi E).
  - split; [rewrite length_map; exact Hn|].
    apply Forall_forall. intros row Hrow. apply in_map_iff in Hrow.
    destruct Hrow as (r0 & <- & _). apply length_map.
Qed.

Lemma eval_scaled (rho : env) (Xt ls : texp) (xs : list (list R))
    (n d : nat) :
  eval rho Xt = Some (Mat xs) -> rect n d xs -> (0 < n)%nat -> (0 < d)%nat ->
  ((exists l, eval rho ls = Some (Scalar l) /\ l <> 0) \/
   (exists lv, eval rho ls = Some (Vec lv) /\ length lv = d /\
               Forall (fun v => v <> 0) lv)) ->
  exists xd, eval rho (TMul Xt (TDiv (TConst 1) ls)) = Some (Mat xd) /\
             rect n d xd.
Proof.
  intros HX Hrect Hn Hd Hls. cbn [eval]. rewrite HX. cbn [obind].
  rewrite (rect_eq_mat_tab n d xs Hrect).
  destruct Hls as [(l & Hl & Hnz)|(lv & Hl & Hlen & Hnz)]; rewrite Hl;
    cbn [obind div bop option_map].
  - unfold rdiv. destruct (Req_dec_T l 0); [contradiction|].
    cbn [option_map obind]. unfold mul.
    rewrite (bop_mat_scalar rmul (1 / l) n d _
               (fun i j => get xs i j * (1 / l))) by reflexivity.
    eexists. split; [reflexivity | apply rect_mat_tab].
  - rewrite (sequence_map (rdiv 1) (fun v => 1 / v)).
    2:{ intros v Hv. rewrite Forall_forall in Hnz. unfold rdiv.
        destruct (Req_dec_T v 0) as [E|_]; [|reflexivity].
        exfalso. exact (Hnz v Hv E). }
    cbn [option_map obind]. unfold mul.
    rewrite (list_eq_tabulate 0 (map (fun v => 1 / v) lv)).
    rewrite length_map, Hlen.
    rewrite (bop_mat_vec rmul n d _ _
               (fun i j => get xs i j
                           * nth j (map (fun v => 1 / v) lv) 0) Hn Hd)
      by reflexivity.
    eexists. split; [reflexivity | apply rect_mat_tab].
Qed.

Lemma eval_sum_square (rho : env) (Xd : texp) (xd : list (list R))
    (n d : nat) :
  eval rho Xd = Some (Mat xd) -> rect n d xd ->
  eval rho (TSum (TSquare Xd) (Some 1%nat))
  = Some (Vec (tabulate n (fun i =>
                 sum_n d (fun k => get xd i k * get xd i k)))).
Proof.
  intros HX Hrect. cbn [eval]. rewrite HX. cbn [obind].
  rewrite (rect_eq_mat_tab n d xd Hrect) at 1.
  rewrite (uop_mat_tab _ n d _ (fun i j => get xd i j * get xd i j))
    by reflexivity.
  cbn [obind Np.sum]. unfold mat_tab. rewrite map_tabulate. reflexivity.
Qed.

Lemma reshape_col (n : nat) (f : nat -> R) :
  reshape (Vec (tabulate n f)) (-1, 1)%Z
  = Some (Mat (mat_tab n 1 (fun i _ => f i))).
Proof.
  unfold reshape. cbn [flat]. rewrite length_tabulate.
  change ((-1 =? -1)%Z) with true. change ((0 <? 1)%Z) with true.
  cbn iota. change (Z.to_nat 1) with 1%nat.
  rewrite Nat.div_1_r, Nat.mul_1_r, Nat.eqb_refl.
  do 2 f_equal. apply mat_tab_ext. intros i j Hi Hj.
  replace (i * 1 + j)%nat with i by lia. apply nth_tabulate. exact Hi.
Qed.

Lemma reshape_row (n : nat) (f : nat -> R) :
  reshape (Vec (tabulate n f)) (1, -1)%Z
  = Some (Mat (mat_tab 1 n (fun _ j => f j))).
Proof.
  unfold reshape. cbn [flat]. rewrite length_tabulate.
  change ((1 =? -1)%Z) with false. change ((-1 =? -1)%Z) with true.
  change ((0 <? 1)%Z) with true. cbn iota. change (Z.to_nat 1) with 1%nat.
  rewrite Nat.div_1_r, Nat.mul_1_l, Nat.eqb_refl.
  do 2 f_equal. apply mat_tab_ext. intros i j Hi Hj.
  replace (i * n + j)%nat with j by nia. apply nth_tabulate. exact Hj.
Qed.

Lemma transpose_rect (m : list (list R)) (r c : nat) :
  rect r c m -> (0 < r)%nat ->
  transpose m = mat_tab c r (fun i j => get m j i).
Proof.
  intros H Hr. unfold transpose. rewrite (rect_ncols r c m H Hr).
  destruct H as [Hrows _]. unfold nrows. rewrite Hrows. reflexivity.
Qed.

Lemma eval_dot_transpose (rho : env) (Xd Xsd : texp)
    (xd xsd : list (list R)) (n m d : nat) :
  eval rho Xd = Some (Mat xd) -> rect n d xd ->
  eval rho Xsd = Some (Mat xsd) -> rect m d xsd ->
  (0 < n)%nat -> (0 < m)%nat -> (0 < d)%nat ->
  eval rho (TDot Xd (TTranspose Xsd))
  = Some (Mat (mat_tab n m (fun i j =>
                 sum_n d (fun k => get xd i k * get xsd j k)))).
Proof.
  intros HX Hr HXs Hrs Hn Hm Hd. cbn [eval]. rewrite HX, HXs.
  cbn [obind dot]. rewrite (transpose_rect xsd m d Hrs Hm).
  rewrite (rect_ncols n d xd Hr Hn), nrows_mat_tab, Nat.eqb_refl.
  do 2 f_equal. unfold matmul.
  rewrite (rect_ncols n d xd Hr Hn), ncols_mat_tab by exact Hd.
  destruct Hr as [Hrows _]. unfold nrows. rewrite Hrows.
  apply mat_tab_ext. intros i j Hi Hj. apply rsum_tabulate_ext.
  intros k Hk. rewrite get_mat_tab by assumption. reflexivity.
Qed.

Lemma eval_square_dist (rho : env) (ls Xt : texp) (xd : list (list R))
    (n d : nat) (Xs : option texp) :
  eval rho (TMul Xt (TDiv (TConst 1) ls)) = Some (Mat xd) ->
  rect n d xd -> (0 < n)%nat -> (0 < d)%nat ->
  Xs = None \/ Xs = Some Xt ->
  eval rho (Stationary_square_dist ls Xt Xs)
  = Some (Mat (mat_tab n n (Spec.sqd_entry d xd))).
Proof.
  intros HX Hrect Hn Hd HXs.
  pose proof (eval_sum_square rho _ xd n d HX Hrect) as H2.
  pose proof (eval_dot_transpose rho _ _ xd xd n n d HX Hrect HX Hrect
                Hn Hn Hd) as Hdot.
  assert (Hcore :
    eval rho
      (TClip
         (TAdd (TMul (TConst (-2))
                  (TDot (TMul Xt (TDiv (TConst 1) ls))
                     (TTranspose (TMul Xt (TDiv (TConst 1) ls)))))
            (TAdd (TReshape (TSum (TSquare (TMul Xt (TDiv (TConst 1) ls)))
                               (Some 1%nat)) (-1, 1)%Z)
                  (TReshape (TSum (TSquare (TMul Xt (TDiv (TConst 1) ls)))
                               (Some 1%nat)) (1, -1)%Z)))
         (TConst 0) TInf)
    = Some (Mat (mat_tab n n (Spec.sqd_entry d xd)))).
  { cbn [eval] in *. rewrite Hdot, H2. cbn [obind as_scalar].
    rewrite reshape_col, reshape_row. cbn [obind]. unfold mul, add.
    rewrite (bop_scalar_mat rmul (-2) n n _
               (fun i j => -2 * sum_n d (fun k => get xd i k * get xd j k)))
      by reflexivity.
    rewrite (bop_col_row radd n n _ _
               (fun i j => sum_n d (fun k => get xd i k * get xd i k)
                           + sum_n d (fun k => get xd j k * get xd j k))
               Hn Hn) by reflexivity.
    cbn [obind].
    rewrite (bop_mat_mat radd n n _ _
               (fun i j =>
                  -2 * sum_n d (fun k => get xd i k * get xd j k)
                  + (sum_n d (fun k => get xd i k * get xd i k)
                     + sum_n d (fun k => get xd j k * get xd j k))) Hn)
      by reflexivity.
    cbn [obind].
    apply (uop_mat_tab (clip_lo 0) n n). reflexivity. }
  destruct HXs as [->| ->]; exact Hcore.
Qed.

Lemma sqd_entry_nonneg d xd i j : 0 <= Spec.sqd_entry d xd i j.
Proof. unfold Spec.sqd_entry. apply Rmax_r. Qed.

Lemma sqd_entry_diag d xd i : Spec.sqd_entry d xd i i = 0.
Proof.
  unfold Spec.sqd_entry.
  replace (-2 * sum_n d (fun k => get xd i k * get xd i k)
           + (sum_n d (fun k => get xd i k * get xd i k)
              + sum_n d (fun k => get xd i k * get xd i k))) with 0 by lra.
  apply Rmax_left. lra.
Qed.

Lemma eval_euclidean_dist (rho : env) (ls Xt : texp) (xd : list (list R))
    (n d : nat) (Xs : option texp) :
  eval rho (TMul Xt (TDiv (TConst 1) ls)) = Some (Mat xd) ->
  rect n d xd -> (0 < n)%nat -> (0 < d)%nat ->
  Xs = None \/ Xs = Some Xt ->
  eval rho (Stationary_euclidean_dist ls Xt Xs)
  = Some (Mat (mat_tab n n
                 (fun i j => sqrt (Spec.sqd_entry d xd i j + 1e-12)))).
Proof.
  intros HX Hrect Hn Hd HXs. unfold Stationary_euclidean_dist.
  cbn [eval].
  rewrite (eval_square_dist rho ls Xt xd n d Xs HX Hrect Hn Hd HXs).
  cbn [obind]. unfold add.
  rewrite (bop_mat_scalar radd 1e-12 n n _
             (fun i j => Spec.sqd_entry d xd i j + 1e-12)) by reflexivity.
  cbn [obind]. apply uop_mat_tab. intros i j _ _. unfold rsqrt.
  pose proof (sqd_entry_nonneg d xd i j).
  destruct (Rlt_dec (Spec.sqd_entry d xd i j + 1e-12) 0); [lra|reflexivity].
Qed.

(** *** The six kernels on a scaled input *)

Section Kernels.
Variables (rho : env) (ls Xt : texp) (xd : list (list R)) (n d : nat)
          (Xs : option texp).
Hypothesis HX : eval rho (TMul Xt (TDiv (TConst 1) ls)) = Some (Mat xd).
Hypothesis Hrect : rect n d xd.
Hypothesis Hn : (0 < n)%nat.
Hypothesis Hd : (0 < d)%nat.
Hypothesis HXs : Xs = None \/ Xs = Some Xt.

Let sq := Spec.sqd_entry d xd.
Let r := fun i j => sqrt (sq i j + 1e-12).

Lemma r_diag i : r i i = 1e-6.
Proof. unfold r, sq. rewrite sqd_entry_diag. apply sqrt_floor. Qed.

Lemma eval_ExpQuad :
  eval rho (TExp (TMul (TConst (-0.5)) (Stationary_square_dist ls Xt Xs)))
  = Some (Mat (mat_tab n n (fun i j => exp (-0.5 * sq i j)))).
Proof.
  cbn [eval].
  rewrite (eval_square_dist rho ls Xt xd n d Xs HX Hrect Hn Hd HXs).
  cbn [obind]. unfold mul.
  rewrite (bop_scalar_mat rmul (-0.5) n n _ (fun i j => -0.5 * sq i j))
    by reflexivity.
  cbn [obind]. apply uop_mat_tab. reflexivity.
Qed.

Lemma eval_RatQuad (alpha : texp) (a : R) :
  eval rho alpha = Some (Scalar a) -> 0 < a ->
  eval rho
    (TPow (TAdd (TConst 1)
             (TMul (TMul (TConst 0.5) (Stationary_square_dist ls Xt Xs))
                   (TDiv (TConst 1) alpha)))
          (TMul (TConst (-1)) alpha))
  = Some (Mat (mat_tab n n
                 (fun i j => Rpower (1 + 0.5 * sq i j * (1 / a))
                                    (-1 * a)))).
Proof.
  intros Ha Hpos. cbn [eval].
  rewrite (eval_square_dist rho ls Xt xd n d Xs HX Hrect Hn Hd HXs), Ha.
  cbn [obind div bop option_map]. unfold rdiv.
  destruct (Req_dec_T a 0); [lra|]. cbn [option_map obind].
  unfold mul, add, power.
  rewrite (bop_scalar_mat rmul 0.5 n n _ (fun i j => 0.5 * sq i j))
    by reflexivity.
  cbn [obind].
  rewrite (bop_mat_scalar rmul (1 / a) n n _
             (fun i j => 0.5 * sq i j * (1 / a))) by reflexivity.
  cbn [obind].
  rewrite (bop_scalar_mat radd 1 n n _
             (fun i j => 1 + 0.5 * sq i j * (1 / a))) by reflexivity.
  cbn [obind bop rmul option_map].
  apply (bop_mat_scalar rpow (-1 * a) n n). intros i j _ _.
  unfold rpow.
  assert (0 < 1 + 0.5 * sq i j * (1 / a)).
  { pose proof (sqd_entry_nonneg d xd i j) as Hs. fold sq in Hs.
    assert (0 < 1 / a) by (apply Rdiv_lt_0_compat; lra).
    assert (0 <= sq i j * (1 / a)) by (apply Rmult_le_pos; lra).
    lra. }
  destruct (Rlt_dec 0 (1 + 0.5 * sq i j * (1 / a))); [reflexivity|].
  contradiction.
Qed.

Lemma eval_Matern52 :
  eval rho
    (TMul (TAdd (TAdd (TConst 1)
                   (TMul (TConst (sqrt 5))
                      (Stationary_euclidean_dist ls Xt Xs)))
             (TMul (TConst (5 / 3))
                (TSquare (Stationary_euclidean_dist ls Xt Xs))))
          (TExp (TMul (TConst (-1 * sqrt 5))
                   (Stationary_euclidean_dist ls Xt Xs))))
  = Some (Mat (mat_tab n n
                 (fun i j => (1 + sqrt 5 * r i j + 5 / 3 * (r i j * r i j))
                             * exp (-1 * sqrt 5 * r i j)))).
Proof.
  cbn [eval].
  rewrite (eval_euclidean_dist rho ls Xt xd n d Xs HX Hrect Hn Hd HXs).
  cbn [obind]. unfold mul, add.
  rewrite (bop_scalar_mat rmul (sqrt 5) n n _ (fun i j => sqrt 5 * r i j))
    by reflexivity.
  cbn [obind].
  rewrite (bop_scalar_mat radd 1 n n _ (fun i j => 1 + sqrt 5 * r i j))
    by reflexivity.
  cbn [obind].
  rewrite (uop_mat_tab _ n n _ (fun i j => r i j * r i j)) by reflexivity.
  cbn [obind].
  rewrite (bop_scalar_mat rmul (5 / 3) n n _
             (fun i j => 5 / 3 * (r i j * r i j))) by reflexivity.
  cbn [obind].
  rewrite (bop_mat_mat radd n n _ _
             (fun i j => 1 + sqrt 5 * r i j + 5 / 3 * (r i j * r i j)) Hn)
    by reflexivity.
  cbn [obind].
  rewrite (bop_scalar_mat rmul (-1 * sqrt 5) n n _
             (fun i j => -1 * sqrt 5 * r i j)) by reflexivity.
  cbn [obind].
  rewrite (uop_mat_tab _ n n _ (fun i j => exp (-1 * sqrt 5 * r i j)))
    by reflexivity.
  cbn [obind].
  apply (bop_mat_mat rmul n n); [exact Hn | reflexivity].
Qed.

Lemma eval_Matern32 :
  eval rho
    (TMul (TAdd (TConst 1)
             (TMul (TConst (sqrt 3)) (Stationary_euclidean_dist ls Xt Xs)))
          (TExp (TMul (TConst (- sqrt 3))
                   (Stationary_euclidean_dist ls Xt Xs))))
  = Some (Mat (mat_tab n n
                 (fun i j => (1 + sqrt 3 * r i j)
                             * exp (- sqrt 3 * r i j)))).
Proof.
  cbn [eval].
  rewrite (eval_euclidean_dist rho ls Xt xd n d Xs HX Hrect Hn Hd HXs).
  cbn [obind]. unfold mul, add.
  rewrite (bop_scalar_mat rmul (sqrt 3) n n _ (fun i j => sqrt 3 * r i j))
    by reflexivity.
  cbn [obind].
  rewrite (bop_scalar_mat radd 1 n n _ (fun i j => 1 + sqrt 3 * r i j))
    by reflexivity.
  cbn [obind].
  rewrite (bop_scalar_mat rmul (- sqrt 3) n n _
             (fun i j => - sqrt 3 * r i j)) by reflexivity.
  cbn [obind].
  rewrite (uop_mat_tab _ n n _ (fun i j => exp (- sqrt 3 * r i j)))
    by reflexivity.
  cbn [obind].
  apply (bop_mat_mat rmul n n); [exact Hn | reflexivity].
Qed.

Lemma eval_Exponential :
  eval rho (TExp (TMul (TConst (-0.5))
                    (Stationary_euclidean_dist ls Xt Xs)))
  = Some (Mat (mat_tab n n (fun i j => exp (-0.5 * r i j)))).
Proof.
  cbn [eval].
  rewrite (eval_euclidean_dist rho ls Xt xd n d Xs HX Hrect Hn Hd HXs).
  cbn [obind]. unfold mul.
  rewrite (bop_scalar_mat rmul (-0.5) n n _ (fun i j => -0.5 * r i j))
    by reflexivity.
  cbn [obind]. apply uop_mat_tab. reflexivity.
Qed.

Lemma eval_Cosine :
  eval rho (TCos (TMul (TConst PI) (Stationary_euclidean_dist ls Xt Xs)))
  = Some (Mat (mat_tab n n (fun i j => cos (PI * r i j)))).
Proof.
  cbn [eval].
  rewrite (eval_euclidean_dist rho ls Xt xd n d Xs HX Hrect Hn Hd HXs).
  cbn [obind]. unfold mul.
  rewrite (bop_scalar_mat rmul PI n n _ (fun i j => PI * r i j))
    by reflexivity.
  cbn [obind]. apply uop_mat_tab. reflexivity.
Qed.

End Kernels.




(** ** Construction of the Gibbs kernel *)

Lemma Covariance_init_ok input_dim active_dims b :
  Covariance_init input_dim active_dims = Ok b ->
  Cov.input_dim b = input_dim.
Proof.
  unfold Covariance_init. destruct active_dims as [ad|].
  - destruct (Z.of_nat (length ad) =? input_dim)%Z; [|discriminate].
    intros H. injection H as <-. reflexivity.
  - intros H. injection H as <-. reflexivity.
Qed.

(** When [mk_Gibbs] succeeds: one input dimension, a callable
    lengthscale function, and active dimensions that are absent or a
    single entry different from 1. *)
Lemma mk_Gibbs_ok_iff input_dim lfunc args active_dims :
  (exists k, mk_Gibbs input_dim lfunc args active_dims = Ok k) <->
  (input_dim = 1%Z /\ lfunc <> NotCallable /\
   match active_dims with
   | None => True
   | Some ad => length ad = 1%nat /\ py_sum ad <> 1%Z
   end).
Proof.
  unfold mk_Gibbs, Covariance_init. split.
  - intros [k H]. destruct active_dims as [ad|]; simpl in H.
    + destruct (Z.eqb_spec (Z.of_nat (length ad)) input_dim) as [El|];
        [|discriminate]. simpl in H.
      destruct (Z.eqb_spec input_dim 1) as [E1|]; [|discriminate].
      destruct (Z.eqb_spec (py_sum ad) 1); [discriminate|]. simpl in H.
      destruct lfunc; [|discriminate].
      repeat split; try assumption; try discriminate. lia.
    + destruct (Z.eqb_spec input_dim 1) as [E1|]; [|discriminate].
      simpl in H. destruct lfunc; [|discriminate].
      repeat split; try assumption; discriminate.
  - intros (-> & Hc & Ha). destruct lfunc as [f|]; [|contradiction].
    destruct active_dims as [ad|]; simpl.
    + destruct Ha as [Hl Hs]. rewrite Hl. simpl.
      destruct (Z.eqb_spec (py_sum ad) 1); [contradiction|].
      simpl. eauto.
    + eauto.
Qed.

(** C7. Constructing a Gibbs kernel for one input dimension whose
    [active_dims] is the Boolean mask that selects this one dimension
    ([active_dims = [True]], an integer 1 for Python's [sum]) raises
    [NotImplementedError]: the guard tests [sum (active_dims) == 1] where
    it should reject everything else. *)
Theorem mk_Gibbs_single_active_dim_raises :
  forall (f : texp -> list texp -> texp) (args : option pyargs),
    mk_Gibbs 1 (Callable f) args (Some [1%Z]) = Raise NotImplementedError.
Proof. intros f args. reflexivity. Qed.

(** ** The constructor [GP] *)

Ltac break_match :=
  match goal with
  | |- context [match ?x with _ => _ end] => destruct x eqn:?
  end.

Lemma K_call_info_log K X Xs d w :
  info_log (snd (K_call K X Xs d w)) = info_log w.
Proof.
  unfold K_call, bind, lift, ret. destruct (call K X Xs d); reflexivity.
Qed.

Lemma RV_info_log self w :
  info_log (snd (GPFullNonConjugate_RV self w)) = info_log w.
Proof.
  unfold GPFullNonConjugate_RV, bind, register, cholesky, ret; simpl.
  unfold K_call, bind, lift, ret; simpl.
  destruct (call _ _ _ _); reflexivity.
Qed.

Section GP_facts.
Variables (Zero : Mean) (np_std0 : ndarray -> ndarray)
          (kmeans : ndarray -> Z -> result ndarray)
          (context : list string).

Lemma GP_info_log name X mean_func cov_func cov_func_noise sigma approx
    n_inducing inducing_points observed model w :
  info_log (snd (GP Zero np_std0 kmeans context name X mean_func cov_func
                   cov_func_noise sigma approx n_inducing inducing_points
                   observed model w)) = info_log w.
Proof.
  unfold GP, bind, lift.
  destruct (modelcontext context model); [|reflexivity].
  destruct mean_func as [[m|]|]; unfold ret, raise; simpl;
    try reflexivity;
    (destruct cov_func as [[k|]|]; simpl; try reflexivity;
     destruct observed as [obs|];
     [ | match goal with
         | |- context [GPFullNonConjugate_RV ?g w] =>
             pose proof (RV_info_log g w) as HR;
             destruct (GPFullNonConjugate_RV g w) as [[[f s]|e] w'];
             exact HR
         end ];
     destruct approx as [s|]; simpl;
     [ | destruct n_inducing, inducing_points, sigma, cov_func_noise;
         simpl; reflexivity ];
     destruct inducing_points as [ip|]; simpl;
     [ | destruct n_inducing as [n|]; simpl;
         [ destruct (kmeans_inducing np_std0 kmeans X n) as [[X' ip]|];
           simpl; [|reflexivity] | ] ];
     destruct (_ || _)%bool; simpl; try reflexivity;
     try (destruct n_inducing; simpl; try reflexivity);
     unfold GPSparseConjugate_init; destruct sigma; simpl; reflexivity).
Qed.

Lemma GP_approx_None_raises name X mean_func cov_func cov_func_noise sigma
    n_inducing inducing_points observed model w :
  is_None n_inducing && is_None inducing_points = false ->
  exists e,
    fst (GP Zero np_std0 kmeans context name X mean_func cov_func
           cov_func_noise sigma None n_inducing inducing_points
           (Some observed) model w) = Raise e /\
    (forall md, modelcontext context model = Ok md ->
     mean_func <> Some NotMean ->
     (exists k, cov_func = Some (IsCov k)) ->
     e = AttributeError).
Proof.
  intros Hn. unfold GP, bind, lift.
  destruct (modelcontext context model) as [md|e0].
  2:{ exists e0. split; [reflexivity|]. intros; discriminate. }
  destruct mean_func as [[m|]|]; unfold ret, raise; simpl.
  3:{ destruct cov_func as [[k|]|]; simpl.
      - rewrite Hn. simpl. exists AttributeError. split; auto.
      - exists GPValueError. split; auto. intros _ _ _ [k Hk]. discriminate.
      - exists GPValueError. split; auto. intros _ _ _ [k Hk]. discriminate. }
  2:{ exists GPValueError. split; auto. intros _ _ Hm. congruence. }
  destruct cov_func as [[k|]|]; simpl.
  - rewrite Hn. simpl. exists AttributeError. split; auto.
  - exists GPValueError. split; auto. intros _ _ _ [k Hk]. discriminate.
  - exists GPValueError. split; auto. intros _ _ _ [k Hk]. discriminate.
Qed.

Lemma GP_sparse_explicit_approx name X mean_func cov_func cov_func_noise
    sigma approx n_inducing inducing_points observed model w name' g obs :
  fst (GP Zero np_std0 kmeans context name X mean_func cov_func
         cov_func_noise sigma approx n_inducing inducing_points
         observed model w)
  = Ok (ObservedRV name' (GPDist (Sparse g)) obs) ->
  exists s, approx = Some s /\ sc_approx g = upper s /\
            (upper s = "VFE" \/ upper s = "FITC")%string.
Proof.
  unfold GP, bind, lift.
  destruct (modelcontext context model); [|discriminate].
  destruct mean_func as [[m|]|]; unfold ret, raise; simpl;
    try discriminate;
    (destruct cov_func as [[k|]|]; simpl; try discriminate;
     destruct observed as [o|];
     [ | destruct (GPFullNonConjugate_RV _ w) as [[[f s]|e] w'] eqn:E;
         simpl; try discriminate;
         unfold GPFullNonConjugate_RV, bind, register, cholesky, K_call,
           bind, lift, ret in E; simpl in E;
         destruct (call _ _ _ _); simpl in E; inversion E; discriminate ];
     destruct approx as [s|]; simpl;
     [ | destruct n_inducing, inducing_points, sigma, cov_func_noise;
         simpl; discriminate ];
     intros H; exists s; split; [reflexivity|];
     destruct inducing_points as [ip|]; simpl in H;
     [ | destruct n_inducing as [n|]; simpl in H;
         [ destruct (kmeans_inducing np_std0 kmeans X n) as [[X' ip]|];
           simpl in H; [|discriminate] | ] ];
     destruct (String.eqb_spec (upper s) "VFE") as [EV|];
     destruct (String.eqb_spec (upper s) "FITC") as [EF|];
     simpl in H; try discriminate;
     try (destruct n_inducing; simpl in H; try discriminate);
     unfold GPSparseConjugate_init in H; destruct sigma; simpl in H;
     try discriminate; inversion H; subst; simpl; auto).
Qed.

End GP_facts.

(** C9. With observed data, [approx] left as [None] and one of
    [n_inducing] and [inducing_points] given, the constructor raises
    (from [approx.upper ()] when the earlier checks pass); the line
    "Using VFE approximation" is never logged; and every sparse conjugate
    GP the constructor returns was given its [approx] argument. *)
Theorem GP_default_approx_unreachable :
  forall Zero np_std0 kmeans context name X mean_func cov_func
         cov_func_noise sigma approx n_inducing inducing_points observed
         model w,
    let r := GP Zero np_std0 kmeans context name X mean_func cov_func
               cov_func_noise sigma approx n_inducing inducing_points
               observed model w in
    (observed <> None -> approx = None ->
     n_inducing <> None \/ inducing_points <> None ->
     exists e, fst r = Raise e /\
       (forall md, modelcontext context model = Ok md ->
        mean_func <> Some NotMean ->
        (exists k, cov_func = Some (IsCov k)) ->
        e = AttributeError)) /\
    info_log (snd r) = info_log w /\
    (forall name' g obs,
       fst r = Ok (ObservedRV name' (GPDist (Sparse g)) obs) ->
       exists s, approx = Some s /\ sc_approx g = upper s /\
                 (upper s = "VFE" \/ upper s = "FITC")%string).
Proof.
  intros. subst r. split; [|split].
  - intros Ho -> Hi. destruct observed as [o|]; [|contradiction].
    apply GP_approx_None_raises.
    destruct n_inducing, inducing_points; simpl; try reflexivity.
    destruct Hi; contradiction.
  - apply GP_info_log.
  - intros. eapply GP_sparse_explicit_approx; eauto.
Qed.

(** The constructor at [approx=None] with inducing points given. *)
Lemma GP_default_approx_unreachable_witness :
  fst (GP Instances.Zero Instances.np_std0 Instances.kmeans
         Instances.context "f" (XArray Instances.X3) None
         (Some (IsCov Instances.k_expquad)) None (Some (TConst 1)) None None
         (Some Instances.Xu2) (Some Instances.y3) None world0)
  = Raise AttributeError.
Proof.
  destruct (GP_default_approx_unreachable Instances.Zero Instances.np_std0
              Instances.kmeans Instances.context "f" (XArray Instances.X3)
              None (Some (IsCov Instances.k_expquad)) None (Some (TConst 1))
              None None (Some Instances.Xu2) (Some Instances.y3) None world0)
    as [H _].
  destruct H as [e [He Hattr]].
  - discriminate.
  - reflexivity.
  - right. discriminate.
  - rewrite He. f_equal. apply (Hattr "model"%string).
    + reflexivity.
    + discriminate.
    + eexists. reflexivity.
Defined.

(** ** The log density of the non-conjugate variant *)

(** C10. [logp] of the non-conjugate variant is the method of [GPBase]
    (the class does not define one) and returns the float 0.0 for every
    [y]; the property [RV] declares one free variable, the standard
    normal rotation vector, and the GP value as a deterministic function
    of it. *)
Theorem nonconjugate_logp_zero :
  forall (g : GPFullNonConjugate) (y : texp) (w : world),
    logp (NonConj g) y w = (Ok (VNum 0), w) /\
    resolve cls_GPFullNonConjugate m_logp = Some cls_GPBase /\
    ~ In m_logp (defines cls_GPFullNonConjugate) /\
    (forall f g' w',
       GPFullNonConjugate_RV g w = (Ok (f, g'), w') ->
       exists Kxx,
         call (nc_K g) (nc_X g) None false = Ok Kxx /\
         model_vars w' =
           model_vars w ++
             [FreeRV (nc_name g ++ "_rotated_") (Normal 0 1) (nc_nf g); f] /\
         f = Deterministic (nc_name g)
               (TDot (TCholesky (stabilize (as_tensor_variable Kxx)))
                     (TVar (nc_name g ++ "_rotated_") 1))
               (Some (NonConj g')) /\
         logp (NonConj g') y w' = (Ok (VNum 0), w')).
Proof.
  intros g y w. repeat split.
  - simpl. intros [H|[H|[H|[H|[]]]]]; discriminate.
  - intros f g' w'.
    unfold GPFullNonConjugate_RV, bind, register, cholesky, K_call, bind,
      lift, ret; simpl.
    destruct (call (nc_K g) (nc_X g) None false) as [Kxx|e]; simpl;
      [|discriminate].
    intros H. inversion H; subst; clear H. exists Kxx.
    repeat split. rewrite <- app_assoc. reflexivity.
Qed.

(** The property [RV] of a non-conjugate GP over three points. *)
Lemma nonconjugate_logp_zero_witness :
  exists f g' w',
    GPFullNonConjugate_RV
      (GPFullNonConjugate_init "f" (TArr Instances.X3) Instances.Zero
         Instances.k_expquad) world0 = (Ok (f, g'), w') /\
    length (model_vars w') = 2%nat /\
    logp (NonConj g') Instances.y3 w' = (Ok (VNum 0), w').
Proof.
  eassert (E : GPFullNonConjugate_RV
                 (GPFullNonConjugate_init "f" (TArr Instances.X3)
                    Instances.Zero Instances.k_expquad) world0
               = (Ok (_, _), _))
    by (unfold GPFullNonConjugate_RV, bind, register, cholesky, K_call, bind,
          lift, ret; simpl; reflexivity).
  destruct (nonconjugate_logp_zero
              (GPFullNonConjugate_init "f" (TArr Instances.X3) Instances.Zero
                 Instances.k_expquad) Instances.y3 world0)
    as (_ & _ & _ & H).
  destruct (H _ _ _ E) as (Kxx & _ & Hv & _ & Hl).
  do 3 eexists. split; [exact E|].
  split; [rewrite Hv; reflexivity | exact Hl].
Defined.

(** ** Flattening of sums and products *)

Lemma fold_left_max_assoc a b c :
  Z.max (Z.max a b) c = Z.max a (Z.max b c).
Proof. lia. Qed.

Lemma add_base (k1 k2 : Covariance) :
  __add__ k1 (FCov k2) =
  Ok (Add {| input_dim := Z.max (input_dim (base_of k1))
                                (input_dim (base_of k2));
             active_dims := arange (Z.max (input_dim (base_of k1))
                                          (input_dim (base_of k2))) |}
          (Spec.terms k1 ++ Spec.terms k2)).
Proof.
  unfold __add__, Combination_init. simpl. rewrite app_nil_r.
  destruct k1, k2; reflexivity.
Qed.

Lemma mul_base (k1 k2 : Covariance) :
  exists b, __mul__ k1 (FCov k2) =
            Ok (Prod b (flatten_factor ClsProd (FCov k1)
                        ++ flatten_factor ClsProd (FCov k2))).
Proof.
  unfold __mul__, Combination_init. simpl. rewrite app_nil_r.
  eexists. reflexivity.
Qed.

(** C5. A sum built from operands merges the terms of the operands that
    are sums: [(k1 + k2) + k3] and [k1 + (k2 + k3)] are the same [Add]
    object, whose terms are those of [k1], [k2] and [k3] in order (three
    terms when none of them is a sum); a product inside a sum, and a sum
    inside a product, stay one nested term; so the two nestings evaluate
    to the same result on every input. *)
Theorem combination_flattening :
  forall k1 k2 k3 : Covariance,
    (exists b,
       Spec.left_nested k1 k2 k3 =
         Ok (Add b (Spec.terms k1 ++ Spec.terms k2 ++ Spec.terms k3)) /\
       Spec.right_nested k1 k2 k3 =
         Ok (Add b (Spec.terms k1 ++ Spec.terms k2 ++ Spec.terms k3)) /\
       (Spec.is_Add k1 = false -> Spec.is_Add k2 = false ->
        Spec.is_Add k3 = false ->
        Spec.left_nested k1 k2 k3 = Ok (Add b [FCov k1; FCov k2; FCov k3]))) /\
    (exists p b bp fl,
       __mul__ k1 (FCov k2) = Ok p /\ p = Prod bp fl /\
       Spec.product_in_sum k1 k2 k3 = Ok (Add b (FCov p :: Spec.terms k3))) /\
    (exists s b bs fl,
       __add__ k1 (FCov k2) = Ok s /\ s = Add bs fl /\
       Spec.sum_in_product k1 k2 k3 =
         Ok (Prod b (FCov s :: flatten_factor ClsProd (FCov k3)))) /\
    (forall l r X Xs diag,
       Spec.left_nested k1 k2 k3 = Ok l ->
       Spec.right_nested k1 k2 k3 = Ok r ->
       call l X Xs diag = call r X Xs diag).
Proof.
  intros k1 k2 k3.
  assert (HL : Spec.left_nested k1 k2 k3 =
    Ok (Add {| input_dim := Z.max (input_dim (base_of k1))
                 (Z.max (input_dim (base_of k2)) (input_dim (base_of k3)));
               active_dims := arange (Z.max (input_dim (base_of k1))
                 (Z.max (input_dim (base_of k2)) (input_dim (base_of k3)))) |}
            (Spec.terms k1 ++ Spec.terms k2 ++ Spec.terms k3))).
  { unfold Spec.left_nested. rewrite add_base. simpl. rewrite add_base.
    simpl. rewrite fold_left_max_assoc, <- app_assoc. reflexivity. }
  assert (HR : Spec.right_nested k1 k2 k3 =
    Ok (Add {| input_dim := Z.max (input_dim (base_of k1))
                 (Z.max (input_dim (base_of k2)) (input_dim (base_of k3)));
               active_dims := arange (Z.max (input_dim (base_of k1))
                 (Z.max (input_dim (base_of k2)) (input_dim (base_of k3)))) |}
            (Spec.terms k1 ++ Spec.terms k2 ++ Spec.terms k3))).
  { unfold Spec.right_nested. rewrite add_base. simpl. rewrite add_base.
    reflexivity. }
  split; [|split; [|split]].
  - eexists. split; [exact HL|]. split; [exact HR|].
    intros H1 H2 H3. rewrite HL.
    destruct k1; try discriminate; destruct k2; try discriminate;
      destruct k3; try discriminate; reflexivity.
  - destruct (mul_base k1 k2) as [bp Hp].
    eexists _, _, bp, _. split; [exact Hp|]. split; [reflexivity|].
    unfold Spec.product_in_sum. rewrite Hp. simpl. rewrite add_base.
    reflexivity.
  - eexists _, _, _, _. split; [apply add_base|]. split; [reflexivity|].
    unfold Spec.sum_in_product. rewrite add_base. simpl.
    unfold __mul__, Combination_init. simpl. rewrite app_nil_r. reflexivity.
  - intros l r X Xs diag Hl Hr. rewrite HL in Hl. rewrite HR in Hr.
    congruence.
Qed.

(** Three atomic kernels: both nestings are one sum of three terms. *)
Lemma combination_flattening_witness :
  exists b,
    Spec.left_nested Instances.k_expquad Instances.k_matern32
      Instances.k_linear
    = Ok (Add b [FCov Instances.k_expquad; FCov Instances.k_matern32;
                 FCov Instances.k_linear]) /\
    Spec.right_nested Instances.k_expquad Instances.k_matern32
      Instances.k_linear
    = Ok (Add b [FCov Instances.k_expquad; FCov Instances.k_matern32;
                 FCov Instances.k_linear]).
Proof.
  destruct (combination_flattening Instances.k_expquad Instances.k_matern32
              Instances.k_linear) as [[b (HL & HR & H3)] _].
  exists b. split.
  - apply H3; reflexivity.
  - exact HR.
Defined.

(** ** The trace indices of [sample_gp] *)

Lemma remove_nth_length {A} (j : nat) (l : list A) :
  (j < length l)%nat -> length (remove_nth j l) = pred (length l).
Proof.
  revert j. induction l as [|x l IH]; intros j Hj; simpl in *; [lia|].
  destruct j as [|j]; simpl; [reflexivity|].
  rewrite IH by lia. destruct l; simpl in *; lia.
Qed.

Lemma remove_nth_perm {A} (d : A) (j : nat) (l : list A) :
  (j < length l)%nat -> Permutation (nth j l d :: remove_nth j l) l.
Proof.
  revert j. induction l as [|x l IH]; intros j Hj; simpl in *; [lia|].
  destruct j as [|j]; [reflexivity|].
  etransitivity; [apply perm_swap|]. constructor. apply IH. lia.
Qed.

Lemma shuffle_perm (d : nat -> nat) (fuel : nat) :
  forall p l, length l = fuel -> Permutation (shuffle d p fuel l) l.
Proof.
  induction fuel as [|fuel IH]; intros p l Hl.
  - destruct l; [constructor|discriminate].
  - destruct l as [|x l']; [discriminate|].
    cbn [shuffle]. set (l := x :: l') in *.
    assert (Hj : (d p mod length l < length l)%nat)
      by (apply Nat.mod_upper_bound; subst l; simpl; lia).
    etransitivity; [|apply (remove_nth_perm O _ _ Hj)].
    constructor. apply IH. rewrite remove_nth_length by exact Hj. lia.
Qed.

Lemma permutation_perm (g : rng) (n : nat) :
  Permutation (fst (permutation g n)) (seq 0 n).
Proof. apply shuffle_perm. apply length_seq. Qed.

Lemma NoDup_firstn {A} (k : nat) (l : list A) : NoDup l -> NoDup (firstn k l).
Proof.
  intros H. rewrite <- (firstn_skipn k l) in H.
  apply NoDup_app_remove_r in H. exact H.
Qed.

Lemma choice_ok (g : rng) (n : nat) (size : Z) :
  (0 < n)%nat -> (0 <= size <= Z.of_nat n)%Z ->
  exists idx,
    fst (np_random_choice_noreplace g n size) = Ok idx /\
    NoDup idx /\ length idx = Z.to_nat size /\
    Forall (fun i => (i < n)%nat) idx.
Proof.
  intros Hn Hs. unfold np_random_choice_noreplace.
  destruct (Nat.eqb_spec n 0); [lia|].
  destruct (Z.ltb_spec size 0); [lia|].
  destruct (Z.ltb_spec (Z.of_nat n) size); [lia|].
  pose proof (permutation_perm g n) as HP.
  destruct (permutation g n) as [p g'] eqn:E. simpl in HP. simpl.
  exists (firstn (Z.to_nat size) p). split; [reflexivity|].
  assert (Hlen : length p = n)
    by (rewrite (Permutation_length HP); apply length_seq).
  split; [|split].
  - apply NoDup_firstn.
    apply (Permutation_NoDup (Permutation_sym HP)), seq_NoDup.
  - rewrite length_firstn. lia.
  - apply Forall_forall. intros i Hi.
    assert (Hp : In i p)
      by (rewrite <- (firstn_skipn (Z.to_nat size) p);
          apply in_or_app; left; exact Hi).
    apply (Permutation_in _ HP) in Hp. rename Hp into Hi'.
    clear Hi. rename Hi' into Hi. apply in_seq in Hi. lia.
Qed.




(** * Further properties of [cov.py] *)

(** ** Slicing by the active dimensions *)

Lemma sequence_None {A} (l : list (option A)) :
  In None l -> sequence l = None.
Proof.
  induction l as [|o l IH]; intros H; [contradiction|].
  destruct H as [->|H]; [reflexivity|].
  simpl. destruct o; [|reflexivity]. simpl. rewrite (IH H). reflexivity.
Qed.

Lemma norm_index_nat (D i : nat) :
  (i < D)%nat -> norm_index D (Z.of_nat i) = Some i.
Proof.
  intros H. unfold norm_index.
  destruct (Z.leb_spec 0 (Z.of_nat i)); [|lia].
  destruct (Z.ltb_spec (Z.of_nat i) (Z.of_nat D)); [|lia].
  simpl. rewrite Nat2Z.id. reflexivity.
Qed.

Lemma norm_index_out (D : nat) (i : Z) :
  (Z.of_nat D <= i)%Z -> norm_index D i = None.
Proof.
  intros H. unfold norm_index.
  destruct (Z.ltb_spec i (Z.of_nat D)); [lia|]. rewrite andb_false_r.
  destruct (Z.ltb_spec i 0); [lia|]. rewrite andb_false_r. reflexivity.
Qed.

Lemma index_cols_arange (x : list (list R)) (n D : nat) :
  rect n D x -> index_cols (Mat x) (arange (Z.of_nat D)) = Some (Mat x).
Proof.
  intros [Hn Hc]. rewrite Forall_forall in Hc. unfold index_cols, arange.
  rewrite Nat2Z.id.
  rewrite (sequence_map _ (fun row => row)); [rewrite map_id; reflexivity|].
  intros row Hrow. rewrite map_map.
  rewrite (sequence_map _ (fun i => nth i row 0)).
  - f_equal. transitivity (tabulate (length row) (fun i => nth i row 0)).
    + rewrite (Hc row Hrow). reflexivity.
    + symmetry. apply list_eq_tabulate.
  - intros i Hi. apply in_seq in Hi. rewrite (Hc row Hrow).
    rewrite norm_index_nat by lia. reflexivity.
Qed.

(** X1. With the default [active_dims], slicing leaves an input with
    [input_dim] columns as it is, and an input with fewer columns than
    [input_dim] cannot be sliced (NumPy raises [IndexError]). *)
Theorem default_slice (rho : env) (X : texp) (x : list (list R))
    (n D input_dim : nat) (b : base) :
  Covariance_init (Z.of_nat input_dim) None = Ok b ->
  eval rho X = Some (Mat x) -> rect n D x ->
  (input_dim = D -> eval rho (fst (_slice b X None)) = Some (Mat x)) /\
  ((0 < n)%nat -> (D < input_dim)%nat ->
   eval rho (fst (_slice b X None)) = None).
Proof.
  intros Hb HX Hrect. injection Hb as <-. cbn [_slice fst active_dims eval].
  rewrite HX. cbn [obind]. split.
  - intros ->. apply index_cols_arange with (n := n). exact Hrect.
  - intros Hn HD. destruct Hrect as [Hrows Hc].
    rewrite Forall_forall in Hc.
    destruct x as [|row x']; [simpl in Hrows; lia|].
    unfold index_cols. cbn [map sequence].
    rewrite (sequence_None (map _ (arange (Z.of_nat input_dim))));
      [reflexivity|].
    apply in_map_iff. exists (Z.of_nat D). split.
    + rewrite (Hc row (or_introl eq_refl)).
      rewrite norm_index_out by lia. reflexivity.
    + unfold arange. rewrite Nat2Z.id. apply in_map. apply in_seq. lia.
Qed.

(** Three inputs with one column and a kernel of one input dimension;
    the same inputs and a kernel of two input dimensions. *)
Lemma default_slice_witness :
  eval Instances.point0
    (fst (_slice {| input_dim := 1; active_dims := arange 1 |}
            (TArr Instances.X3) None)) = Some Instances.X3 /\
  eval Instances.point0
    (fst (_slice {| input_dim := 2; active_dims := arange 2 |}
            (TArr Instances.X3) None)) = None.
Proof.
  assert (Hrect : rect 3 1 [[0]; [1]; [2]])
    by (split; [reflexivity | repeat constructor]).
  split.
  - apply (proj1 (default_slice Instances.point0 (TArr Instances.X3)
                    [[0]; [1]; [2]] 3 1 1 _ eq_refl eq_refl Hrect)).
    reflexivity.
  - apply (proj2 (default_slice Instances.point0 (TArr Instances.X3)
                    [[0]; [1]; [2]] 3 1 2 _ eq_refl eq_refl Hrect)); lia.
Defined.

(** ** Construction of combinations *)

Lemma fold_left_max_ge (l : list Z) (x : Z) :
  (x <= fold_left Z.max l x)%Z /\
  forall y, In y l -> (y <= fold_left Z.max l x)%Z.
Proof.
  revert x. induction l as [|z l IH]; intros x; simpl.
  - split; [lia | contradiction].
  - destruct (IH (Z.max x z)) as [H1 H2]. split; [lia|].
    intros y [->|Hy]; [lia | apply H2; exact Hy].
Qed.

Lemma factor_input_dims_In (fl : list factor) (k : Covariance) :
  In (FCov k) fl -> In (input_dim (base_of k)) (factor_input_dims fl).
Proof.
  intros H. unfold factor_input_dims. apply in_flat_map.
  exists (FCov k). split; [exact H | left; reflexivity].
Qed.

Lemma factor_input_dims_nil (fl : list factor) :
  factor_input_dims fl = [] -> forall k, ~ In (FCov k) fl.
Proof.
  intros H k Hk. apply factor_input_dims_In in Hk. rewrite H in Hk.
  contradiction.
Qed.

(** X2. [Add (factor_list)] and [Prod (factor_list)] can be built exactly
    when one of the operands is a kernel (otherwise [np.max] of the empty
    list raises [ValueError]); the input dimension of the result is at
    least that of every kernel operand, and its active dimensions are
    all of [0 .. input_dim - 1]. *)
Theorem Combination_init_ok (cls : combination_class) (fl : list factor) :
  ((exists c, Combination_init cls fl = Ok c) <->
   (exists k, In (FCov k) fl)) /\
  ((forall k, ~ In (FCov k) fl) ->
   Combination_init cls fl = Raise ValueError) /\
  (forall c, Combination_init cls fl = Ok c ->
     active_dims (base_of c) = arange (input_dim (base_of c)) /\
     forall k, In (FCov k) fl ->
       (input_dim (base_of k) <= input_dim (base_of c))%Z).
Proof.
  unfold Combination_init.
  destruct (factor_input_dims fl) as [|x l] eqn:E; simpl.
  - split; [|split].
    + split; [intros [c H]; discriminate|].
      intros [k Hk]. exfalso. exact (factor_input_dims_nil fl E k Hk).
    + reflexivity.
    + intros c H. discriminate.
  - split; [|split].
    + split; [|intros _; destruct cls; eauto].
      intros _. clear - E. induction fl as [|f fl IH]; [discriminate|].
      destruct f as [k| | |]; simpl in E;
        try (destruct (IH E) as [k' Hk']; exists k'; right; exact Hk').
      exists k. left. reflexivity.
    + intros Hno. exfalso.
      assert (Hin : In x (factor_input_dims fl)) by (rewrite E; left; auto).
      unfold factor_input_dims in Hin. apply in_flat_map in Hin.
      destruct Hin as (f & Hf & Hx). destruct f as [k| | |];
        try contradiction. exact (Hno k Hf).
    + intros c H.
      assert (Hb : base_of c
                   = {| input_dim := fold_left Z.max l x;
                        active_dims := arange (fold_left Z.max l x) |})
        by (destruct cls; injection H as <-; reflexivity).
      rewrite Hb. simpl. split; [reflexivity|].
      intros k Hk. apply factor_input_dims_In in Hk. rewrite E in Hk.
      destruct (fold_left_max_ge l x) as [H1 H2].
      destruct Hk as [<-|Hk]; [exact H1 | apply H2; exact Hk].
Qed.

(** A sum without a kernel operand, and a sum of a kernel of one input
    dimension and a number. *)
Lemma Combination_init_ok_witness :
  Combination_init ClsAdd [FNumber 1; FNdarray (Scalar 2)]
    = Raise ValueError /\
  exists c, Combination_init ClsAdd [FCov Instances.k_expquad; FNumber 1]
            = Ok c /\ (1 <= input_dim (base_of c))%Z.
Proof.
  split.
  - apply (proj1 (proj2 (Combination_init_ok ClsAdd
                           [FNumber 1; FNdarray (Scalar 2)]))).
    intros k [H|[H|[]]]; discriminate.
  - eexists. split; [reflexivity|].
    destruct (proj2 (proj2 (Combination_init_ok ClsAdd
                              [FCov Instances.k_expquad; FNumber 1]))
                _ eq_refl) as [_ H].
    apply (H Instances.k_expquad). left. reflexivity.
Defined.

Lemma forallb_flat_map {A B} (p : B -> bool) (f : A -> list B) (l : list A) :
  (forall x, In x l -> forallb p (f x) = true) ->
  forallb p (flat_map f l) = true.
Proof.
  induction l as [|x l IH]; intros H; simpl; [reflexivity|].
  rewrite forallb_app, (H x (or_introl eq_refl)), IH; [reflexivity|].
  intros y Hy. apply H. right. exact Hy.
Qed.

(** X3. A combination built from operands none of which has a
    combination of its own class among its terms has no combination of
    its class among its terms either: sums are never nested directly in
    sums, nor products in products, whatever the order in which the
    operators are applied. *)
Theorem Combination_init_flat (cls : combination_class) (fl : list factor)
    (c : Covariance) :
  (forall k, In (FCov k) fl -> Spec.flat_kernel k) ->
  Combination_init cls fl = Ok c ->
  Spec.flat_kernel c.
Proof.
  intros Hflat H. unfold Combination_init in H.
  destruct (np_max (factor_input_dims fl)) as [d|]; [|discriminate].
  simpl in H.
  assert (G : forallb (fun f => negb (Spec.nested_same cls f))
                (flat_map (flatten_factor cls) fl) = true).
  { apply forallb_flat_map. intros f Hf.
    destruct f as [k| | |]; try (destruct cls; reflexivity).
    specialize (Hflat k Hf).
    destruct cls, k; simpl in *; try reflexivity; exact Hflat. }
  destruct cls; injection H as <-; exact G.
Qed.

(** The sum of a sum and a kernel. *)
Lemma Combination_init_flat_witness :
  exists s c,
    __add__ Instances.k_expquad (FCov Instances.k_linear) = Ok s /\
    __add__ Instances.k_matern32 (FCov s) = Ok c /\
    Spec.flat_kernel c.
Proof.
  destruct (__add__ Instances.k_expquad (FCov Instances.k_linear))
    as [s|e] eqn:Es; [|rewrite add_base in Es; discriminate].
  destruct (__add__ Instances.k_matern32 (FCov s))
    as [c|e] eqn:Ec; [|rewrite add_base in Ec; discriminate].
  exists s, c. split; [reflexivity|]. split; [exact Ec|].
  apply (Combination_init_flat ClsAdd [FCov Instances.k_matern32; FCov s] c);
    [|exact Ec].
  intros k [H|[H|[]]]; injection H as <-; [exact I|].
  rewrite add_base in Es. injection Es as <-. reflexivity.
Defined.

Lemma mul_terms (k1 k2 : Covariance) :
  __mul__ k1 (FCov k2) =
  Ok (Prod {| input_dim := Z.max (input_dim (base_of k1))
                                 (input_dim (base_of k2));
              active_dims := arange (Z.max (input_dim (base_of k1))
                                           (input_dim (base_of k2))) |}
           (Spec.terms_prod k1 ++ Spec.terms_prod k2)).
Proof.
  unfold __mul__, Combination_init. simpl. rewrite app_nil_r.
  destruct k1, k2; reflexivity.
Qed.

(** X4. Products flatten as sums do: [(k1 * k2) * k3] and
    [k1 * (k2 * k3)] are the same [Prod] object, whose factors are those
    of [k1], [k2] and [k3] in order. *)
Theorem product_flattening (k1 k2 k3 : Covariance) :
  exists b,
    Spec.left_nested_prod k1 k2 k3 =
      Ok (Prod b (Spec.terms_prod k1 ++ Spec.terms_prod k2
                  ++ Spec.terms_prod k3)) /\
    Spec.right_nested_prod k1 k2 k3 =
      Ok (Prod b (Spec.terms_prod k1 ++ Spec.terms_prod k2
                  ++ Spec.terms_prod k3)).
Proof.
  eexists. split.
  - unfold Spec.left_nested_prod. rewrite mul_terms. simpl.
    rewrite mul_terms. simpl. rewrite fold_left_max_assoc, <- app_assoc.
    reflexivity.
  - unfold Spec.right_nested_prod. rewrite mul_terms. simpl.
    rewrite mul_terms. reflexivity.
Qed.

(** ** The white noise kernel *)

Lemma diag_mat_tab (n : nat) (f : nat -> nat -> R) :
  Np.diag (Mat (mat_tab n n f)) = Some (Vec (tabulate n (fun i => f i i))).
Proof.
  cbn [Np.diag]. rewrite nrows_mat_tab.
  destruct (Nat.eq_dec n 0) as [->|Hn]; [reflexivity|].
  rewrite ncols_mat_tab, Nat.min_id by lia. do 2 f_equal.
  apply tabulate_ext. intros i Hi. apply get_mat_tab; exact Hi.
Qed.

(** X5. For the white noise kernel with a scalar [sigma]: the full
    matrix [k (X)] is [sigma^2] on the diagonal and zero elsewhere, its
    diagonal is exactly the vector [k (X, diag=True)], and the cross
    matrix [k (X, Xs)] is the zero matrix with one row for each row of
    [X] and one column for each row of [Xs].  The active dimensions play
    no part. *)
Theorem WhiteNoise_values (rho : env) (b : base) (sigma X Xs : texp)
    (s : R) (x xs : list (list R)) (n m D D' : nat) :
  eval rho sigma = Some (Scalar s) ->
  eval rho X = Some (Mat x) -> rect n D x ->
  eval rho Xs = Some (Mat xs) -> rect m D' xs ->
  exists fl dg cr,
    call (WhiteNoise b sigma) X None false = Ok (VTensor fl) /\
    call (WhiteNoise b sigma) X None true = Ok (VTensor dg) /\
    call (WhiteNoise b sigma) X (Some Xs) false = Ok (VTensor cr) /\
    eval rho fl
    = Some (Mat (mat_tab n n (fun i j =>
                   s * s * (if (i =? j)%nat then 1 else 0)))) /\
    eval rho dg = Some (Vec (tabulate n (fun _ => s * s * 1))) /\
    (v <- eval rho fl ;; Np.diag v) = eval rho dg /\
    eval rho cr = Some (Mat (fill2 n m 0)).
Proof.
  intros Hs HX [Hn _] HXs [Hm _].
  do 3 eexists. split; [reflexivity|]. split; [reflexivity|].
  split; [reflexivity|].
  assert (Hfl : eval rho (WhiteNoise_full sigma X None)
                = Some (Mat (mat_tab n n (fun i j =>
                          s * s * (if (i =? j)%nat then 1 else 0))))).
  { unfold WhiteNoise_full. cbn [eval]. rewrite Hs, HX.
    cbn [obind uop option_map shape0]. unfold nrows. rewrite Hn.
    unfold mul, eye. apply bop_scalar_mat. reflexivity. }
  assert (Hdg : eval rho (WhiteNoise_diag sigma X)
                = Some (Vec (tabulate n (fun _ => s * s * 1)))).
  { unfold WhiteNoise_diag. cbn [eval]. rewrite Hs, HX.
    cbn [obind uop option_map shape0 mul bop]. unfold nrows. rewrite Hn.
    rewrite fill_tabulate, map_tabulate.
    rewrite (sequence_tabulate n _ (fun _ => s * s * 1)) by reflexivity.
    reflexivity. }
  split; [exact Hfl|]. split; [exact Hdg|]. split.
  - cbn [call]. rewrite Hfl, Hdg. cbn [obind]. rewrite diag_mat_tab.
    do 2 f_equal. apply tabulate_ext. intros i _.
    rewrite Nat.eqb_refl. reflexivity.
  - cbn [call WhiteNoise_full eval]. rewrite HX, HXs.
    cbn [obind shape0]. unfold nrows. rewrite Hn, Hm. reflexivity.
Qed.

(** White noise of standard deviation 2 on three inputs, against two
    others. *)
Lemma WhiteNoise_values_witness :
  eval Instances.point0
    (WhiteNoise_full (TConst 2) (TArr Instances.X3) (Some (TArr Instances.Xu2)))
  = Some (Mat (fill2 3 2 0)).
Proof.
  assert (H3 : rect 3 1 [[0]; [1]; [2]])
    by (split; [reflexivity | repeat constructor]).
  assert (H2 : rect 2 1 [[0]; [2]])
    by (split; [reflexivity | repeat constructor]).
  destruct (WhiteNoise_values Instances.point0 Instances.base1 (TConst 2)
              (TArr Instances.X3) (TArr Instances.Xu2) 2
              [[0]; [1]; [2]] [[0]; [2]] 3 2 1 1
              eq_refl eq_refl H3 eq_refl H2)
    as (fl & dg & cr & _ & _ & Hc & _ & _ & _ & Hcr).
  injection Hc as <-. exact Hcr.
Defined.

(** ** The linear kernel *)

Lemma sum_n_nonneg (n : nat) (f : nat -> R) :
  (forall i, (i < n)%nat -> 0 <= f i) -> 0 <= sum_n n f.
Proof.
  unfold sum_n, tabulate. intros H.
  assert (Hin : forall y, In y (map f (seq 0 n)) -> 0 <= y).
  { intros y Hy. apply in_map_iff in Hy. destruct Hy as (i & <- & Hi).
    apply in_seq in Hi. apply H. lia. }
  induction (map f (seq 0 n)) as [|y l IH]; simpl; [lra|].
  apply Rplus_le_le_0_compat.
  - apply Hin. left. reflexivity.
  - apply IH. intros z Hz. apply Hin. right. exact Hz.
Qed.

Lemma eval_Linear_centered (rho : env) (b : base) (c X : texp) (cv : R)
    (x : list (list R)) (n D : nat) :
  eval rho c = Some (Scalar cv) ->
  eval rho X = Some (Mat x) -> rect n D x ->
  Forall (fun i => norm_index D i <> None) (active_dims b) ->
  exists xc,
    eval rho (TSub (TIndexCols X (active_dims b)) c) = Some (Mat xc) /\
    rect n (length (active_dims b)) xc.
Proof.
  intros Hc HX Hrect Hdims.
  destruct (index_cols_rect x n D (active_dims b) Hrect Hdims)
    as (xs & Hidx & Hrs).
  cbn [eval]. rewrite HX, Hc. cbn [obind]. rewrite Hidx. cbn [obind].
  rewrite (rect_eq_mat_tab _ _ xs Hrs). unfold sub.
  rewrite (bop_mat_scalar rsub cv n _ _ (fun i j => get xs i j - cv))
    by reflexivity.
  eexists. split; [reflexivity | apply rect_mat_tab].
Qed.

(** X6. For the linear kernel with a scalar [c], on a non-empty input
    whose active dimensions are columns of it: the full matrix [k (X)]
    is symmetric, its diagonal is exactly the vector
    [k (X, diag=True)], and the diagonal entries are not negative. *)
Theorem Linear_values (rho : env) (b : base) (c X : texp) (cv : R)
    (x : list (list R)) (n D : nat) :
  eval rho c = Some (Scalar cv) ->
  eval rho X = Some (Mat x) -> rect n D x -> (0 < n)%nat ->
  active_dims b <> [] ->
  Forall (fun i => norm_index D i <> None) (active_dims b) ->
  exists fl dg m v,
    call (Linear b c) X None false = Ok (VTensor fl) /\
    call (Linear b c) X None true = Ok (VTensor dg) /\
    eval rho fl = Some (Mat m) /\ rect n n m /\
    eval rho dg = Some (Vec v) /\
    Np.diag (Mat m) = Some (Vec v) /\
    Spec.symmetric n m /\
    (forall i, (i < n)%nat -> 0 <= get m i i).
Proof.
  intros Hc HX Hrect Hn Hne Hdims.
  destruct (eval_Linear_centered rho b c X cv x n D Hc HX Hrect Hdims)
    as (xc & Hxc & Hrc).
  assert (Hd : (0 < length (active_dims b))%nat)
    by (destruct (active_dims b); [contradiction | simpl; lia]).
  set (d := length (active_dims b)) in *.
  exists (Linear_full b c X None), (Linear_diag b c X),
    (mat_tab n n (fun i j => sum_n d (fun k => get xc i k * get xc j k))),
    (tabulate n (fun i => sum_n d (fun k => get xc i k * get xc i k))).
  split; [reflexivity|]. split; [reflexivity|].
  split; [|split; [apply rect_mat_tab|]].
  { unfold Linear_full, Linear__common. cbn [_slice option_map].
    apply (eval_dot_transpose rho _ _ xc xc n n d Hxc Hrc Hxc Hrc Hn Hn Hd). }
  split.
  { unfold Linear_diag, Linear__common. cbn [_slice option_map].
    apply (eval_sum_square rho _ xc n d Hxc Hrc). }
  split; [apply diag_mat_tab|]. split.
  - intros i j Hi Hj. rewrite !get_mat_tab by assumption.
    apply rsum_tabulate_ext. intros k _. apply Rmult_comm.
  - intros i Hi. rewrite get_mat_tab by assumption.
    apply sum_n_nonneg. intros k _. apply Rle_0_sqr.
Qed.

(** Two inputs on a line, centred at one. *)
Lemma Linear_values_witness :
  exists m, eval Instances.point0
              (Linear_full Instances.base1 (TConst 1) Instances.X2 None)
            = Some (Mat m) /\ Spec.symmetric 2 m.
Proof.
  assert (H2 : rect 2 1 [[1]; [2]])
    by (split; [reflexivity | repeat constructor]).
  assert (Hd : Forall (fun i => norm_index 1 i <> None)
                 (active_dims Instances.base1))
    by (repeat constructor; discriminate).
  destruct (Linear_values Instances.point0 Instances.base1 (TConst 1)
              Instances.X2 1 [[1]; [2]] 2 1 eq_refl eq_refl H2
              ltac:(lia) ltac:(discriminate) Hd)
    as (fl & dg & m & v & Hc & _ & Hfl & _ & _ & _ & Hsym & _).
  injection Hc as <-. exists m. split; [exact Hfl | exact Hsym].
Defined.
(** ** Stationary kernels: symmetry, distances and bounds *)

Lemma sum_n_sqdist (d : nat) (f g : nat -> R) :
  sum_n d (fun k => (f k - g k) * (f k - g k))
  = -2 * sum_n d (fun k => f k * g k)
    + (sum_n d (fun k => f k * f k) + sum_n d (fun k => g k * g k)).
Proof.
  unfold sum_n, tabulate. generalize O as s.
  induction d as [|d IH]; intros s; simpl; [lra|].
  rewrite (IH (S s)). lra.
Qed.

Lemma sqd_entry_row_sqdist (d : nat) (xd : list (list R)) (i j : nat) :
  Spec.sqd_entry d xd i j = Spec.row_sqdist d xd i j.
Proof.
  unfold Spec.sqd_entry, Spec.row_sqdist.
  rewrite <- (sum_n_sqdist d (fun k => get xd i k) (fun k => get xd j k)).
  apply Rmax_left. apply sum_n_nonneg. intros k _. apply Rle_0_sqr.
Qed.

Lemma row_sqdist_sym (d : nat) (xd : list (list R)) (i j : nat) :
  Spec.row_sqdist d xd i j = Spec.row_sqdist d xd j i.
Proof.
  unfold Spec.row_sqdist. apply rsum_tabulate_ext. intros k _. lra.
Qed.

Lemma row_sqdist_nonneg (d : nat) (xd : list (list R)) (i j : nat) :
  0 <= Spec.row_sqdist d xd i j.
Proof.
  unfold Spec.row_sqdist. apply sum_n_nonneg. intros k _. apply Rle_0_sqr.
Qed.

(** *** Bounds on the six formulas *)

Lemma exp_cube_bound (t : R) : 0 <= t -> 1 + t + t * t / 3 <= exp t.
Proof.
  intros Ht.
  replace (exp t) with (exp (t / 3) * exp (t / 3) * exp (t / 3))
    by (rewrite <- !exp_plus; f_equal; lra).
  pose proof (exp_ineq1_le (t / 3)) as H1.
  set (e := exp (t / 3)) in *.
  assert (H2 : (1 + t / 3) * (1 + t / 3) <= e * e) by nra.
  assert (H3 : (1 + t / 3) * (1 + t / 3) * (1 + t / 3) <= e * e * e) by nra.
  assert (H4 : 0 <= t * t * t) by (repeat apply Rmult_le_pos; lra).
  lra.
Qed.

Lemma profile_bounds (k : Covariance) (a s : R) :
  Spec.stationary_lengthscales k <> None -> 0 < a -> 0 <= s ->
  -1 <= Spec.kernel_profile k a s <= 1 /\
  match k with
  | Cosine _ _ => True
  | _ => 0 <= Spec.kernel_profile k a s
  end.
Proof.
  intros Hk Ha Hs.
  assert (Hr : 0 < sqrt (s + 1e-12)) by (apply sqrt_lt_R0; lra).
  destruct k; simpl in Hk; try contradiction; clear Hk;
    cbn [Spec.kernel_profile]; cbv zeta.
  - (* ExpQuad *)
    replace (-0.5 * s) with (- (0.5 * s)) by lra.
    pose proof (exp_neg_bounds (0.5 * s)) as [_ Hu]; [lra|].
    pose proof (exp_pos (- (0.5 * s))). split; lra.
  - (* RatQuad *)
    assert (Hb : 1 <= 1 + 0.5 * s * (1 / a)).
    { assert (0 < 1 / a) by (apply Rdiv_lt_0_compat; lra).
      assert (0 <= s * (1 / a)) by (apply Rmult_le_pos; lra). lra. }
    unfold Rpower.
    assert (Hl : 0 <= ln (1 + 0.5 * s * (1 / a))).
    { rewrite <- ln_1. destruct Hb as [Hb|<-]; [|lra].
      left. apply ln_increasing; lra. }
    replace (-1 * a * ln (1 + 0.5 * s * (1 / a)))
      with (- (a * ln (1 + 0.5 * s * (1 / a)))) by lra.
    pose proof (exp_neg_bounds (a * ln (1 + 0.5 * s * (1 / a)))) as [_ Hu];
      [apply Rmult_le_pos; lra|].
    pose proof (exp_pos (- (a * ln (1 + 0.5 * s * (1 / a))))).
    split; lra.
  - (* Matern52 *)
    set (r := sqrt (s + 1e-12)) in *.
    assert (H5 : 0 < sqrt 5) by (apply sqrt_lt_R0; lra).
    assert (H55 : sqrt 5 * sqrt 5 = 5) by (apply sqrt_sqrt; lra).
    set (t := sqrt 5 * r).
    assert (Ht : 0 < t) by (apply Rmult_lt_0_compat; assumption).
    replace (-1 * sqrt 5 * r) with (- t) by (unfold t; lra).
    replace (5 / 3 * (r * r)) with (t * t / 3) by (unfold t; nra).
    pose proof (exp_cube_bound t (Rlt_le _ _ Ht)) as Hc.
    pose proof (exp_pos t) as Hp. pose proof (exp_pos (- t)) as Hn.
    assert (Hq : 0 < 1 + t + t * t / 3) by nra.
    assert (Hpos : 0 < (1 + t + t * t / 3) * exp (- t))
      by (apply Rmult_lt_0_compat; assumption).
    assert (Hle : (1 + t + t * t / 3) * exp (- t) <= 1).
    { rewrite exp_Ropp. apply (Rmult_le_reg_r (exp t)); [exact Hp|].
      rewrite Rmult_assoc, Rinv_l by lra. lra. }
    split; lra.
  - (* Matern32 *)
    set (r := sqrt (s + 1e-12)) in *.
    assert (H3 : 0 < sqrt 3) by (apply sqrt_lt_R0; lra).
    set (t := sqrt 3 * r).
    assert (Ht : 0 < t) by (apply Rmult_lt_0_compat; assumption).
    replace (- sqrt 3 * r) with (- t) by (unfold t; lra).
    pose proof (one_plus_exp_neg t (Rlt_le _ _ Ht)) as Hu.
    pose proof (exp_pos (- t)) as Hn.
    assert (Hpos : 0 < (1 + t) * exp (- t))
      by (apply Rmult_lt_0_compat; lra).
    split; lra.
  - (* Exponential *)
    replace (-0.5 * sqrt (s + 1e-12)) with (- (0.5 * sqrt (s + 1e-12)))
      by lra.
    pose proof (exp_neg_bounds (0.5 * sqrt (s + 1e-12))) as [_ Hu]; [lra|].
    pose proof (exp_pos (- (0.5 * sqrt (s + 1e-12)))).
    split; lra.
  - (* Cosine *)
    split; [apply COS_bound | exact I].
Qed.

(** *** The full matrix of a stationary kernel *)

Section Stationary_full.
Variables (rho : env) (k : Covariance) (ls X : texp) (x : list (list R))
          (n D : nat).
Hypothesis Hk : Spec.stationary_lengthscales k = Some ls.
Hypothesis HX : eval rho X = Some (Mat x).
Hypothesis Hrect : rect n D x.
Hypothesis Hn : (0 < n)%nat.
Hypothesis Hne : active_dims (base_of k) <> [].
Hypothesis Hdims :
  Forall (fun i => norm_index D i <> None) (active_dims (base_of k)).
Hypothesis Hls :
  (exists l, eval rho ls = Some (Scalar l) /\ l <> 0) \/
  (exists lv, eval rho ls = Some (Vec lv) /\
              length lv = length (active_dims (base_of k)) /\
              Forall (fun v => v <> 0) lv).
Hypothesis Halpha : Spec.alpha_positive rho k.

Lemma stationary_scaled :
  exists xd, eval rho (Spec.scaled_input k ls X) = Some (Mat xd) /\
             rect n (length (active_dims (base_of k))) xd /\
             (0 < length (active_dims (base_of k)))%nat.
Proof.
  destruct (index_cols_rect x n D (active_dims (base_of k)) Hrect Hdims)
    as (xs & Hidx & Hrs).
  assert (HXt : eval rho (TIndexCols X (active_dims (base_of k)))
                = Some (Mat xs))
    by (cbn [eval]; rewrite HX; exact Hidx).
  assert (Hd : (0 < length (active_dims (base_of k)))%nat)
    by (destruct (active_dims (base_of k)); [contradiction | simpl; lia]).
  destruct (eval_scaled rho _ ls xs n _ HXt Hrs Hn Hd Hls) as (xd & Hxd & Hrd).
  exists xd. split; [exact Hxd|]. split; [exact Hrd | exact Hd].
Qed.

Lemma alpha_value_pos : 0 < match k with
                            | RatQuad _ _ _ => Spec.alpha_value rho k
                            | _ => 1
                            end.
Proof.
  destruct k; try lra. simpl in Halpha. destruct Halpha as (a & Ha & Hpos).
  cbn [Spec.alpha_value]. rewrite Ha. exact Hpos.
Qed.

Lemma stationary_full_profile (Xs : option texp) (xd : list (list R)) :
  Xs = None \/ Xs = Some X ->
  eval rho (Spec.scaled_input k ls X) = Some (Mat xd) ->
  rect n (length (active_dims (base_of k))) xd ->
  exists fl,
    call k X Xs false = Ok (VTensor fl) /\
    eval rho fl
    = Some (Mat (mat_tab n n (fun i j =>
         Spec.kernel_profile k (Spec.alpha_value rho k)
           (Spec.row_sqdist (length (active_dims (base_of k))) xd i j)))).
Proof.
  intros HXs Hxd Hrd.
  assert (Hd : (0 < length (active_dims (base_of k)))%nat)
    by (destruct (active_dims (base_of k)); [contradiction | simpl; lia]).
  set (b := base_of k) in *.
  set (Xt := TIndexCols X (active_dims b)).
  assert (HXs' : snd (_slice b X Xs) = None \/ snd (_slice b X Xs) = Some Xt)
    by (destruct HXs as [->| ->]; [left|right]; reflexivity).
  set (d := length (active_dims b)) in *.
  unfold Spec.scaled_input in Hxd. fold b in Hxd. fold Xt in Hxd.
  destruct k; simpl in Hk; try discriminate; injection Hk as <-;
    simpl in b; subst b; eexists; (split; [reflexivity|]).
  - unfold ExpQuad_full. cbn [_slice].
    etransitivity; [apply (eval_ExpQuad rho lengthscales Xt xd n d _ Hxd Hrd Hn Hd HXs')|].
    do 2 f_equal. apply mat_tab_ext. intros i j _ _.
    rewrite sqd_entry_row_sqdist. reflexivity.
  - simpl in Halpha. destruct Halpha as (a & Ha & Hpos).
    unfold RatQuad_full. cbn [_slice].
    etransitivity; [apply (eval_RatQuad rho lengthscales Xt xd n d _ Hxd Hrd Hn Hd HXs'
               alpha a Ha Hpos)|].
    do 2 f_equal. apply mat_tab_ext. intros i j _ _.
    rewrite sqd_entry_row_sqdist. cbn [Spec.alpha_value Spec.kernel_profile].
    rewrite Ha. reflexivity.
  - unfold Matern52_full. cbn [_slice].
    etransitivity; [apply (eval_Matern52 rho lengthscales Xt xd n d _ Hxd Hrd Hn Hd HXs')|].
    do 2 f_equal. apply mat_tab_ext. intros i j _ _.
    rewrite sqd_entry_row_sqdist. reflexivity.
  - unfold Matern32_full. cbn [_slice].
    etransitivity; [apply (eval_Matern32 rho lengthscales Xt xd n d _ Hxd Hrd Hn Hd HXs')|].
    do 2 f_equal. apply mat_tab_ext. intros i j _ _.
    rewrite sqd_entry_row_sqdist. reflexivity.
  - unfold Exponential_full. cbn [_slice].
    etransitivity; [apply (eval_Exponential rho lengthscales Xt xd n d _ Hxd Hrd Hn Hd
               HXs')|].
    do 2 f_equal. apply mat_tab_ext. intros i j _ _.
    rewrite sqd_entry_row_sqdist. reflexivity.
  - unfold Cosine_full. cbn [_slice].
    etransitivity; [apply (eval_Cosine rho lengthscales Xt xd n d _ Hxd Hrd Hn Hd HXs')|].
    do 2 f_equal. apply mat_tab_ext. intros i j _ _.
    rewrite sqd_entry_row_sqdist. reflexivity.
Qed.

(** X7. For each of the six stationary kernels, on a non-empty input [X]
    (active dimensions that are columns of [X], lengthscales different
    from zero, a positive [alpha] for the rational quadratic kernel),
    over the reals: [k (X)] and [k (X, X)] have the same value, a
    symmetric n by n matrix whose entry (i, j) is the kernel's formula at
    the squared Euclidean distance between rows i and j of the active
    columns of [X] divided by the lengthscales.  The clipping at zero in
    [square_dist] changes nothing. *)
Theorem stationary_full_distance :
  exists f1 f2 m xd,
    call k X None false = Ok (VTensor f1) /\
    call k X (Some X) false = Ok (VTensor f2) /\
    eval rho f1 = Some (Mat m) /\
    eval rho f2 = Some (Mat m) /\
    rect n n m /\
    eval rho (Spec.scaled_input k ls X) = Some (Mat xd) /\
    (forall i j, (i < n)%nat -> (j < n)%nat ->
       get m i j
       = Spec.kernel_profile k (Spec.alpha_value rho k)
           (Spec.row_sqdist (length (active_dims (base_of k))) xd i j)) /\
    Spec.symmetric n m.
Proof.
  destruct stationary_scaled as (xd & Hxd & Hrd & Hd).
  destruct (stationary_full_profile None xd (or_introl eq_refl) Hxd Hrd)
    as (f1 & Hc1 & He1).
  destruct (stationary_full_profile (Some X) xd (or_intror eq_refl) Hxd Hrd)
    as (f2 & Hc2 & He2).
  exists f1, f2. eexists. exists xd.
  split; [exact Hc1|]. split; [exact Hc2|]. split; [exact He1|].
  split; [exact He2|]. split; [apply rect_mat_tab|].
  split; [exact Hxd|]. split.
  - intros i j Hi Hj. apply get_mat_tab; assumption.
  - intros i j Hi Hj. rewrite !get_mat_tab by assumption.
    rewrite (row_sqdist_sym _ xd i j). reflexivity.
Qed.

(** X8. Under the same conditions every entry of the full matrix of a
    stationary kernel lies between -1 and 1, and for every kernel but
    the cosine it is not negative. *)
Theorem stationary_full_bounded :
  exists fl m,
    call k X None false = Ok (VTensor fl) /\
    eval rho fl = Some (Mat m) /\
    forall i j, (i < n)%nat -> (j < n)%nat ->
      -1 <= get m i j <= 1 /\
      match k with
      | Cosine _ _ => True
      | _ => 0 <= get m i j
      end.
Proof.
  destruct stationary_scaled as (xd & Hxd & Hrd & Hd).
  destruct (stationary_full_profile None xd (or_introl eq_refl) Hxd Hrd)
    as (fl & Hc & He).
  exists fl. eexists. split; [exact Hc|]. split; [exact He|].
  intros i j Hi Hj. rewrite get_mat_tab by assumption.
  assert (Hsl : Spec.stationary_lengthscales k <> None)
    by (rewrite Hk; discriminate).
  pose proof (row_sqdist_nonneg (length (active_dims (base_of k))) xd i j)
    as Hs.
  pose proof alpha_value_pos as Ha.
  destruct k; try (elim Hsl; reflexivity);
    match goal with
    | |- context [Spec.kernel_profile ?kk ?a ?s] =>
        first [ exact (profile_bounds kk 1 s Hsl Ha Hs)
              | exact (profile_bounds kk a s Hsl Ha Hs) ]
    end.
Qed.

End Stationary_full.

(** The exponentiated quadratic kernel with unit lengthscale on the
    inputs 0, 1, 2. *)
Lemma stationary_full_distance_witness :
  exists m,
    eval Instances.point0
      (ExpQuad_full Instances.base1 (TConst 1) (TArr Instances.X3) None)
    = Some (Mat m) /\
    Spec.symmetric 3 m.
Proof.
  assert (H3 : rect 3 1 [[0]; [1]; [2]])
    by (split; [reflexivity | repeat constructor]).
  assert (Hd : Forall (fun i => norm_index 1 i <> None)
                 (active_dims (base_of Instances.k_expquad)))
    by (repeat constructor; discriminate).
  assert (Hl : (exists l, eval Instances.point0 (TConst 1) = Some (Scalar l)
                          /\ l <> 0) \/
               (exists lv, eval Instances.point0 (TConst 1) = Some (Vec lv) /\
                  length lv
                  = length (active_dims (base_of Instances.k_expquad)) /\
                  Forall (fun v => v <> 0) lv))
    by (left; exists 1; split; [reflexivity | lra]).
  destruct (stationary_full_distance Instances.point0 Instances.k_expquad
              (TConst 1) (TArr Instances.X3) [[0]; [1]; [2]] 3 1
              eq_refl eq_refl H3 ltac:(lia) ltac:(discriminate) Hd Hl I)
    as (f1 & f2 & m & xd & Hc & _ & He & _ & _ & _ & _ & Hsym).
  injection Hc as <-. exists m. split; [exact He | exact Hsym].
Defined.

(** The rational quadratic kernel with unit lengthscale and [alpha = 2]
    on the inputs 0, 1, 2. *)
Lemma stationary_full_bounded_witness :
  exists m,
    eval Instances.point0
      (RatQuad_full Instances.base1 (TConst 1) (TConst 2)
         (TArr Instances.X3) None)
    = Some (Mat m) /\
    0 <= get m 0 2 <= 1.
Proof.
  assert (H3 : rect 3 1 [[0]; [1]; [2]])
    by (split; [reflexivity | repeat constructor]).
  assert (Hd : Forall (fun i => norm_index 1 i <> None)
                 (active_dims Instances.base1))
    by (repeat constructor; discriminate).
  assert (Hl : (exists l, eval Instances.point0 (TConst 1) = Some (Scalar l)
                          /\ l <> 0) \/
               (exists lv, eval Instances.point0 (TConst 1) = Some (Vec lv) /\
                  length lv = length (active_dims Instances.base1) /\
                  Forall (fun v => v <> 0) lv))
    by (left; exists 1; split; [reflexivity | lra]).
  assert (Ha : Spec.alpha_positive Instances.point0
                 (RatQuad Instances.base1 (TConst 1) (TConst 2)))
    by (exists 2; split; [reflexivity | lra]).
  destruct (stationary_full_bounded Instances.point0
              (RatQuad Instances.base1 (TConst 1) (TConst 2))
              (TConst 1) (TArr Instances.X3) [[0]; [1]; [2]] 3 1
              eq_refl eq_refl H3 ltac:(lia) ltac:(discriminate) Hd Hl Ha)
    as (fl & m & Hc & He & Hb).
  injection Hc as <-. exists m. split; [exact He|].
  destruct (Hb 0%nat 2%nat ltac:(lia) ltac:(lia)) as [[_ Hu] Hp].
  split; [exact Hp | exact Hu].
Defined.
(** ** The Gibbs kernel against a second input *)

Lemma bdim_mismatch (n m : nat) :
  (1 < n)%nat -> (1 < m)%nat -> n <> m -> bdim n m = None.
Proof.
  intros Hn Hm Hne. unfold bdim.
  destruct (Nat.eqb_spec n m); [contradiction|].
  destruct (Nat.eqb_spec n 1); [lia|].
  destruct (Nat.eqb_spec m 1); [lia|]. reflexivity.
Qed.

Lemma bop_mat_mismatch (g : R -> R -> option R) (n m c c' : nat)
    (a b : nat -> nat -> R) :
  (1 < n)%nat -> (1 < m)%nat -> n <> m ->
  bop g (Mat (mat_tab n c a)) (Mat (mat_tab m c' b)) = None.
Proof.
  intros Hn Hm Hne. cbn [bop]. unfold bmat.
  rewrite !nrows_mat_tab, (bdim_mismatch n m Hn Hm Hne). reflexivity.
Qed.

Lemma eval_TMul_None_r (rho : env) (a b : texp) :
  eval rho b = None -> eval rho (TMul a b) = None.
Proof. intros H. cbn [eval]. rewrite H. destruct (eval rho a); reflexivity. Qed.

Lemma eval_TDiv_None_l (rho : env) (a b : texp) :
  eval rho a = None -> eval rho (TDiv a b) = None.
Proof. intros H. cbn [eval]. rewrite H. reflexivity. Qed.

Lemma eval_TExp_None (rho : env) (a : texp) :
  eval rho a = None -> eval rho (TExp a) = None.
Proof. intros H. cbn [eval]. rewrite H. reflexivity. Qed.

Section Gibbs_cross.
Variables (rho : env) (X Xs : texp) (x xs : list (list R)) (n m d : nat).
Hypothesis HX : eval rho X = Some (Mat x).
Hypothesis Hrx : rect n d x.
Hypothesis HXs : eval rho Xs = Some (Mat xs).
Hypothesis Hrs : rect m d xs.
Hypothesis Hn : (0 < n)%nat.
Hypothesis Hm : (0 < m)%nat.
Hypothesis Hd : (0 < d)%nat.

Lemma eval_Gibbs_dot :
  eval rho (TMul (TConst (-2)) (TDot X (TTranspose Xs)))
  = Some (Mat (mat_tab n m (fun i j =>
       -2 * sum_n d (fun k => get x i k * get xs j k)))).
Proof.
  pose proof (eval_dot_transpose rho X Xs x xs n m d HX Hrx HXs Hrs Hn Hm Hd)
    as Hdot.
  cbn [eval] in *. rewrite Hdot. cbn [obind]. unfold mul.
  apply bop_scalar_mat. reflexivity.
Qed.

Lemma eval_Gibbs_norms :
  eval rho (TAdd (TReshape (TSum (TSquare Xs) (Some 1%nat)) (-1, 1)%Z)
                 (TReshape (TSum (TSquare Xs) (Some 1%nat)) (1, -1)%Z))
  = Some (Mat (mat_tab m m (fun i j =>
       sum_n d (fun k => get xs i k * get xs i k)
       + sum_n d (fun k => get xs j k * get xs j k)))).
Proof.
  pose proof (eval_sum_square rho Xs xs m d HXs Hrs) as H2.
  cbn [eval] in *. rewrite H2. cbn [obind].
  rewrite reshape_col, reshape_row. cbn [obind]. unfold add.
  apply (bop_col_row radd m m); [exact Hm | exact Hm | reflexivity].
Qed.

Lemma eval_Gibbs_square_dist_mismatch :
  (1 < n)%nat -> (1 < m)%nat -> n <> m ->
  eval rho (Gibbs_square_dist X (Some Xs)) = None.
Proof.
  intros H1 H2 Hne. pose proof eval_Gibbs_dot as Hdot.
  pose proof eval_Gibbs_norms as Hnorm.
  unfold Gibbs_square_dist. cbn [eval] in *. rewrite Hdot, Hnorm.
  cbn [obind]. unfold add.
  rewrite (bop_mat_mismatch radd n m m m _ _ H1 H2 Hne). reflexivity.
Qed.

(** X9. [Gibbs.square_dist (X, Xs)] on two inputs with the same number
    of columns: when they have as many rows, entry (i, j) is
    [-2 X_i . Xs_j + |Xs_i|^2 + |Xs_j|^2] clipped at zero, the squared
    norm of row i taken from [Xs] and not from [X]; when the numbers of
    rows differ and both exceed one, the two summands cannot be
    broadcast together and the graph has no value. *)
Theorem Gibbs_square_dist_cross :
  (n = m ->
   eval rho (Gibbs_square_dist X (Some Xs))
   = Some (Mat (mat_tab n n (Spec.gibbs_sqd_entry d x xs)))) /\
  ((1 < n)%nat -> (1 < m)%nat -> n <> m ->
   eval rho (Gibbs_square_dist X (Some Xs)) = None).
Proof.
  split; [|exact eval_Gibbs_square_dist_mismatch].
  intros E. pose proof eval_Gibbs_dot as Hdot.
  pose proof eval_Gibbs_norms as Hnorm. subst m.
  unfold Gibbs_square_dist. cbn [eval] in *. rewrite Hdot, Hnorm.
  cbn [obind as_scalar]. unfold add.
  rewrite (bop_mat_mat radd n n _ _
             (fun i j =>
                -2 * sum_n d (fun k => get x i k * get xs j k)
                + (sum_n d (fun k => get xs i k * get xs i k)
                   + sum_n d (fun k => get xs j k * get xs j k))) Hn)
    by reflexivity.
  cbn [obind]. apply (uop_mat_tab (clip_lo 0) n n). reflexivity.
Qed.

End Gibbs_cross.

(** Two rows against two rows: entry (0, 0) is [0 + 1 + 1] although the
    two rows are at distance one. *)
Lemma Gibbs_square_dist_cross_witness :
  eval Instances.point0
    (Gibbs_square_dist (TArr (Mat [[0]; [0]])) (Some (TArr (Mat [[1]; [2]]))))
  = Some (Mat (mat_tab 2 2 (Spec.gibbs_sqd_entry 1 [[0]; [0]] [[1]; [2]]))).
Proof.
  assert (Hx : rect 2 1 [[0]; [0]])
    by (split; [reflexivity | repeat constructor]).
  assert (Hs : rect 2 1 [[1]; [2]])
    by (split; [reflexivity | repeat constructor]).
  exact (proj1 (Gibbs_square_dist_cross Instances.point0
                  (TArr (Mat [[0]; [0]])) (TArr (Mat [[1]; [2]]))
                  [[0]; [0]] [[1]; [2]] 2 2 1 eq_refl Hx eq_refl Hs
                  ltac:(lia) ltac:(lia) ltac:(lia)) eq_refl).
Defined.

(** X10. The cross covariance [k (X, Xs)] of a Gibbs kernel has no value
    when [X] and [Xs] have different numbers of rows, both above one:
    whatever the lengthscale function, the squared distances inside fail
    to broadcast. *)
Theorem Gibbs_cross_covariance_fails (rho : env) (b : base)
    (lfunc : texp -> list texp -> texp) (args : option pyargs)
    (X Xs : texp) (x xs : list (list R)) (n m D : nat) :
  eval rho X = Some (Mat x) -> rect n D x ->
  eval rho Xs = Some (Mat xs) -> rect m D xs ->
  active_dims b <> [] ->
  Forall (fun i => norm_index D i <> None) (active_dims b) ->
  (1 < n)%nat -> (1 < m)%nat -> n <> m ->
  exists fl,
    call (Gibbs b lfunc args) X (Some Xs) false = Ok (VTensor fl) /\
    eval rho fl = None.
Proof.
  intros HX Hrx HXs Hrs Hne Hdims Hn Hm Hnm.
  destruct (index_cols_rect x n D (active_dims b) Hrx Hdims)
    as (xa & Hxa & Hra).
  destruct (index_cols_rect xs m D (active_dims b) Hrs Hdims)
    as (xsa & Hxsa & Hrsa).
  assert (Hd : (0 < length (active_dims b))%nat)
    by (destruct (active_dims b); [contradiction | simpl; lia]).
  assert (HXa : eval rho (TIndexCols X (active_dims b)) = Some (Mat xa))
    by (cbn [eval]; rewrite HX; exact Hxa).
  assert (HXsa : eval rho (TIndexCols Xs (active_dims b)) = Some (Mat xsa))
    by (cbn [eval]; rewrite HXs; exact Hxsa).
  pose proof (eval_Gibbs_square_dist_mismatch rho _ _ xa xsa n m _
                HXa Hra HXsa Hrsa ltac:(lia) ltac:(lia) Hd Hn Hm Hnm) as Hsq.
  eexists. split; [reflexivity|].
  unfold Gibbs_full. cbn [_slice option_map].
  apply eval_TMul_None_r. apply eval_TExp_None. apply eval_TDiv_None_l.
  apply eval_TMul_None_r. exact Hsq.
Qed.

(** Three inputs against two, with a constant lengthscale function. *)
Lemma Gibbs_cross_covariance_fails_witness :
  eval Instances.point0
    (Gibbs_full Instances.base1 (handle_args (fun _ _ => TConst 1)) None
       (TArr Instances.X3) (Some (TArr Instances.Xu2)))
  = None.
Proof.
  assert (H3 : rect 3 1 [[0]; [1]; [2]])
    by (split; [reflexivity | repeat constructor]).
  assert (H2 : rect 2 1 [[0]; [2]])
    by (split; [reflexivity | repeat constructor]).
  assert (Hd : Forall (fun i => norm_index 1 i <> None)
                 (active_dims Instances.base1))
    by (repeat constructor; discriminate).
  destruct (Gibbs_cross_covariance_fails Instances.point0 Instances.base1
              (fun _ _ => TConst 1) None (TArr Instances.X3)
              (TArr Instances.Xu2) [[0]; [1]; [2]] [[0]; [2]] 3 2 1
              eq_refl H3 eq_refl H2 ltac:(discriminate) Hd
              ltac:(lia) ltac:(lia) ltac:(lia))
    as (fl & Hc & He).
  injection Hc as <-. exact He.
Defined.
(** ** The value of a sum and of a product of kernels *)

Lemma merge_factors_app (l1 l2 : list factor) X Xs diag :
  merge_factors (l1 ++ l2) X Xs diag
  = (vs1 <~ merge_factors l1 X Xs diag ;;
     vs2 <~ merge_factors l2 X Xs diag ;;
     Ok (vs1 ++ vs2)).
Proof.
  induction l1 as [|f l1 IH]; simpl.
  - destruct (merge_factors l2 X Xs diag); reflexivity.
  - destruct (merge_factor _ diag f) as [v|e]; [|reflexivity]. simpl.
    rewrite IH. destruct (merge_factors l1 X Xs diag) as [vs1|e];
      [|reflexivity]. simpl.
    destruct (merge_factors l2 X Xs diag); reflexivity.
Qed.

Lemma merge_factors_length (l : list factor) X Xs diag vs :
  merge_factors l X Xs diag = Ok vs -> length vs = length l.
Proof.
  revert vs. induction l as [|f l IH]; simpl; intros vs H.
  - injection H as <-. reflexivity.
  - destruct (merge_factor _ diag f) as [v|e]; [|discriminate]. simpl in H.
    destruct (merge_factors l X Xs diag) as [vs'|e]; [|discriminate].
    simpl in H. injection H as <-. simpl. rewrite (IH vs' eq_refl).
    reflexivity.
Qed.

Lemma reduce_snoc {A} (f : A -> A -> result A) (l : list A) (y : A) :
  l <> [] -> reduce f (l ++ [y]) = (r <~ reduce f l ;; f r y).
Proof.
  destruct l as [|x l]; [contradiction|]. intros _.
  unfold reduce. simpl. rewrite fold_left_app. reflexivity.
Qed.

Section Combined_value.
Variables (X : texp) (Xs : option texp) (diag : bool).
Variables (cls : combination_class) (k1 : Covariance) (other : factor)
          (v2 : pyval).
Hypothesis Hk1 : match cls, k1 with
                 | ClsAdd, Add _ fl | ClsProd, Prod _ fl => fl <> []
                 | _, _ => True
                 end.
Hypothesis Hother : Spec.nested_same cls other = false.
Hypothesis Hv2 :
  merge_factor (fun k => call k X Xs diag) diag other = Ok v2.

Lemma combined_call :
  exists b,
    Combination_init cls [FCov k1; other]
    = Ok (match cls with
          | ClsAdd => Add b (flatten_factor cls (FCov k1) ++ [other])
          | ClsProd => Prod b (flatten_factor cls (FCov k1) ++ [other])
          end) /\
    (vs <~ merge_factors (flatten_factor cls (FCov k1) ++ [other]) X Xs diag ;;
     reduce (match cls with ClsAdd => py_add | ClsProd => py_mul end) vs)
    = (v1 <~ call k1 X Xs diag ;;
       match cls with ClsAdd => py_add | ClsProd => py_mul end v1 v2).
Proof.
  assert (Hfl : flatten_factor cls other = [other]).
  { destruct cls, other as [[]| | |]; simpl in Hother;
      try discriminate; reflexivity. }
  unfold Combination_init. cbn [factor_input_dims flat_map].
  set (dims := _ ++ _).
  assert (Hd : exists z, np_max dims = Ok z).
  { unfold dims. simpl. eexists. reflexivity. }
  destruct Hd as [z Hz]. rewrite Hz. cbn [rbind Covariance_init].
  rewrite Hfl, app_nil_r. eexists. split; [destruct cls; reflexivity|].
  set (op := match cls with ClsAdd => py_add | ClsProd => py_mul end).
  assert (Hflat :
    forall fl, fl <> [] ->
      (vs <~ merge_factors (fl ++ [other]) X Xs diag ;; reduce op vs)
      = (v1 <~ (vs <~ merge_factors fl X Xs diag ;; reduce op vs) ;;
         op v1 v2)).
  { intros fl Hne. rewrite merge_factors_app. cbn [merge_factors].
    rewrite Hv2. cbn [rbind].
    destruct (merge_factors fl X Xs diag) as [vs1|e] eqn:E;
      [|reflexivity]. cbn [rbind]. apply reduce_snoc.
    intros ->. apply merge_factors_length in E.
    destruct fl; [contradiction | discriminate]. }
  assert (Hsingle :
    forall k, (vs <~ merge_factors ([FCov k] ++ [other]) X Xs diag ;;
               reduce op vs)
              = (v1 <~ call k X Xs diag ;; op v1 v2)).
  { intros k. cbn [app merge_factors merge_factor]. rewrite Hv2.
    destruct (call k X Xs diag) as [v1|e]; reflexivity. }
  destruct cls, k1; cbn [flatten_factor]; try apply Hsingle.
  - rewrite call_Add. apply Hflat. exact Hk1.
  - rewrite call_Prod. apply Hflat. exact Hk1.
Qed.

End Combined_value.

(** X11. [k1 + other] evaluates to the value of [k1] plus the operand:
    for a kernel [k1] (not a sum without terms) and an operand that is
    not itself a sum (a kernel, an array, a tensor or a number, taken on
    its diagonal with [diag=True]), the sum object exists and its call
    is Python's [+] of [k1 (X, Xs, diag)] and the operand, also when [k1]
    is a sum whose terms were merged into the new one; the value of the
    result is NumPy's sum of the two values. *)
Theorem sum_value (X : texp) (Xs : option texp) (diag : bool)
    (k1 : Covariance) (other : factor) (v2 : pyval) :
  match k1 with Add _ fl => fl <> [] | _ => True end ->
  Spec.nested_same ClsAdd other = false ->
  merge_factor (fun k => call k X Xs diag) diag other = Ok v2 ->
  exists s,
    __add__ k1 other = Ok s /\
    call s X Xs diag = (v1 <~ call k1 X Xs diag ;; py_add v1 v2) /\
    forall rho v1 v,
      call k1 X Xs diag = Ok v1 -> call s X Xs diag = Ok v ->
      eval_val rho v
      = (a <- eval_val rho v1 ;; b <- eval_val rho v2 ;; Np.add a b).
Proof.
  intros Hk1 Hother Hv2.
  destruct (combined_call X Xs diag ClsAdd k1 other v2 Hk1 Hother Hv2)
    as (b & Hinit & Hcall).
  eexists. split; [exact Hinit|].
  assert (Hc : call (Add b (flatten_factor ClsAdd (FCov k1) ++ [other]))
                 X Xs diag
               = (v1 <~ call k1 X Xs diag ;; py_add v1 v2))
    by (rewrite call_Add; exact Hcall).
  split; [exact Hc|].
  intros rho v1 v H1 Hv. rewrite Hc, H1 in Hv. cbn [rbind] in Hv.
  apply (eval_py_binop Np.add TAdd v1 v2 v rho); [|exact Hv].
  intros a c. reflexivity.
Qed.

(** The linear kernel plus the number 5 on two inputs. *)
Lemma sum_value_witness :
  exists s,
    __add__ Instances.k_linear (FNumber 5) = Ok s /\
    call s Instances.X2 None false
    = Ok (VTensor (TAdd (Linear_full Instances.base1 (TConst 0)
                           Instances.X2 None) (TConst 5))).
Proof.
  destruct (sum_value Instances.X2 None false Instances.k_linear (FNumber 5)
              (VNum 5) I eq_refl eq_refl) as (s & Hs & Hc & _).
  exists s. split; [exact Hs | exact Hc].
Defined.

(** X12. [k1 * other] evaluates to the value of [k1] times the operand:
    for a kernel [k1] (not a product without factors) and an operand
    that is not itself a product, the product object exists and its call
    is Python's [*] of [k1 (X, Xs, diag)] and the operand, also when [k1]
    is a product whose factors were merged into the new one; the value
    of the result is NumPy's broadcast product of the two values. *)
Theorem product_value (X : texp) (Xs : option texp) (diag : bool)
    (k1 : Covariance) (other : factor) (v2 : pyval) :
  match k1 with Prod _ fl => fl <> [] | _ => True end ->
  Spec.nested_same ClsProd other = false ->
  merge_factor (fun k => call k X Xs diag) diag other = Ok v2 ->
  exists s,
    __mul__ k1 other = Ok s /\
    call s X Xs diag = (v1 <~ call k1 X Xs diag ;; py_mul v1 v2) /\
    forall rho v1 v,
      call k1 X Xs diag = Ok v1 -> call s X Xs diag = Ok v ->
      eval_val rho v
      = (a <- eval_val rho v1 ;; b <- eval_val rho v2 ;; Np.mul a b).
Proof.
  intros Hk1 Hother Hv2.
  destruct (combined_call X Xs diag ClsProd k1 other v2 Hk1 Hother Hv2)
    as (b & Hinit & Hcall).
  eexists. split; [exact Hinit|].
  assert (Hc : call (Prod b (flatten_factor ClsProd (FCov k1) ++ [other]))
                 X Xs diag
               = (v1 <~ call k1 X Xs diag ;; py_mul v1 v2))
    by (rewrite call_Prod; exact Hcall).
  split; [exact Hc|].
  intros rho v1 v H1 Hv. rewrite Hc, H1 in Hv. cbn [rbind] in Hv.
  apply (eval_py_binop Np.mul TMul v1 v2 v rho); [|exact Hv].
  intros a c. reflexivity.
Qed.

(** The linear kernel times a two by two array, on the diagonal: the
    array enters by its diagonal. *)
Lemma product_value_witness :
  exists s,
    __mul__ Instances.k_linear (FNdarray (Mat [[1; 2]; [3; 4]])) = Ok s /\
    call s Instances.X2 None true
    = Ok (VTensor (TMul (Linear_diag Instances.base1 (TConst 0) Instances.X2)
                        (TArr (Vec [1; 4])))).
Proof.
  destruct (product_value Instances.X2 None true Instances.k_linear
              (FNdarray (Mat [[1; 2]; [3; 4]])) (VArr (Vec [1; 4]))
              I eq_refl eq_refl) as (s & Hs & Hc & _).
  exists s. split; [exact Hs | exact Hc].
Defined.
(** ** The values of [stabilize] *)

Lemma sum_n_add_const (n : nat) (f : nat -> R) (c : R) :
  sum_n n (fun i => f i + c) = sum_n n f + INR n * c.
Proof.
  unfold sum_n, tabulate. generalize O as s.
  induction n as [|n IH]; intros s.
  - simpl. lra.
  - rewrite S_INR. simpl. rewrite (IH (S s)). lra.
Qed.

Lemma trace_mat_tab (n : nat) (f : nat -> nat -> R) :
  trace (mat_tab n n f) = sum_n n (fun i => f i i).
Proof.
  unfold trace. rewrite nrows_mat_tab.
  destruct (Nat.eq_dec n 0) as [->|Hn]; [reflexivity|].
  rewrite ncols_mat_tab, Nat.min_id by lia.
  apply rsum_tabulate_ext. intros i Hi. apply get_mat_tab; exact Hi.
Qed.

Lemma trace_rect (n : nat) (k : list (list R)) :
  rect n n k -> trace k = sum_n n (fun i => get k i i).
Proof.
  intros H. rewrite (rect_eq_mat_tab n n k H) at 1. apply trace_mat_tab.
Qed.

(** X13. [stabilize] on a square matrix with at least one row, over the
    reals: the entries off the diagonal are unchanged, every diagonal
    entry grows by [1e-6 * trace / n], the trace is multiplied by
    [1 + 1e-6], a symmetric matrix stays symmetric, and a matrix of
    trace zero is returned as it is.  On a matrix without rows the
    division by [n] has no value. *)
Theorem stabilize_values (rho : env) (K : texp) (k : list (list R))
    (n : nat) :
  eval rho K = Some (Mat k) -> rect n n k ->
  ((0 < n)%nat ->
   exists s,
     eval rho (stabilize K) = Some (Mat s) /\ rect n n s /\
     (forall i j, (i < n)%nat -> (j < n)%nat -> i <> j ->
        get s i j = get k i j) /\
     (forall i, (i < n)%nat ->
        get s i i = get k i i + 1e-6 * (trace k / INR n)) /\
     trace s = (1 + 1e-6) * trace k /\
     (Spec.symmetric n k -> Spec.symmetric n s) /\
     (trace k = 0 -> s = k)) /\
  (n = 0%nat -> eval rho (stabilize K) = None).
Proof.
  intros HK Hrect. split.
  - intros Hn. exists (Spec.stabilized_entries n k).
    split; [apply (eval_stabilize rho K k n HK Hrect Hn)|].
    unfold Spec.stabilized_entries.
    split; [apply rect_mat_tab|]. split; [|split; [|split; [|split]]].
    + intros i j Hi Hj Hij. rewrite get_mat_tab by assumption.
      destruct (Nat.eqb_spec i j); [contradiction|]. lra.
    + intros i Hi. rewrite get_mat_tab by assumption.
      rewrite Nat.eqb_refl. lra.
    + rewrite trace_mat_tab.
      rewrite (rsum_tabulate_ext n _
                 (fun i => get k i i + 1e-6 * (trace k / INR n))).
      * rewrite sum_n_add_const, <- (trace_rect n k Hrect).
        assert (INR n <> 0) by (apply INR_pos_neq; exact Hn).
        field. assumption.
      * intros i _. rewrite Nat.eqb_refl. lra.
    + intros Hsym i j Hi Hj. rewrite !get_mat_tab by assumption.
      rewrite (Hsym i j Hi Hj), (Nat.eqb_sym j i). reflexivity.
    + intros Ht. transitivity (mat_tab n n (get k));
        [|symmetry; apply rect_eq_mat_tab; exact Hrect].
      apply mat_tab_ext. intros i j _ _. rewrite Ht.
      unfold Rdiv. rewrite Rmult_0_l, Rmult_0_r, Rmult_0_l. lra.
  - intros ->. destruct Hrect as [Hrows _].
    unfold stabilize. cbn [eval]. rewrite HK. cbn [obind shape0].
    unfold nrows. rewrite Hrows. cbn [div bop option_map INR]. unfold rdiv.
    destruct (Req_dec_T 0 0) as [_|Hc]; [|contradiction]. reflexivity.
Qed.

(** A two by two matrix of trace 4. *)
Lemma stabilize_values_witness :
  exists s,
    eval Instances.point0 (stabilize (TArr (Mat [[1; 2]; [2; 3]])))
    = Some (Mat s) /\
    trace s = (1 + 1e-6) * trace [[1; 2]; [2; 3]] /\
    get s 0 1 = 2.
Proof.
  assert (Hr : rect 2 2 [[1; 2]; [2; 3]])
    by (split; [reflexivity | repeat constructor]).
  destruct (proj1 (stabilize_values Instances.point0
                     (TArr (Mat [[1; 2]; [2; 3]])) [[1; 2]; [2; 3]] 2
                     eq_refl Hr) ltac:(lia))
    as (s & He & _ & Hoff & _ & Ht & _ & _).
  exists s. split; [exact He|]. split; [exact Ht|].
  apply (Hoff 0%nat 1%nat); lia.
Defined.
(** ** The constructor [GP]: arguments, precedence and errors *)

Lemma upper_ascii_idem (c : ascii) : upper_ascii (upper_ascii c) = upper_ascii c.
Proof. destruct c as [[] [] [] [] [] [] [] []]; reflexivity. Qed.

Lemma upper_idem (s : string) : upper (upper s) = upper s.
Proof.
  induction s as [|c s IH]; simpl; [reflexivity|].
  rewrite upper_ascii_idem, IH. reflexivity.
Qed.

Section GP_arguments.
Variables (Zero : Mean) (np_std0 : ndarray -> ndarray)
          (kmeans : ndarray -> Z -> result ndarray)
          (context : list string).

(** X14. The constructor checks its arguments before it touches the
    model.  Without a model (none given, none in the context) it raises
    [TypeError]; with one, a [mean_func] that is not a [Mean], a missing
    [cov_func] and a [cov_func] that is not a [Covariance] raise
    [GPValueError], whatever the other arguments; in each case no
    variable is added to the model and no [cholesky] is built. *)
Theorem GP_argument_errors name X mean_func cov_func cov_func_noise sigma
    approx n_inducing inducing_points observed model w :
  (modelcontext context model = Raise TypeError ->
   GP Zero np_std0 kmeans context name X mean_func cov_func cov_func_noise sigma approx n_inducing
      inducing_points observed model w = (Raise TypeError, w)) /\
  (forall md, modelcontext context model = Ok md ->
   mean_func = Some NotMean \/ cov_func = None \/ cov_func = Some NotCov ->
   GP Zero np_std0 kmeans context name X mean_func cov_func cov_func_noise sigma approx n_inducing
      inducing_points observed model w = (Raise GPValueError, w)).
Proof.
  split.
  - intros Hm. unfold GP, bind, lift. rewrite Hm. reflexivity.
  - intros md Hm H. unfold GP, bind, lift. rewrite Hm.
    destruct H as [->|[->| ->]]; [reflexivity| |];
      destruct mean_func as [[m|]|]; reflexivity.
Qed.

(** X15. With observed data and none of [approx], [n_inducing],
    [inducing_points], the constructor builds the full conjugate GP.
    Without [sigma] and without [cov_func_noise] it raises
    [GPValueError].  A [cov_func_noise] is used as it is and [sigma] is
    then ignored.  With [sigma] alone the noise function gives
    [sigma^2 * eye (n)], the very graph a white noise kernel of that
    [sigma] gives.  On success exactly one variable is added to the
    model: the observed variable that is returned. *)
Theorem GP_full_conjugate name X mean_func m k cov_func_noise sigma obs
    model md w :
  modelcontext context model = Ok md ->
  Spec.mean_of Zero mean_func = Some m ->
  let r := GP Zero np_std0 kmeans context name X mean_func (Some (IsCov k)) cov_func_noise sigma
              None None None (Some obs) model w in
  match cov_func_noise, sigma with
  | None, None => r = (Raise GPValueError, w)
  | Some kn, _ =>
      let rv := ObservedRV name
                  (GPDist (Full (GPFullConjugate_init (tensor_of_X X) m k kn)))
                  obs in
      r = (Ok rv, {| model_vars := model_vars w ++ [rv];
                     info_log := info_log w;
                     chol_calls := chol_calls w |})
  | None, Some s =>
      exists f,
        let rv := ObservedRV name
                    (GPDist (Full (GPFullConjugate_init (tensor_of_X X) m k
                                     (NoiseLambda f))))
                    obs in
        r = (Ok rv, {| model_vars := model_vars w ++ [rv];
                       info_log := info_log w;
                       chol_calls := chol_calls w |}) /\
        forall b Xt w',
          Kn_call (NoiseLambda f) Xt w'
          = Kn_call (NoiseCov (WhiteNoise b s)) Xt w'
  end.
Proof.
  intros Hm Hmean r. subst r. unfold GP, bind, lift. rewrite Hm.
  assert (Hmf : match mean_func with
                | None => ret Zero
                | Some (IsMean m0) => ret m0
                | Some NotMean => raise GPValueError
                end w = (Ok m, w)).
  { destruct mean_func as [[m0|]|]; simpl in Hmean;
      try discriminate; injection Hmean as <-; reflexivity. }
  rewrite Hmf. cbn [ret is_None andb].
  destruct cov_func_noise as [kn|], sigma as [s|]; try reflexivity.
  eexists. split; [reflexivity|]. intros b Xt w'. reflexivity.
Qed.

(** X16. The name of the approximation is matched without regard to
    case: the constructor gives the same result for [approx] and for
    [approx.upper ()].  A name that is neither ['VFE'] nor ['FITC']
    after that always raises, and it raises [GPValueError] with the
    model untouched when inducing points are given or [n_inducing] is
    absent (so that k-means does not run first). *)
Theorem GP_approx_name name X mean_func m k cov_func_noise sigma s
    n_inducing inducing_points obs model md w :
  modelcontext context model = Ok md ->
  Spec.mean_of Zero mean_func = Some m ->
  GP Zero np_std0 kmeans context name X mean_func (Some (IsCov k)) cov_func_noise sigma (Some s)
     n_inducing inducing_points (Some obs) model w
  = GP Zero np_std0 kmeans context name X mean_func (Some (IsCov k)) cov_func_noise sigma
       (Some (upper s)) n_inducing inducing_points (Some obs) model w /\
  (upper s <> "VFE"%string -> upper s <> "FITC"%string ->
   (exists e w',
      GP Zero np_std0 kmeans context name X mean_func (Some (IsCov k)) cov_func_noise sigma (Some s)
         n_inducing inducing_points (Some obs) model w = (Raise e, w')) /\
   (inducing_points <> None \/ n_inducing = None ->
    GP Zero np_std0 kmeans context name X mean_func (Some (IsCov k)) cov_func_noise sigma (Some s)
       n_inducing inducing_points (Some obs) model w
    = (Raise GPValueError, w))).
Proof.
  intros Hm Hmean. split.
  - unfold GP. cbn [is_None andb]. rewrite upper_idem. reflexivity.
  - intros HV HF. unfold GP, bind, lift. rewrite Hm.
    assert (Hmf : match mean_func with
                  | None => ret Zero
                  | Some (IsMean m0) => ret m0
                  | Some NotMean => raise GPValueError
                  end w = (Ok m, w)).
    { destruct mean_func as [[m0|]|]; simpl in Hmean;
        try discriminate; injection Hmean as <-; reflexivity. }
    rewrite Hmf. cbn [ret is_None andb].
    apply String.eqb_neq in HV. apply String.eqb_neq in HF.
    split.
    + destruct inducing_points as [ip|]; [|destruct n_inducing as [n|]];
        cbn [ret lift bind fst snd].
      * rewrite HV, HF. do 2 eexists. reflexivity.
      * destruct (kmeans_inducing np_std0 kmeans X n) as [[X' ip]|e];
          cbn [fst snd]; [rewrite HV, HF|]; do 2 eexists; reflexivity.
      * rewrite HV, HF. do 2 eexists. reflexivity.
    + intros [Hip| ->].
      * destruct inducing_points as [ip|]; [|contradiction].
        cbn [ret]. rewrite HV, HF. reflexivity.
      * destruct inducing_points as [ip|]; cbn [ret];
          rewrite HV, HF; reflexivity.
Qed.

(** X17. With observed data, an approximation named ['VFE'] or ['FITC']
    (in any case) and inducing points given, the constructor builds the
    sparse conjugate GP over these points: [n_inducing] and
    [cov_func_noise] are ignored, and the noise comes from [sigma]
    alone, so that a missing [sigma] raises [TypeError] even when
    [cov_func_noise] is given.  With neither inducing points nor
    [n_inducing] it raises [GPValueError]. *)
Theorem GP_sparse_conjugate name X mean_func m k cov_func_noise sigma s
    n_inducing ip obs model md w :
  modelcontext context model = Ok md ->
  Spec.mean_of Zero mean_func = Some m ->
  upper s = "VFE"%string \/ upper s = "FITC"%string ->
  match sigma with
  | None =>
      GP Zero np_std0 kmeans context name X mean_func (Some (IsCov k)) cov_func_noise sigma (Some s)
         n_inducing (Some ip) (Some obs) model w = (Raise TypeError, w)
  | Some sg =>
      let g := {| sc_X := tensor_of_X X; sc_nf := TShape0 (tensor_of_X X);
                  sc_K := k; sc_m := m;
                  sc_mean := mean_call m (tensor_of_X X);
                  sc_sigma2 := TSquare sg; sc_approx := upper s;
                  sc_Xu := TArr ip; sc_nu := TShape0 (TArr ip) |} in
      let rv := ObservedRV name (GPDist (Sparse g)) obs in
      GP Zero np_std0 kmeans context name X mean_func (Some (IsCov k)) cov_func_noise sigma (Some s)
         n_inducing (Some ip) (Some obs) model w
      = (Ok rv, {| model_vars := model_vars w ++ [rv];
                   info_log := info_log w;
                   chol_calls := chol_calls w |})
  end /\
  GP Zero np_std0 kmeans context name X mean_func (Some (IsCov k)) cov_func_noise sigma (Some s)
     None None (Some obs) model w = (Raise GPValueError, w).
Proof.
  intros Hm Hmean Hs.
  assert (Hb : negb (String.eqb (upper s) "VFE"
                     || String.eqb (upper s) "FITC") = false).
  { destruct Hs as [-> | ->]; reflexivity. }
  assert (Hmf : match mean_func with
                | None => ret Zero
                | Some (IsMean m0) => ret m0
                | Some NotMean => raise GPValueError
                end w = (Ok m, w)).
  { destruct mean_func as [[m0|]|]; simpl in Hmean;
      try discriminate; injection Hmean as <-; reflexivity. }
  split.
  - unfold GP, bind, lift. rewrite Hm, Hmf. cbn [ret is_None andb].
    rewrite Hb. cbn [is_None andb].
    destruct sigma as [sg|]; reflexivity.
  - unfold GP, bind, lift. rewrite Hm, Hmf. cbn [ret is_None andb].
    rewrite Hb. reflexivity.
Qed.

End GP_arguments.

(** A call without a covariance function. *)
Lemma GP_argument_errors_witness :
  GP Instances.Zero Instances.np_std0 Instances.kmeans Instances.context
     "f" (XArray Instances.X3) None None None (Some (TConst 1)) None None
     None (Some Instances.y3) None world0
  = (Raise GPValueError, world0).
Proof.
  apply (proj2 (GP_argument_errors Instances.Zero Instances.np_std0
                  Instances.kmeans Instances.context "f"
                  (XArray Instances.X3) None None None (Some (TConst 1))
                  None None None (Some Instances.y3) None world0)
           "model"%string eq_refl).
  right. left. reflexivity.
Defined.

(** A full conjugate GP from [sigma] alone. *)
Lemma GP_full_conjugate_witness :
  exists rv w',
    GP Instances.Zero Instances.np_std0 Instances.kmeans Instances.context
       "f" (XArray Instances.X3) None (Some (IsCov Instances.k_expquad))
       None (Some (TConst 2)) None None None (Some Instances.y3) None world0
    = (Ok rv, w') /\
    model_vars w' = [rv].
Proof.
  destruct (GP_full_conjugate Instances.Zero Instances.np_std0
              Instances.kmeans Instances.context "f" (XArray Instances.X3)
              None Instances.Zero Instances.k_expquad None (Some (TConst 2))
              Instances.y3 None "model"%string world0 eq_refl eq_refl)
    as (f & Hr & _).
  do 2 eexists. split; [exact Hr | reflexivity].
Defined.

(** The name in lower case, and a name that is not implemented. *)
Lemma GP_approx_name_witness :
  GP Instances.Zero Instances.np_std0 Instances.kmeans Instances.context
     "f" (XArray Instances.X3) None (Some (IsCov Instances.k_expquad))
     None (Some (TConst 1)) (Some "fitc"%string) None (Some Instances.Xu2)
     (Some Instances.y3) None world0
  = GP Instances.Zero Instances.np_std0 Instances.kmeans Instances.context
       "f" (XArray Instances.X3) None (Some (IsCov Instances.k_expquad))
       None (Some (TConst 1)) (Some "FITC"%string) None (Some Instances.Xu2)
       (Some Instances.y3) None world0 /\
  GP Instances.Zero Instances.np_std0 Instances.kmeans Instances.context
     "f" (XArray Instances.X3) None (Some (IsCov Instances.k_expquad))
     None (Some (TConst 1)) (Some "dtc"%string) None (Some Instances.Xu2)
     (Some Instances.y3) None world0
  = (Raise GPValueError, world0).
Proof.
  split.
  - exact (proj1 (GP_approx_name Instances.Zero Instances.np_std0
                    Instances.kmeans Instances.context "f"
                    (XArray Instances.X3) None Instances.Zero
                    Instances.k_expquad None (Some (TConst 1)) "fitc" None
                    (Some Instances.Xu2) Instances.y3 None "model"%string
                    world0 eq_refl eq_refl)).
  - apply (proj2 (GP_approx_name Instances.Zero Instances.np_std0
                    Instances.kmeans Instances.context "f"
                    (XArray Instances.X3) None Instances.Zero
                    Instances.k_expquad None (Some (TConst 1)) "dtc" None
                    (Some Instances.Xu2) Instances.y3 None "model"%string
                    world0 eq_refl eq_refl));
      [discriminate | discriminate | left; discriminate].
Defined.

(** A sparse GP named in lower case, with a noise kernel but no
    [sigma]. *)
Lemma GP_sparse_conjugate_witness :
  GP Instances.Zero Instances.np_std0 Instances.kmeans Instances.context
     "f" (XArray Instances.X3) None (Some (IsCov Instances.k_expquad))
     (Some (NoiseCov (WhiteNoise Instances.base1 (TConst 1)))) None
     (Some "vfe"%string) None (Some Instances.Xu2) (Some Instances.y3)
     None world0
  = (Raise TypeError, world0).
Proof.
  exact (proj1 (GP_sparse_conjugate Instances.Zero Instances.np_std0
                  Instances.kmeans Instances.context "f"
                  (XArray Instances.X3) None Instances.Zero
                  Instances.k_expquad
                  (Some (NoiseCov (WhiteNoise Instances.base1 (TConst 1))))
                  None "vfe" None Instances.Xu2 Instances.y3 None
                  "model"%string world0 eq_refl eq_refl
                  (or_introl eq_refl))).
Defined.
(** ** The non-conjugate conditional and the property [RV] *)

(** X18. [conditional] of the non-conjugate GP reads the attribute [v],
    which only the property [RV] sets: on a freshly built object it
    raises [AttributeError], also when [v] is passed by keyword; on the
    object [RV] has been taken from, and for kernel calls that succeed,
    it returns a mean built on the rotated variable [<name>_rotated_]
    and a stabilized covariance, ignoring [y] and [obs_noise]. *)
Theorem nonconjugate_conditional_needs_RV (name : string) (X : texp)
    (m : Mean) (k : Covariance) :
  let g := GPFullNonConjugate_init name X m k in
  (forall Xs v_kw w,
     GPFullNonConjugate_conditional g Xs v_kw w = (Raise AttributeError, w)) /\
  (forall w f g' w',
     GPFullNonConjugate_RV g w = (Ok (f, g'), w') ->
     forall Xs y obs_noise Kxx Kxs Kss w1,
       call k X None false = Ok Kxx ->
       call k X (Some Xs) false = Ok Kxs ->
       call k Xs None false = Ok Kss ->
       let A := solve_lower
                  (TCholesky (stabilize (as_tensor_variable Kxx)))
                  (as_tensor_variable Kxs) in
       exists w2,
         conditional (NonConj g') Xs y obs_noise w1
         = (Ok (TAdd (mean_call m Xs)
                  (TDot (TTranspose A) (TVar (name ++ "_rotated_") 1)),
                stabilize (TSub (as_tensor_variable Kss)
                             (TDot (TTranspose A) A))),
            w2)).
Proof.
  intros g. split.
  - intros Xs v_kw w. reflexivity.
  - intros w f g' w' HRV Xs y obs_noise Kxx Kxs Kss w1 Hxx Hxs Hss A.
    assert (Hg : g' = {| nc_name := name; nc_X := X; nc_nf := TShape0 X;
                         nc_K := k; nc_m := m; nc_mean := mean_call m X;
                         nc_v := Some (TVar (name ++ "_rotated_") 1) |}).
    { revert HRV. subst g.
      unfold GPFullNonConjugate_RV, GPFullNonConjugate_init, bind, register,
        cholesky, K_call, bind, lift, ret. simpl. rewrite Hxx. simpl.
      intros H. inversion H. reflexivity. }
    subst g'. eexists.
    unfold conditional, GPFullNonConjugate_conditional, bind, cholesky,
      K_call, bind, lift, ret. simpl. rewrite Hxx, Hxs, Hss. simpl.
    destruct y; reflexivity.
Qed.

(** The exponentiated quadratic kernel over three points, conditioned
    on two others after [RV]. *)
Lemma nonconjugate_conditional_needs_RV_witness :
  exists f g' w',
    GPFullNonConjugate_RV
      (GPFullNonConjugate_init "f" (TArr Instances.X3) Instances.Zero
         Instances.k_expquad) world0 = (Ok (f, g'), w') /\
    exists mean cov w2,
      conditional (NonConj g') (TArr Instances.Xu2) None false world0
      = (Ok (mean, stabilize cov), w2).
Proof.
  eassert (E : GPFullNonConjugate_RV
                 (GPFullNonConjugate_init "f" (TArr Instances.X3)
                    Instances.Zero Instances.k_expquad) world0
               = (Ok (_, _), _))
    by (unfold GPFullNonConjugate_RV, bind, register, cholesky, K_call, bind,
          lift, ret; simpl; reflexivity).
  destruct (nonconjugate_conditional_needs_RV "f" (TArr Instances.X3)
              Instances.Zero Instances.k_expquad) as [_ H].
  do 3 eexists. split; [exact E|].
  destruct (H _ _ _ _ E (TArr Instances.Xu2) None false _ _ _ world0
              eq_refl eq_refl eq_refl) as [w2 Hc].
  do 3 eexists. exact Hc.
Defined.

(** ** What the methods leave alone *)

Lemma preserves_ret {A} (a : A) : Spec.preserves (ret a).
Proof. intros w. split; reflexivity. Qed.

Lemma preserves_raise {A} (e : exn) : Spec.preserves (@raise A e).
Proof. intros w. split; reflexivity. Qed.

Lemma preserves_lift {A} (r : result A) : Spec.preserves (lift r).
Proof. intros w. split; reflexivity. Qed.

Lemma preserves_cholesky (a : texp) : Spec.preserves (cholesky a).
Proof. intros w. split; reflexivity. Qed.

Lemma preserves_bind {A B} (c : M A) (k : A -> M B) :
  Spec.preserves c -> (forall a, Spec.preserves (k a)) ->
  Spec.preserves (bind c k).
Proof.
  intros Hc Hk w. unfold bind. specialize (Hc w).
  destruct (c w) as [[a|e] w1]; simpl in Hc.
  - destruct (Hk a w1) as [H1 H2]. destruct Hc as [H3 H4].
    split; congruence.
  - exact Hc.
Qed.

Lemma preserves_K_call K X Xs d : Spec.preserves (K_call K X Xs d).
Proof.
  unfold K_call. apply preserves_bind; [apply preserves_lift|].
  intros v. apply preserves_ret.
Qed.

Lemma preserves_Kn_call Kn X : Spec.preserves (Kn_call Kn X).
Proof.
  destruct Kn; [apply preserves_K_call | apply preserves_ret].
Qed.

Ltac frame :=
  repeat first
    [ apply preserves_ret | apply preserves_raise | apply preserves_lift
    | apply preserves_cholesky | apply preserves_K_call
    | apply preserves_Kn_call
    | apply preserves_bind; [|intros ?]
    | match goal with
      | |- Spec.preserves (if ?b then _ else _) => destruct b
      | |- Spec.preserves (let '(_, _) := ?p in _) => destruct p
      | |- Spec.preserves (match ?x with _ => _ end) => destruct x
      end ].

Lemma preserves_prior (o : gp_object) (obs_noise : bool) :
  Spec.preserves (prior o obs_noise).
Proof.
  destruct o as [g|g|g]; cbn [prior];
    [ | unfold GPFullConjugate_prior | unfold GPSparseConjugate_prior ];
    frame.
Qed.

Lemma preserves_conditional (o : gp_object) Xs y obs_noise :
  Spec.preserves (conditional o Xs y obs_noise).
Proof.
  destruct o as [g|g|g], y as [y|]; cbn [conditional];
    try unfold GPFullNonConjugate_conditional;
    try unfold GPFullConjugate_conditional;
    try unfold GPSparseConjugate_conditional;
    frame.
Qed.

Lemma preserves_logp (o : gp_object) (y : texp) :
  Spec.preserves (logp o y).
Proof.
  destruct o as [g|g|g]; unfold logp; cbn [class_of resolve];
    cbn; try unfold GPBase_logp; try unfold GPFullConjugate_logp;
    try unfold GPSparseConjugate_logp; frame.
Qed.

Section Sampling.
Variable np_random_seed : Z -> rng.
Variable mvn_rvs : rng -> ndarray -> ndarray -> result ndarray * rng.
Variable context : list string.

Lemma preserves_random o pt X_values obs_noise y from_prior g :
  Spec.preserves (random mvn_rvs o pt X_values obs_noise y from_prior g).
Proof.
  unfold random. apply preserves_bind.
  - destruct from_prior; [apply preserves_prior | apply preserves_conditional].
  - intros [mean cov].
    destruct (eval pt mean), (eval pt cov); try apply preserves_raise.
    destruct (mvn_rvs g n n0) as [[s|e] g'];
      [apply preserves_ret | apply preserves_raise].
Qed.

Lemma preserves_sample_loop tr gp X_values obs_noise y from_prior interrupt
    indices :
  forall i g,
    Spec.preserves (sample_loop mvn_rvs tr gp X_values obs_noise y from_prior
                      interrupt indices i g).
Proof.
  induction indices as [|ix rest IH]; intros i g; cbn [sample_loop].
  - apply preserves_ret.
  - destruct (match interrupt with
              | Some k => (k =? i)%nat
              | None => false
              end); [apply preserves_ret|].
    destruct (rv_distribution gp) as [o|]; [|apply preserves_raise].
    destruct (nth_error tr ix) as [pt|]; [|apply preserves_raise].
    apply preserves_bind; [apply preserves_random|].
    intros [s g']. apply preserves_bind; [apply IH|].
    intros samples. apply preserves_ret.
Qed.

(** X19. Sampling and the three methods never touch the model: whatever
    they return or raise, [prior], [conditional], [logp] and [sample_gp]
    leave the variables of the model and the log as they were. *)
Theorem model_untouched (o : gp_object) (Xs yt : texp) (y : option texp)
    (b : bool) (tr : list GP.point) (gp : RV) (n_samples : option Z)
    (from_prior : bool) (model : option string) (random_seed : option Z)
    (progressbar : bool) (interrupt : option nat) (g : rng) (w : world) :
  Spec.same_model w (snd (prior o b w)) /\
  Spec.same_model w (snd (conditional o Xs y b w)) /\
  Spec.same_model w (snd (logp o yt w)) /\
  Spec.same_model w
    (snd (sample_gp np_random_seed mvn_rvs context tr gp Xs n_samples b
            from_prior model random_seed progressbar interrupt g w)).
Proof.
  split; [apply preserves_prior|]. split; [apply preserves_conditional|].
  split; [apply preserves_logp|].
  revert w. change (Spec.preserves
    (sample_gp np_random_seed mvn_rvs context tr gp Xs n_samples b
       from_prior model random_seed progressbar interrupt g)).
  unfold sample_gp. apply preserves_bind; [apply preserves_lift|].
  intros md.
  destruct (sample_gp_indices np_random_seed (length tr) n_samples
              random_seed g) as [[indices|e] g']; [|apply preserves_raise].
  apply preserves_bind; [|intros y0; apply preserves_sample_loop].
  destruct gp; try apply preserves_ret.
  intros w. split; reflexivity.
Qed.

End Sampling.

(** ** The loop of [sample_gp] *)

Lemma choice_length (g g' : rng) (n : nat) (size : Z) (idx : list nat) :
  np_random_choice_noreplace g n size = (Ok idx, g') ->
  length idx = Z.to_nat size /\ (0 <= size <= Z.of_nat n)%Z /\
  Forall (fun i => (i < n)%nat) idx.
Proof.
  intros H.
  assert (Hn : (0 < n)%nat /\ (0 <= size <= Z.of_nat n)%Z).
  { unfold np_random_choice_noreplace in H.
    destruct (Nat.eqb_spec n 0) as [|Hn]; [discriminate|].
    destruct (Z.ltb_spec size 0) as [|H0]; [discriminate|].
    destruct (Z.ltb_spec (Z.of_nat n) size) as [|H1]; [discriminate|].
    lia. }
  destruct Hn as [Hn Hs].
  destruct (choice_ok g n size Hn Hs) as (idx' & Hi & _ & Hl & Hf).
  rewrite H in Hi. injection Hi as <-.
  split; [assumption|]. split; assumption.
Qed.

Section Sample_loop.
Variable np_random_seed : Z -> rng.
Variable mvn_rvs : rng -> ndarray -> ndarray -> result ndarray * rng.
Variable context : list string.
Variables (tr : list GP.point) (gp : RV) (X_values : texp)
          (obs_noise : bool) (y : option texp) (from_prior : bool).

Lemma sample_loop_interrupt_from (k : nat) (indices : list nat) :
  forall i g w,
    (i <= k)%nat ->
    sample_loop mvn_rvs tr gp X_values obs_noise y from_prior (Some k)
      indices i g w
    = sample_loop mvn_rvs tr gp X_values obs_noise y from_prior None
        (firstn (k - i) indices) i g w.
Proof.
  induction indices as [|ix rest IH]; intros i g w Hi.
  - rewrite firstn_nil. reflexivity.
  - cbn [sample_loop]. destruct (Nat.eqb_spec k i) as [->|Hne].
    + rewrite Nat.sub_diag. reflexivity.
    + replace (k - i)%nat with (S (k - S i)) by lia.
      cbn [firstn sample_loop].
      destruct (rv_distribution gp) as [o|]; [|reflexivity].
      destruct (nth_error tr ix) as [pt|]; [|reflexivity].
      unfold bind.
      destruct (random mvn_rvs o pt X_values obs_noise y from_prior g w)
        as [[[s g']|e] w1]; [|reflexivity].
      rewrite (IH (S i) g' w1) by lia. reflexivity.
Qed.

Lemma sample_loop_length (indices : list nat) :
  forall i g w samples w',
    sample_loop mvn_rvs tr gp X_values obs_noise y from_prior None
      indices i g w = (Ok samples, w') ->
    length samples = length indices.
Proof.
  induction indices as [|ix rest IH]; intros i g w samples w';
    cbn [sample_loop].
  - intros H. injection H as <- _. reflexivity.
  - destruct (rv_distribution gp) as [o|]; [|discriminate].
    destruct (nth_error tr ix) as [pt|]; [|discriminate].
    unfold bind.
    destruct (random mvn_rvs o pt X_values obs_noise y from_prior g w)
      as [[[s g']|e] w1]; [|discriminate].
    destruct (sample_loop mvn_rvs tr gp X_values obs_noise y from_prior None
                rest (S i) g' w1) as [[ss|e] w2] eqn:E; [|discriminate].
    intros H. injection H as <- _. simpl.
    rewrite (IH _ _ _ _ _ E). reflexivity.
Qed.

(** X20. An interrupt from the keyboard after [k] completed iterations
    leaves the loop of [sample_gp] with what an undisturbed loop over
    the first [k] indices gives: the same samples or the same exception,
    and the same state. *)
Theorem sample_loop_interrupt (k : nat) (indices : list nat) (g : rng)
    (w : world) :
  sample_loop mvn_rvs tr gp X_values obs_noise y from_prior (Some k)
    indices 0 g w
  = sample_loop mvn_rvs tr gp X_values obs_noise y from_prior None
      (firstn k indices) 0 g w.
Proof.
  rewrite (sample_loop_interrupt_from k indices 0 g w) by lia.
  rewrite Nat.sub_0_r. reflexivity.
Qed.

End Sample_loop.

Section Sample_gp.
Variable np_random_seed : Z -> rng.
Variable mvn_rvs : rng -> ndarray -> ndarray -> result ndarray * rng.
Variable context : list string.

(** X21. When [sample_gp] returns, it returns one sample for each
    requested trace entry ([n_samples], by default the length of the
    trace), or, after an interrupt, one for each iteration that was
    completed. *)
Theorem sample_gp_count (tr : list GP.point) (gp : RV) (X_values : texp)
    (n_samples : option Z) (obs_noise from_prior : bool)
    (model : option string) (random_seed : option Z) (progressbar : bool)
    (interrupt : option nat) (g : rng) (w w' : world)
    (samples : list ndarray) :
  sample_gp np_random_seed mvn_rvs context tr gp X_values n_samples
    obs_noise from_prior model random_seed progressbar interrupt g w
  = (Ok samples, w') ->
  let n := Z.to_nat (Spec.requested (length tr) n_samples) in
  (n <= length tr)%nat /\
  length samples = match interrupt with
                   | None => n
                   | Some k => Nat.min k n
                   end.
Proof.
  unfold sample_gp, bind, lift.
  destruct (modelcontext context model) as [md|e]; [|discriminate].
  destruct (sample_gp_indices np_random_seed (length tr) n_samples
              random_seed g) as [[indices|e] g'] eqn:Ei; [|discriminate].
  unfold sample_gp_indices in Ei. apply choice_length in Ei.
  fold (Spec.requested (length tr) n_samples) in Ei.
  destruct Ei as (Hlen & Hsize & Hrange).
  set (yv := match gp with ObservedRV _ _ _ => _ | _ => _ end).
  destruct (yv w) as [[y|e] w1]; [|discriminate]. clear yv.
  intros H. split; [lia|].
  destruct interrupt as [k|].
  - rewrite sample_loop_interrupt_from in H by lia.
    rewrite Nat.sub_0_r in H.
    apply sample_loop_length in H. rewrite H, length_firstn, Hlen.
    reflexivity.
  - apply sample_loop_length in H. rewrite H. exact Hlen.
Qed.

End Sample_gp.

(** Two draws from the prior of a full conjugate GP over a trace of
    three points. *)
Lemma sample_gp_count_witness :
  exists samples w',
    sample_gp Instances.np_random_seed Instances.mvn_rvs Instances.context
      Instances.trace3
      (Deterministic "f" (TConst 0) (Some (Full Instances.full1)))
      Instances.Xs1 (Some 2%Z) false true None None true None
      Instances.rng0 world0 = (Ok samples, w') /\
    length samples = 2%nat.
Proof.
  assert (Hcov : exists c,
            eval Instances.point0 (stabilize Instances.Kxx1)
            = Some (Mat [[c]])).
  { eexists. crunch. reflexivity. }
  destruct Hcov as [c Hcov].
  assert (Hrand : forall g w,
            random Instances.mvn_rvs (Full Instances.full1) Instances.point0
              Instances.Xs1 false None true g w
            = (Ok (Vec [0], {| draws := draws g; pos := S (pos g) |}), w)).
  { intros g w. unfold random, prior, GPFullConjugate_prior, bind, K_call,
      bind, lift, ret. cbn [call Instances.full1 GPFullConjugate_init fc_K
      fc_X fc_m Instances.k_linear as_tensor_variable].
    fold Instances.X1. fold Instances.Kxx1. rewrite Hcov. reflexivity. }
  assert (Hidx : exists i j g',
            sample_gp_indices Instances.np_random_seed
              (length Instances.trace3) (Some 2%Z) None Instances.rng0
            = (Ok [i; j], g') /\ (i < 3)%nat /\ (j < 3)%nat).
  { do 3 eexists. split; [vm_compute; reflexivity|]. split; lia. }
  destruct Hidx as (i & j & g' & Hidx & Hi & Hj).
  assert (E : exists w',
            sample_gp Instances.np_random_seed Instances.mvn_rvs
              Instances.context Instances.trace3
              (Deterministic "f" (TConst 0) (Some (Full Instances.full1)))
              Instances.Xs1 (Some 2%Z) false true None None true None
              Instances.rng0 world0 = (Ok [Vec [0]; Vec [0]], w')).
  { unfold sample_gp, bind, lift. cbn [modelcontext Instances.context].
    rewrite Hidx. cbn [ret sample_loop rv_distribution].
    assert (Hn : forall ix, (ix < 3)%nat ->
              nth_error Instances.trace3 ix = Some Instances.point0).
    { intros [|[|[|ix]]] H; try reflexivity; lia. }
    rewrite (Hn i Hi), (Hn j Hj). unfold bind. rewrite !Hrand.
    eexists. reflexivity. }
  destruct E as [w' E].
  destruct (sample_gp_count Instances.np_random_seed Instances.mvn_rvs
              Instances.context Instances.trace3 _ _ _ _ _ _ _ _ _ _ _ _ _
              E) as [_ Hl].
  do 2 eexists. split; [exact E | exact Hl].
Defined.

Section Sample_gp_more.
Variable np_random_seed : Z -> rng.
Variable mvn_rvs : rng -> ndarray -> ndarray -> result ndarray * rng.
Variable context : list string.

(** X22. Sampling from the prior of a non-conjugate GP raises
    [TypeError]: [random] passes [obs_noise] to [prior], which in this
    class takes no argument.  This happens in the first iteration,
    whenever at least one sample is requested from a trace that is long
    enough and the loop is not interrupted before it starts. *)
Theorem sample_gp_nonconjugate_prior_raises (tr : list GP.point)
    (name : string) (value : texp) (g0 : GPFullNonConjugate)
    (X_values : texp) (n_samples : option Z) (obs_noise : bool)
    (model : option string) (md : string) (random_seed : option Z)
    (progressbar : bool) (interrupt : option nat) (g : rng) (w : world) :
  modelcontext context model = Ok md ->
  (0 < Spec.requested (length tr) n_samples <= Z.of_nat (length tr))%Z ->
  interrupt <> Some 0%nat ->
  sample_gp np_random_seed mvn_rvs context tr
    (Deterministic name value (Some (NonConj g0))) X_values n_samples
    obs_noise true model random_seed progressbar interrupt g w
  = (Raise TypeError, w).
Proof.
  intros Hm Hn Hint. unfold sample_gp, bind, lift. rewrite Hm.
  destruct (sample_gp_indices np_random_seed (length tr) n_samples
              random_seed g) as [r g'] eqn:Ei.
  unfold sample_gp_indices in Ei.
  fold (Spec.requested (length tr) n_samples) in Ei.
  match type of Ei with
  | np_random_choice_noreplace ?gg _ _ = _ =>
      destruct (choice_ok gg (length tr)
                  (Spec.requested (length tr) n_samples)
                  ltac:(lia) ltac:(lia)) as (idx & Hi & _ & Hl & Hf)
  end.
  rewrite Ei in Hi. simpl in Hi. subst r.
  destruct idx as [|ix rest]; [simpl in Hl; lia|].
  cbn [ret sample_loop rv_distribution].
  assert (Hk : match interrupt with
               | Some k => (k =? 0)%nat
               | None => false
               end = false).
  { destruct interrupt as [[|k]|]; try reflexivity. contradiction. }
  rewrite Hk.
  assert (Hix : (ix < length tr)%nat) by (inversion Hf; assumption).
  destruct (nth_error tr ix) as [pt|] eqn:En;
    [|apply nth_error_None in En; lia].
  reflexivity.
Qed.

(** X23. The seed: [sample_gp] with a seed different from zero does not
    depend on the state of the generator it finds, and a seed of zero
    is taken for no seed at all. *)
Theorem sample_gp_seed (tr : list GP.point) (gp : RV) (X_values : texp)
    (n_samples : option Z) (obs_noise from_prior : bool)
    (model : option string) (progressbar : bool) (interrupt : option nat)
    (w : world) :
  (forall s g1 g2, s <> 0%Z ->
     sample_gp np_random_seed mvn_rvs context tr gp X_values n_samples
       obs_noise from_prior model (Some s) progressbar interrupt g1 w
     = sample_gp np_random_seed mvn_rvs context tr gp X_values n_samples
         obs_noise from_prior model (Some s) progressbar interrupt g2 w) /\
  (forall g,
     sample_gp np_random_seed mvn_rvs context tr gp X_values n_samples
       obs_noise from_prior model (Some 0%Z) progressbar interrupt g w
     = sample_gp np_random_seed mvn_rvs context tr gp X_values n_samples
         obs_noise from_prior model None progressbar interrupt g w).
Proof.
  split.
  - intros s g1 g2 Hs. unfold sample_gp, sample_gp_indices.
    destruct (Z.eqb_spec s 0); [contradiction|]. reflexivity.
  - intros g. reflexivity.
Qed.

End Sample_gp_more.

(** A non-conjugate GP over three points, one draw from its prior. *)
Lemma sample_gp_nonconjugate_prior_raises_witness :
  sample_gp Instances.np_random_seed Instances.mvn_rvs Instances.context
    Instances.trace3
    (Deterministic "f" (TConst 0)
       (Some (NonConj (GPFullNonConjugate_init "f" (TArr Instances.X3)
                         Instances.Zero Instances.k_expquad))))
    Instances.Xs1 (Some 1%Z) false true None None true None Instances.rng0
    world0
  = (Raise TypeError, world0).
Proof.
  apply (sample_gp_nonconjugate_prior_raises Instances.np_random_seed
           Instances.mvn_rvs Instances.context Instances.trace3 "f"
           (TConst 0) _ Instances.Xs1 (Some 1%Z) false None "model"%string
           None true None Instances.rng0 world0 eq_refl).
  - simpl. lia.
  - discriminate.
Defined.

(** The seed 7 from two different generator states. *)
Lemma sample_gp_seed_witness :
  sample_gp Instances.np_random_seed Instances.mvn_rvs Instances.context
    Instances.trace3 Instances.rv0 Instances.Xs1 None false false None
    (Some 7%Z) true None Instances.rng0 world0
  = sample_gp Instances.np_random_seed Instances.mvn_rvs Instances.context
      Instances.trace3 Instances.rv0 Instances.Xs1 None false false None
      (Some 7%Z) true None (Instances.np_random_seed 3) world0.
Proof.
  apply (proj1 (sample_gp_seed Instances.np_random_seed Instances.mvn_rvs
                  Instances.context Instances.trace3 Instances.rv0
                  Instances.Xs1 None false false None true None world0)).
  discriminate.
Defined.
(** ** The sparse conjugate GP *)

Lemma diag_rect (n : nat) (q : list (list R)) :
  rect n n q -> (0 < n)%nat ->
  Np.diag (Mat q) = Some (Vec (tabulate n (fun i => get q i i))).
Proof.
  intros Hr Hn. cbn [Np.diag]. rewrite (rect_ncols n n q Hr Hn).
  destruct Hr as [Hrows _]. unfold nrows. rewrite Hrows, Nat.min_id.
  reflexivity.
Qed.

Lemma eval_TSub_node (rho : env) (a b : texp) :
  eval rho (TSub a b) = (x <- eval rho a ;; y <- eval rho b ;; sub x y).
Proof. reflexivity. Qed.

Lemma eval_TDiag_node (rho : env) (a : texp) :
  eval rho (TDiag a) = (v <- eval rho a ;; Np.diag v).
Proof. reflexivity. Qed.

(** X24. The covariance of the prior of the sparse conjugate GP without
    observation noise is [stabilize] of [Qff - (diag (Qff) - Kffd)],
    where [Qff = dot (transpose (A), A)].  The vector in brackets is
    subtracted from every row of [Qff]: entry (i, j) of the difference
    is [Qff_ij - Qff_jj + Kffd_j], which is the kernel diagonal on the
    diagonal and keeps a column-wise correction off the diagonal. *)
Theorem sparse_prior_covariance (g : GPSparseConjugate) (w : world)
    (Kuu Kuf Kffd : pyval) :
  call (sc_K g) (sc_Xu g) None false = Ok Kuu ->
  call (sc_K g) (sc_Xu g) (Some (sc_X g)) false = Ok Kuf ->
  call (sc_K g) (sc_X g) None true = Ok Kffd ->
  let A := solve_lower (TCholesky (stabilize (as_tensor_variable Kuu)))
             (as_tensor_variable Kuf) in
  let Qff := TDot (TTranspose A) A in
  exists C w',
    GPSparseConjugate_prior g false w
    = (Ok (mean_call (sc_m g) (sc_X g), stabilize C), w') /\
    forall rho q kd n,
      eval rho Qff = Some (Mat q) -> rect n n q -> (0 < n)%nat ->
      eval rho (as_tensor_variable Kffd) = Some (Vec kd) -> length kd = n ->
      exists c,
        eval rho C = Some (Mat c) /\
        (forall i j, (i < n)%nat -> (j < n)%nat ->
           get c i j = get q i j - get q j j + nth j kd 0) /\
        (forall i, (i < n)%nat -> get c i i = nth i kd 0).
Proof.
  intros Huu Huf Hffd A Qff.
  exists (TSub Qff (TSub (TDiag Qff) (as_tensor_variable Kffd))).
  eexists. split.
  { unfold GPSparseConjugate_prior, bind, cholesky, K_call, bind, lift, ret.
    rewrite Huu, Huf, Hffd. reflexivity. }
  intros rho q kd n Hq Hr Hn Hkd Hlen.
  exists (mat_tab n n (fun i j => get q i j - (get q j j - nth j kd 0))).
  split; [|split].
  - rewrite !eval_TSub_node, eval_TDiag_node, Hq, Hkd. cbn [obind].
    rewrite (diag_rect n q Hr Hn). cbn [obind]. unfold sub.
    assert (Hl : length (tabulate n (fun i => get q i i)) = length kd)
      by (rewrite length_tabulate; symmetry; exact Hlen).
    rewrite (bop_vec_vec rsub Rminus _ kd (fun x y => eq_refl) Hl).
    cbn [obind]. rewrite length_tabulate.
    rewrite (rect_eq_mat_tab n n q Hr) at 1.
    apply (bop_mat_vec rsub n n); [exact Hn | exact Hn |].
    intros i j Hi Hj. unfold rsub. rewrite nth_tabulate by exact Hj.
    reflexivity.
  - intros i j Hi Hj. rewrite get_mat_tab by assumption. lra.
  - intros i Hi. rewrite get_mat_tab by assumption. lra.
Qed.

(** The prior of a sparse GP with one training input and one inducing
    point. *)
Lemma sparse_prior_covariance_witness :
  exists C w',
    GPSparseConjugate_prior (Instances.sparse1 "VFE") false world0
    = (Ok (mean_call Instances.Zero (TArr (Mat [[0]])), stabilize C), w').
Proof.
  destruct (sparse_prior_covariance (Instances.sparse1 "VFE") world0
              _ _ _ eq_refl eq_refl eq_refl) as (C & w' & H & _).
  exists C, w'. exact H.
Defined.

(** ** Sparse GPs the constructor returns *)

Section Sparse_built.
Variables (Zero : Mean) (np_std0 : ndarray -> ndarray)
          (kmeans : ndarray -> Z -> result ndarray)
          (context : list string).

Ltac kernel_total Htot :=
  match goal with
  | H : call ?K ?X ?Xs ?d = Raise _ |- _ =>
      exfalso; destruct (Htot X Xs d) as [? Hv]; rewrite Hv in H;
      discriminate
  end.

(** X25. A sparse conjugate GP the constructor has returned never
    reaches the [NotImplementedError] branches of its methods: its
    approximation is ['VFE'] or ['FITC'], and when every call of its
    kernel succeeds, [prior], [conditional] and [logp] return. *)
Theorem sparse_methods_return name X mean_func cov_func cov_func_noise
    sigma approx n_inducing inducing_points observed model w name' g obs :
  fst (GP Zero np_std0 kmeans context name X mean_func cov_func
         cov_func_noise sigma approx n_inducing inducing_points
         observed model w)
  = Ok (ObservedRV name' (GPDist (Sparse g)) obs) ->
  (forall Xa Xb d, exists v, call (sc_K g) Xa Xb d = Ok v) ->
  forall Xs y b w1,
    (exists r w2, prior (Sparse g) b w1 = (Ok r, w2)) /\
    (exists r w2, conditional (Sparse g) Xs (Some y) b w1 = (Ok r, w2)) /\
    (exists r w2, logp (Sparse g) y w1 = (Ok r, w2)).
Proof.
  intros HGP Htot Xs y b w1.
  destruct (GP_sparse_explicit_approx Zero np_std0 kmeans context _ _ _ _ _
              _ _ _ _ _ _ _ _ _ _ HGP) as (s & _ & Ha & Hs).
  rewrite <- Ha in Hs. clear Ha HGP.
  split; [|split].
  - change (prior (Sparse g) b) with (GPSparseConjugate_prior g b).
    unfold GPSparseConjugate_prior. run_method; try kernel_total Htot.
    do 2 eexists. reflexivity.
  - change (conditional (Sparse g) Xs (Some y) b)
      with (GPSparseConjugate_conditional g Xs y b).
    unfold GPSparseConjugate_conditional.
    destruct Hs as [Hs|Hs]; rewrite Hs; cbn [String.eqb Ascii.eqb Bool.eqb];
      run_method; try kernel_total Htot; do 2 eexists; reflexivity.
  - change (logp (Sparse g) y) with (GPSparseConjugate_logp g y).
    unfold GPSparseConjugate_logp.
    destruct Hs as [Hs|Hs]; rewrite Hs; cbn [String.eqb Ascii.eqb Bool.eqb];
      run_method; try kernel_total Htot; do 2 eexists; reflexivity.
Qed.

End Sparse_built.

(** A sparse GP over three points with two inducing points, built by
    the constructor; its log density. *)
Lemma sparse_methods_return_witness :
  exists g r w2,
    fst (GP Instances.Zero Instances.np_std0 Instances.kmeans
           Instances.context "f" (XArray Instances.X3) None
           (Some (IsCov Instances.k_expquad)) None (Some (TConst 1))
           (Some "VFE"%string) None (Some Instances.Xu2) (Some Instances.y3)
           None world0)
    = Ok (ObservedRV "f" (GPDist (Sparse g)) Instances.y3) /\
    logp (Sparse g) Instances.y3 world0 = (Ok r, w2).
Proof.
  eassert (E : fst (GP Instances.Zero Instances.np_std0 Instances.kmeans
                      Instances.context "f" (XArray Instances.X3) None
                      (Some (IsCov Instances.k_expquad)) None
                      (Some (TConst 1)) (Some "VFE"%string) None
                      (Some Instances.Xu2) (Some Instances.y3) None world0)
                 = Ok (ObservedRV "f" (GPDist (Sparse _)) Instances.y3))
    by reflexivity.
  destruct (sparse_methods_return Instances.Zero Instances.np_std0
              Instances.kmeans Instances.context _ _ _ _ _ _ _ _ _ _ _ _
              _ _ _ E) with (Xs := TArr Instances.Xu2) (y := Instances.y3)
              (b := false) (w1 := world0)
    as (_ & _ & r & w2 & Hl).
  - intros Xa Xb d. eexists. reflexivity.
  - do 3 eexists. split; [exact E | exact Hl].
Defined.
(** ** From the constructor to [sample_gp]: the observed data *)

Lemma observed_named_new (vars : list RV) (name : string)
    (d : distribution) (obs : texp) :
  Forall (fun v => rv_name v <> name) vars ->
  observed_named (vars ++ [ObservedRV name d obs]) name = Ok obs.
Proof.
  intros H. unfold observed_named. rewrite filter_app.
  assert (E : filter (fun v => match v with
                               | ObservedRV n _ _ => String.eqb n name
                               | _ => false
                               end) vars = []).
  { induction H as [|v vars Hv _ IH]; [reflexivity|]. simpl.
    destruct v as [n ? ?|n ? ?|n ? ?]; try exact IH.
    simpl in Hv. apply String.eqb_neq in Hv. rewrite Hv. exact IH. }
  rewrite E. simpl. rewrite String.eqb_refl. reflexivity.
Qed.

Section Observed.
Variables (Zero : Mean) (np_std0 : ndarray -> ndarray)
          (kmeans : ndarray -> Z -> result ndarray)
          (context : list string).

Lemma GP_observed_shape name X mean_func cov_func cov_func_noise sigma
    approx n_inducing inducing_points obs model w rv w' :
  GP Zero np_std0 kmeans context name X mean_func cov_func cov_func_noise
     sigma approx n_inducing inducing_points (Some obs) model w
  = (Ok rv, w') ->
  exists o, rv = ObservedRV name (GPDist o) obs /\
            (forall g, o <> NonConj g) /\
            model_vars w' = model_vars w ++ [rv].
Proof.
  unfold GP, bind, lift.
  destruct (modelcontext context model); [|discriminate].
  destruct mean_func as [[m|]|]; unfold ret, raise; simpl;
    try discriminate;
    (destruct cov_func as [[k|]|]; simpl; try discriminate;
     destruct approx as [s|]; simpl;
     [ | destruct n_inducing, inducing_points, sigma, cov_func_noise;
         simpl; try discriminate;
         intros H; inversion H; subst; eexists;
         (split; [reflexivity|]); (split; [discriminate | reflexivity]) ];
     destruct inducing_points as [ip|]; simpl;
     [ | destruct n_inducing as [n|]; simpl;
         [ destruct (kmeans_inducing np_std0 kmeans X n) as [[X' ip]|];
           simpl; [|discriminate] | ] ];
     destruct (_ || _)%bool; simpl; try discriminate;
     try (destruct n_inducing; simpl; try discriminate);
     unfold GPSparseConjugate_init; destruct sigma; simpl;
     try discriminate;
     intros H; inversion H; subst; eexists;
     (split; [reflexivity|]); (split; [discriminate | reflexivity])).
Qed.

(** X26. A GP built with observed data is an observed variable of the
    model under its own name, carrying these data and a conjugate GP as
    its distribution; it is the one variable the constructor adds.
    When no variable of the model had this name before, the lookup
    [sample_gp] makes among the observed variables finds these data. *)
Theorem GP_observed_found name X mean_func cov_func cov_func_noise sigma
    approx n_inducing inducing_points obs model w rv w' :
  GP Zero np_std0 kmeans context name X mean_func cov_func cov_func_noise
     sigma approx n_inducing inducing_points (Some obs) model w
  = (Ok rv, w') ->
  Forall (fun v => rv_name v <> name) (model_vars w) ->
  (exists o, rv = ObservedRV name (GPDist o) obs /\
             rv_distribution rv = Some o /\ forall g, o <> NonConj g) /\
  model_vars w' = model_vars w ++ [rv] /\
  observed_named (model_vars w') name = Ok obs.
Proof.
  intros HGP Hfresh.
  destruct (GP_observed_shape _ _ _ _ _ _ _ _ _ _ _ _ _ _ HGP)
    as (o & -> & Hnc & Hvars).
  split; [exists o; split; [reflexivity|]; split; [reflexivity | exact Hnc]|].
  split; [exact Hvars|].
  rewrite Hvars. apply observed_named_new. exact Hfresh.
Qed.

End Observed.

(** A full conjugate GP added to an empty model. *)
Lemma GP_observed_found_witness :
  exists rv w',
    GP Instances.Zero Instances.np_std0 Instances.kmeans Instances.context
       "f" (XArray Instances.X3) None (Some (IsCov Instances.k_expquad))
       None (Some (TConst 1)) None None None (Some Instances.y3) None world0
    = (Ok rv, w') /\
    observed_named (model_vars w') "f" = Ok Instances.y3.
Proof.
  eassert (E : GP Instances.Zero Instances.np_std0 Instances.kmeans
                 Instances.context "f" (XArray Instances.X3) None
                 (Some (IsCov Instances.k_expquad)) None (Some (TConst 1))
                 None None None (Some Instances.y3) None world0
               = (Ok _, _)) by reflexivity.
  destruct (GP_observed_found Instances.Zero Instances.np_std0
              Instances.kmeans Instances.context _ _ _ _ _ _ _ _ _ _ _ _
              _ _ E (Forall_nil _)) as (_ & _ & H).
  do 2 eexists. split; [exact E | exact H].
Defined.
